(** * nfx-stringbuilderpool: a shallow embedding of the buffer-pooling engine

    The development follows the C++ sources:
    - [src/src/StringBuilderPool.cpp] and [include/nfx/string/StringBuilderPool.h]
      (classes [DynamicStringBuffer], [StringBuilderLease], [StringBuilderPool]),
    - [include/nfx/detail/string/StringBuilderPool.inl] (the inline lease methods),
    - [src/src/DynamicStringBufferPool.cpp] and its header (the three-tier pool).

    Conventions.
    - [size_t] and [uint64_t] are [Z] with the 64-bit wrap-around written out
      ([wrap64]).
    - A [char] array is a [list byte]; [std::string_view] and [std::string]
      arguments are the [list byte] they denote; a [const char*] argument is
      an [option (list byte)], [None] being [nullptr].
    - Objects allocated with [new] live in a store indexed by addresses;
      [thread_local] variables are maps indexed by thread identifiers.
    - A method returns a [result]: a value, a thrown exception, or
      [Undefined] where C++ gives the program no meaning (an out-of-bounds
      [memcpy], a dangling pointer, an out-of-range floating conversion).
      Allocation itself is modelled as always succeeding.
    - Threads interleave at the granularity of whole method calls: each call
      is given the identifier of the thread that makes it and runs to its end
      before the next one starts.
    - A thread that ends runs no code of the pool, and its [thread_local]
      slot keeps the buffer it holds: the source never uses the object
      [t_cleanup], so that its destructor need not run.  The destructor is
      modelled as a call of its own that may or may not occur. *)

From Stdlib Require Import ZArith Lia Bool List.
From Stdlib Require Import Strings.Byte.
From Stdlib Require Import SpecFloat.
From stdpp Require Import base option list gmap strings.

Local Open Scope Z_scope.

(** ** Machine integers *)

Definition wrap64 (x : Z) : Z := x mod 2 ^ 64.

(** ** Outcomes of a method call *)

Inductive exception : Type :=
| runtime_error (what : string).

Inductive result (A : Type) : Type :=
| Ok (a : A)
| Throw (e : exception)
| Undefined.

Arguments Ok {A} a.
Arguments Throw {A} e.
Arguments Undefined {A}.

#[global] Instance result_ret : MRet result := fun _ a => Ok a.

#[global] Instance result_bind : MBind result := fun _ _ f r =>
  match r with
  | Ok a => f a
  | Throw e => Throw e
  | Undefined => Undefined
  end.

(** Dereferencing a pointer that may be null. *)
Definition deref {A : Type} (p : option A) : result A :=
  match p with
  | Some a => Ok a
  | None => Undefined
  end.

(** ** Raw memory *)

Definition len (l : list byte) : Z := Z.of_nat (length l).

(** [std::make_unique<char[]>( n )]: [n] value-initialised (zero) bytes. *)
Definition make_unique (n : Z) : list byte := replicate (Z.to_nat n) x00.

(** [std::memcpy( dst + off, src, n )]; the arrays must hold the ranges. *)
Definition memcpy (dst : list byte) (off : Z) (src : list byte) (n : Z) : result (list byte) :=
  if (0 <=? off) && (0 <=? n) && (n <=? len src) && (off + n <=? len dst)
  then Ok (take (Z.to_nat off) dst ++ take (Z.to_nat n) src ++ drop (Z.to_nat (off + n)) dst)
  else Undefined.

(** [std::strlen]: the bytes before the first NUL.  The list holds the
    memory the pointer addresses; its end stands for the terminator. *)
Fixpoint c_str (mem : list byte) : list byte :=
  match mem with
  | [] => []
  | c :: rest => if Byte.eqb c x00 then [] else c :: c_str rest
  end.

(** ** IEEE binary64 arithmetic used by the growth policy

    [m_capacity * GROWTH_FACTOR] converts [m_capacity] to [double],
    multiplies by [1.5] and converts back with [static_cast<size_t>].
    Each floating operation rounds its exact result to 53 significant bits,
    ties to even. *)

(** Round a non-negative integer to 53 significant bits, ties to even. *)
Definition rne53 (x : Z) : Z :=
  if x <? 2 ^ 53 then x
  else
    let k := Z.log2 x - 52 in
    let q := x / 2 ^ k in
    let r := x mod 2 ^ k in
    let half := 2 ^ (k - 1) in
    let q' := if (half <? r) || ((r =? half) && Z.odd q) then q + 1 else q in
    q' * 2 ^ k.

(** [static_cast<size_t>( c * 1.5 )].  The product is kept in units of one
    half: [3 * d] halves for the double [d], rounded, then truncated.  A
    value that does not fit [size_t] makes the conversion undefined. *)
Definition scale_capacity (c : Z) : result Z :=
  let d := rne53 c in
  let halves := rne53 (3 * d) in
  let v := halves / 2 in
  if v <? 2 ^ 64 then Ok v else Undefined.

(** The same conversion written with the library's specification of IEEE 754
    arithmetic, instantiated at binary64 (precision 53, maximal exponent
    1024); it is used only to test [scale_capacity]. *)
Definition scale_capacity_IEEE (c : Z) : result Z :=
  let d := binary_normalize 53 1024 c 0 false in
  let growth_factor := S754_finite false 6755399441055744 (-52) in
  let v := match SFmul 53 1024 d growth_factor with
           | S754_finite _ m e => if 0 <=? e then Z.pos m * 2 ^ e else Z.pos m / 2 ^ (- e)
           | _ => 0
           end in
  if v <? 2 ^ 64 then Ok v else Undefined.

(** Capacities on both sides of each rounding boundary. *)
Definition sample_capacities : list Z :=
  [0; 1; 2; 3; 255; 256; 257; 384; 385; 576; 2048; 2 ^ 51 - 1; 2 ^ 51 + 1;
   3002399751580331; 3002399751580333; 2 ^ 52 + 1; 2 ^ 52 + 3;
   6004799503160661; 6004799503160663; 2 ^ 53 - 1; 2 ^ 53 + 1; 2 ^ 53 + 3;
   2 ^ 54 + 2; 2 ^ 54 + 6; 2 ^ 60 + 12345; 2 ^ 62 + 2 ^ 9; 2 ^ 62 + 2 ^ 9 + 1;
   2 ^ 63 + 2 ^ 10; 2 ^ 63 + 3 * 2 ^ 10; 12297829382473033728; 12297829382473035776;
   2 ^ 64 - 1].

(** ** DynamicStringBuffer *)

Module DynamicStringBuffer.

Definition STACK_BUFFER_SIZE : Z := 256.

Record t : Type := Build {
  m_stackBuffer : list byte;
  m_heapBuffer : option (list byte);
  m_size : Z;
  m_capacity : Z;
  m_onHeap : bool
}.

(** [DynamicStringBuffer()].  The inline array is left uninitialised by the
    constructor; it is zero-filled here, and no statement reads a byte of it
    that was not written before. *)
Definition default : t :=
  {| m_stackBuffer := make_unique STACK_BUFFER_SIZE;
     m_heapBuffer := None;
     m_size := 0;
     m_capacity := STACK_BUFFER_SIZE;
     m_onHeap := false |}.

(** [DynamicStringBuffer( size_t initialCapacity )] *)
Definition with_capacity (initialCapacity : Z) : t :=
  if STACK_BUFFER_SIZE <? initialCapacity
  then {| m_stackBuffer := make_unique STACK_BUFFER_SIZE;
          m_heapBuffer := Some (make_unique initialCapacity);
          m_size := 0;
          m_capacity := initialCapacity;
          m_onHeap := true |}
  else default.

(** [DynamicStringBuffer( const DynamicStringBuffer& other )] *)
Definition copy_construct (other : t) : result t :=
  if m_onHeap other then
    src ← deref (m_heapBuffer other);
    heap ← memcpy (make_unique (m_capacity other)) 0 src (m_size other);
    Ok {| m_stackBuffer := make_unique STACK_BUFFER_SIZE;
          m_heapBuffer := Some heap;
          m_size := m_size other;
          m_capacity := m_capacity other;
          m_onHeap := true |}
  else
    stack ← memcpy (make_unique STACK_BUFFER_SIZE) 0 (m_stackBuffer other) (m_size other);
    Ok {| m_stackBuffer := stack;
          m_heapBuffer := None;
          m_size := m_size other;
          m_capacity := m_capacity other;
          m_onHeap := false |}.

(** What a move leaves in [other]: its heap pointer was moved out, and the
    three scalar members are reset. *)
Definition moved_from (other : t) : t :=
  {| m_stackBuffer := m_stackBuffer other;
     m_heapBuffer := None;
     m_size := 0;
     m_capacity := STACK_BUFFER_SIZE;
     m_onHeap := false |}.

(** [DynamicStringBuffer( DynamicStringBuffer&& other )]: the new object and
    the state left in [other]. *)
Definition move_construct (other : t) : result (t * t) :=
  stack ← (if negb (m_onHeap other)
           then memcpy (make_unique STACK_BUFFER_SIZE) 0 (m_stackBuffer other) (m_size other)
           else Ok (make_unique STACK_BUFFER_SIZE));
  Ok ({| m_stackBuffer := stack;
         m_heapBuffer := m_heapBuffer other;
         m_size := m_size other;
         m_capacity := m_capacity other;
         m_onHeap := m_onHeap other |},
      moved_from other).

(** [operator=( const DynamicStringBuffer& other )] for [this != &other]. *)
Definition copy_assign (other this : t) : result t :=
  if m_onHeap other then
    let grown := negb (m_onHeap this) || (m_capacity this <? m_capacity other) in
    let heap0 := if grown then Some (make_unique (m_capacity other)) else m_heapBuffer this in
    dst ← deref heap0;
    src ← deref (m_heapBuffer other);
    heap ← memcpy dst 0 src (m_size other);
    Ok {| m_stackBuffer := m_stackBuffer this;
          m_heapBuffer := Some heap;
          m_size := m_size other;
          m_capacity := if grown then m_capacity other else m_capacity this;
          m_onHeap := if grown then true else m_onHeap this |}
  else
    stack ← memcpy (m_stackBuffer this) 0 (m_stackBuffer other) (m_size other);
    Ok {| m_stackBuffer := stack;
          m_heapBuffer := if m_onHeap this then None else m_heapBuffer this;
          m_size := m_size other;
          m_capacity := if m_onHeap this then STACK_BUFFER_SIZE else m_capacity this;
          m_onHeap := if m_onHeap this then false else m_onHeap this |}.

(** [operator=( DynamicStringBuffer&& other )] for [this != &other]: the new
    state of [this] and the state left in [other]. *)
Definition move_assign (other this : t) : result (t * t) :=
  stack ← (if negb (m_onHeap other)
           then memcpy (m_stackBuffer this) 0 (m_stackBuffer other) (m_size other)
           else Ok (m_stackBuffer this));
  Ok ({| m_stackBuffer := stack;
         m_heapBuffer := m_heapBuffer other;
         m_size := m_size other;
         m_capacity := m_capacity other;
         m_onHeap := m_onHeap other |},
      moved_from other).

Definition size (b : t) : Z := m_size b.

Definition capacity (b : t) : Z := m_capacity b.

Definition isEmpty (b : t) : bool := m_size b =? 0.

(** [currentBuffer()]: the heap pointer (possibly null) or the inline array. *)
Definition currentBuffer (b : t) : option (list byte) :=
  if m_onHeap b then m_heapBuffer b else Some (m_stackBuffer b).

(** Replace the contents of the array [currentBuffer()] points to. *)
Definition set_currentBuffer (mem : list byte) (b : t) : t :=
  if m_onHeap b
  then {| m_stackBuffer := m_stackBuffer b;
          m_heapBuffer := Some mem;
          m_size := m_size b;
          m_capacity := m_capacity b;
          m_onHeap := m_onHeap b |}
  else {| m_stackBuffer := mem;
          m_heapBuffer := m_heapBuffer b;
          m_size := m_size b;
          m_capacity := m_capacity b;
          m_onHeap := m_onHeap b |}.

Definition set_size (n : Z) (b : t) : t :=
  {| m_stackBuffer := m_stackBuffer b;
     m_heapBuffer := m_heapBuffer b;
     m_size := n;
     m_capacity := m_capacity b;
     m_onHeap := m_onHeap b |}.

(** [clear()] *)
Definition clear (b : t) : t := set_size 0 b.

(** [ensureCapacity( needed_capacity )] *)
Definition ensureCapacity (needed_capacity : Z) (b : t) : result t :=
  if needed_capacity <=? m_capacity b then Ok b
  else
    scaled ← scale_capacity (m_capacity b);
    let new_capacity := Z.max needed_capacity scaled in
    if negb (m_onHeap b) && (new_capacity <=? STACK_BUFFER_SIZE) then Ok b
    else if negb (m_onHeap b) then
      heap ← (if 0 <? m_size b
              then memcpy (make_unique new_capacity) 0 (m_stackBuffer b) (m_size b)
              else Ok (make_unique new_capacity));
      Ok {| m_stackBuffer := m_stackBuffer b;
            m_heapBuffer := Some heap;
            m_size := m_size b;
            m_capacity := new_capacity;
            m_onHeap := true |}
    else
      new_buffer ← (if 0 <? m_size b
                    then old ← deref (m_heapBuffer b);
                         memcpy (make_unique new_capacity) 0 old (m_size b)
                    else Ok (make_unique new_capacity));
      Ok {| m_stackBuffer := m_stackBuffer b;
            m_heapBuffer := Some new_buffer;
            m_size := m_size b;
            m_capacity := new_capacity;
            m_onHeap := m_onHeap b |}.

(** [reserve( newCapacity )] *)
Definition reserve (newCapacity : Z) (b : t) : result t :=
  if m_capacity b <? newCapacity then ensureCapacity newCapacity b else Ok b.

(** [resize( newSize )] *)
Definition resize (newSize : Z) (b : t) : result t :=
  b1 ← ensureCapacity newSize b;
  Ok (set_size newSize b1).

(** [append( std::string_view str )] *)
Definition append (str : list byte) (b : t) : result t :=
  if negb (len str =? 0) then
    let new_size := wrap64 (m_size b + len str) in
    b1 ← ensureCapacity new_size b;
    cur ← deref (currentBuffer b1);
    mem ← memcpy cur (m_size b1) str (len str);
    Ok (set_size new_size (set_currentBuffer mem b1))
  else Ok b.

(** [append( const std::string& str )] *)
Definition append_string (str : list byte) (b : t) : result t := append str b.

(** [append( const char* str )] *)
Definition append_c_str (str : option (list byte)) (b : t) : result t :=
  match str with
  | Some mem => append (c_str mem) b
  | None => Ok b
  end.

(** [push_back( char c )] *)
Definition push_back (c : byte) (b : t) : result t :=
  b1 ← ensureCapacity (wrap64 (m_size b + 1)) b;
  cur ← deref (currentBuffer b1);
  mem ← memcpy cur (m_size b1) [c] 1;
  Ok (set_size (wrap64 (m_size b1 + 1)) (set_currentBuffer mem b1)).

(** [toString()]: [std::string( currentBuffer(), m_size )] *)
Definition toString (b : t) : result (list byte) :=
  cur ← deref (currentBuffer b);
  if (0 <=? m_size b) && (m_size b <=? len cur)
  then Ok (take (Z.to_nat (m_size b)) cur)
  else Undefined.

(** [operator[]( index ) = c]; the header documents the behaviour as
    undefined for [index >= size()]. *)
Definition store (index : Z) (c : byte) (b : t) : result t :=
  if (0 <=? index) && (index <? m_size b) then
    cur ← deref (currentBuffer b);
    mem ← memcpy cur index [c] 1;
    Ok (set_currentBuffer mem b)
  else Undefined.

(** The representation invariant of the class: the inline array has
    [STACK_BUFFER_SIZE] bytes, [m_size <= m_capacity], the capacity is that of
    the active storage, and it fits [size_t]. *)
Definition well_formed (b : t) : bool :=
  (len (m_stackBuffer b) =? STACK_BUFFER_SIZE)
  && (0 <=? m_size b) && (m_size b <=? m_capacity b) && (m_capacity b <? 2 ^ 64)
  && (if m_onHeap b
      then match m_heapBuffer b with
           | Some heap => (len heap =? m_capacity b) && (STACK_BUFFER_SIZE <=? m_capacity b)
           | None => false
           end
      else m_capacity b =? STACK_BUFFER_SIZE).

(** The four ways of appending. *)
Inductive append_call : Type :=
| AppendStringView (str : list byte)
| AppendString (str : list byte)
| AppendCString (str : option (list byte))
| PushBack (c : byte).

Definition exec_append (a : append_call) (b : t) : result t :=
  match a with
  | AppendStringView str => append str b
  | AppendString str => append_string str b
  | AppendCString str => append_c_str str b
  | PushBack c => push_back c b
  end.

(** The byte sequence a call appends. *)
Definition appended (a : append_call) : list byte :=
  match a with
  | AppendStringView str => str
  | AppendString str => str
  | AppendCString (Some mem) => c_str mem
  | AppendCString None => []
  | PushBack c => [c]
  end.

(** The calls a client can make on a buffer.  [CopyAssign] and [MoveAssign]
    carry the state of the other (distinct) buffer; [MovedFrom] is the effect
    on a buffer of being the source of a move.  An integer argument is
    converted to [size_t] at the call. *)
Inductive call : Type :=
| Append (a : append_call)
| Clear
| Reserve (newCapacity : Z)
| Resize (newSize : Z)
| Store (index : Z) (c : byte)
| CopyAssign (other : t)
| MoveAssign (other : t)
| MovedFrom.

Definition exec (c : call) (b : t) : result t :=
  match c with
  | Append a => exec_append a b
  | Clear => Ok (clear b)
  | Reserve n => reserve (wrap64 n) b
  | Resize n => resize (wrap64 n) b
  | Store i c => store i c b
  | CopyAssign other => copy_assign other b
  | MoveAssign other => r ← move_assign other b; Ok r.1
  | MovedFrom => Ok (moved_from b)
  end.

(** The other buffer of an assignment is itself a buffer of the program,
    hence well formed. *)
Definition admissible (c : call) : bool :=
  match c with
  | CopyAssign other | MoveAssign other => well_formed other
  | _ => true
  end.

(** The calls that work on the buffer in place, as opposed to the
    assignments and moves that replace its state by that of another. *)
Definition in_place (c : call) : bool :=
  match c with
  | Append _ | Clear | Reserve _ | Resize _ | Store _ _ => true
  | CopyAssign _ | MoveAssign _ | MovedFrom => false
  end.

Fixpoint run {C : Type} (f : C → t → result t) (calls : list C) (b : t) : result t :=
  match calls with
  | [] => Ok b
  | c :: rest => b ← f c b; run f rest b
  end.

(** [operator[]( index ) const], read; undefined for [index >= size()] as
    the header documents. *)
Definition load (index : Z) (b : t) : result byte :=
  if (0 <=? index) && (index <? m_size b) then
    cur ← deref (currentBuffer b);
    deref (cur !! Z.to_nat index)
  else Undefined.

(** [begin()] and [end()], as offsets from the start of the active array. *)
Definition begin_offset (b : t) : Z := 0.

Definition end_offset (b : t) : Z := m_size b.

End DynamicStringBuffer.

(** ** DynamicStringBufferPool *)

(** Addresses of [DynamicStringBuffer] objects created with [new], and
    thread identifiers. *)
Abbreviation ptr := positive (only parsing).
Abbreviation tid := nat (only parsing).

Module DynamicStringBufferPool.

(** [struct PoolStatistics]: four [std::atomic<uint64_t>] counters. *)
Record PoolStatistics : Type := BuildStatistics {
  threadLocalHits : Z;
  dynamicStringBufferPoolHits : Z;
  newAllocations : Z;
  totalRequests : Z
}.

Record t : Type := Build {
  m_pool : list ptr;   (* std::vector: [back()] is the last element *)
  m_initialCapacity : Z;
  m_maximumRetainedCapacity : Z;
  m_maxPoolSize : Z;
  m_stats : PoolStatistics
}.

(** The part of the process the pool works on: the free store holding the
    buffers, the [thread_local] variable [t_cachedBuffer] of every thread
    (no entry: [nullptr]) and the pool object. *)
Record process : Type := BuildProcess {
  objects : gmap ptr DynamicStringBuffer.t;
  t_cachedBuffer : gmap tid ptr;
  pool : t
}.

(** [DynamicStringBufferPool( initialCapacity, maximumRetainedCapacity, maxPoolSize )] *)
Definition construct (initialCapacity maximumRetainedCapacity maxPoolSize : Z) : t :=
  {| m_pool := [];
     m_initialCapacity := initialCapacity;
     m_maximumRetainedCapacity := maximumRetainedCapacity;
     m_maxPoolSize := maxPoolSize;
     m_stats := BuildStatistics 0 0 0 0 |}.

(** [dynamicStringBufferPool()]: the singleton, [pool{ 256, 2048, 24 }]. *)
Definition dynamicStringBufferPool : t := construct 256 2048 24.

Definition set_stats (s : PoolStatistics) (w : process) : process :=
  {| objects := objects w;
     t_cachedBuffer := t_cachedBuffer w;
     pool := {| m_pool := m_pool (pool w);
                m_initialCapacity := m_initialCapacity (pool w);
                m_maximumRetainedCapacity := m_maximumRetainedCapacity (pool w);
                m_maxPoolSize := m_maxPoolSize (pool w);
                m_stats := s |} |}.

Definition set_pool (v : list ptr) (w : process) : process :=
  {| objects := objects w;
     t_cachedBuffer := t_cachedBuffer w;
     pool := {| m_pool := v;
                m_initialCapacity := m_initialCapacity (pool w);
                m_maximumRetainedCapacity := m_maximumRetainedCapacity (pool w);
                m_maxPoolSize := m_maxPoolSize (pool w);
                m_stats := m_stats (pool w) |} |}.

Definition set_cached (c : gmap tid ptr) (w : process) : process :=
  {| objects := objects w; t_cachedBuffer := c; pool := pool w |}.

Definition set_objects (o : gmap ptr DynamicStringBuffer.t) (w : process) : process :=
  {| objects := o; t_cachedBuffer := t_cachedBuffer w; pool := pool w |}.

(** [counter.fetch_add( 1, std::memory_order_relaxed )] on each counter. *)
Definition add_totalRequests (s : PoolStatistics) : PoolStatistics :=
  {| threadLocalHits := threadLocalHits s;
     dynamicStringBufferPoolHits := dynamicStringBufferPoolHits s;
     newAllocations := newAllocations s;
     totalRequests := wrap64 (totalRequests s + 1) |}.

Definition add_threadLocalHits (s : PoolStatistics) : PoolStatistics :=
  {| threadLocalHits := wrap64 (threadLocalHits s + 1);
     dynamicStringBufferPoolHits := dynamicStringBufferPoolHits s;
     newAllocations := newAllocations s;
     totalRequests := totalRequests s |}.

Definition add_dynamicStringBufferPoolHits (s : PoolStatistics) : PoolStatistics :=
  {| threadLocalHits := threadLocalHits s;
     dynamicStringBufferPoolHits := wrap64 (dynamicStringBufferPoolHits s + 1);
     newAllocations := newAllocations s;
     totalRequests := totalRequests s |}.

Definition add_newAllocations (s : PoolStatistics) : PoolStatistics :=
  {| threadLocalHits := threadLocalHits s;
     dynamicStringBufferPoolHits := dynamicStringBufferPoolHits s;
     newAllocations := wrap64 (newAllocations s + 1);
     totalRequests := totalRequests s |}.

(** [buffer->clear()] through a pointer. *)
Definition clear_at (buffer : ptr) (w : process) : result process :=
  b ← deref (objects w !! buffer);
  Ok (set_objects (<[buffer := DynamicStringBuffer.clear b]> (objects w)) w).

(** [delete buffer] for a non-null pointer: the object must be live. *)
Definition delete_object (buffer : ptr) (w : process) : result process :=
  _ ← deref (objects w !! buffer);
  Ok (set_objects (delete buffer (objects w)) w).

(** [get()], called by thread [self]. *)
Definition get (self : tid) (w : process) : result (ptr * process) :=
  let w := set_stats (add_totalRequests (m_stats (pool w))) w in
  match t_cachedBuffer w !! self with
  | Some buffer =>
      let w := set_stats (add_threadLocalHits (m_stats (pool w))) w in
      let w := set_cached (delete self (t_cachedBuffer w)) w in
      w ← clear_at buffer w;
      Ok (buffer, w)
  | None =>
      match last (m_pool (pool w)) with
      | Some buffer =>
          let w := set_stats (add_dynamicStringBufferPoolHits (m_stats (pool w))) w in
          let w := set_pool (removelast (m_pool (pool w))) w in
          w ← clear_at buffer w;
          Ok (buffer, w)
      | None =>
          let w := set_stats (add_newAllocations (m_stats (pool w))) w in
          let buffer := fresh (dom (objects w)) in
          b ← DynamicStringBuffer.reserve (m_initialCapacity (pool w)) DynamicStringBuffer.default;
          Ok (buffer, set_objects (<[buffer := b]> (objects w)) w)
      end
  end.

(** [returnToPool( buffer )], called by thread [self]. *)
Definition returnToPool (self : tid) (buffer : option ptr) (w : process) : result process :=
  match buffer with
  | None => Ok w
  | Some buffer =>
      b ← deref (objects w !! buffer);
      if m_maximumRetainedCapacity (pool w) <? DynamicStringBuffer.capacity b
      then delete_object buffer w
      else
        match t_cachedBuffer w !! self with
        | None => Ok (set_cached (<[self := buffer]> (t_cachedBuffer w)) w)
        | Some _ =>
            if Z.of_nat (length (m_pool (pool w))) <? m_maxPoolSize (pool w)
            then Ok (set_pool (m_pool (pool w) ++ [buffer]) w)
            else delete_object buffer w
        end
  end.

(** [PoolStatistics::reset()] *)
Definition reset (s : PoolStatistics) : PoolStatistics := BuildStatistics 0 0 0 0.

(** [stats()] *)
Definition stats (w : process) : PoolStatistics := m_stats (pool w).

(** [for ( auto* buffer : m_pool ) delete buffer;] *)
Fixpoint delete_each (buffers : list ptr) (w : process) : result process :=
  match buffers with
  | [] => Ok w
  | buffer :: rest => w ← delete_object buffer w; delete_each rest w
  end.

(** [clear()], called by thread [self]: the count of buffers freed. *)
Definition clear (self : tid) (w : process) : result (Z * process) :=
  let clearedCount := Z.of_nat (length (m_pool (pool w))) in
  w ← delete_each (m_pool (pool w)) w;
  let w := set_pool [] w in
  match t_cachedBuffer w !! self with
  | Some cached =>
      w ← delete_object cached w;
      Ok (wrap64 (clearedCount + 1), set_cached (delete self (t_cachedBuffer w)) w)
  | None => Ok (clearedCount, w)
  end.

(** [size()], called by thread [self]. *)
Definition size (self : tid) (w : process) : Z :=
  let count := Z.of_nat (length (m_pool (pool w))) in
  match t_cachedBuffer w !! self with
  | Some _ => wrap64 (count + 1)
  | None => count
  end.

(** [resetStats()] *)
Definition resetStats (w : process) : process :=
  set_stats (reset (m_stats (pool w))) w.

(** [~ThreadLocalCleanup()]: the destructor of the [thread_local] object
    [t_cleanup] of thread [self].  The source declares [t_cleanup] and never
    names it again, so an implementation need not construct the object, and
    then its destructor does not run when the thread ends. *)
Definition ThreadLocalCleanup (self : tid) (w : process) : result process :=
  match t_cachedBuffer w !! self with
  | Some cached =>
      w ← delete_object cached w;
      Ok (set_cached (delete self (t_cachedBuffer w)) w)
  | None => Ok w
  end.

End DynamicStringBufferPool.

(** ** StringBuilder: a reference to the buffer of a lease *)

Module StringBuilder.

Record t : Type := Build { m_buffer : ptr }.

(** A method of the referenced buffer, called through the reference. *)
Definition on_buffer (f : DynamicStringBuffer.t → result DynamicStringBuffer.t)
    (this : t) (w : DynamicStringBufferPool.process)
  : result DynamicStringBufferPool.process :=
  b ← deref (DynamicStringBufferPool.objects w !! m_buffer this);
  b' ← f b;
  Ok (DynamicStringBufferPool.set_objects
        (<[m_buffer this := b']> (DynamicStringBufferPool.objects w)) w).

(** [append( std::string_view str )] *)
Definition append (str : list byte) (this : t) (w : DynamicStringBufferPool.process)
  : result DynamicStringBufferPool.process :=
  on_buffer (DynamicStringBuffer.append str) this w.

(** [append( const std::string& str )] *)
Definition append_string (str : list byte) (this : t) (w : DynamicStringBufferPool.process)
  : result DynamicStringBufferPool.process :=
  on_buffer (DynamicStringBuffer.append_string str) this w.

(** [append( const char* str )]: the builder tests the pointer itself. *)
Definition append_c_str (str : option (list byte)) (this : t)
    (w : DynamicStringBufferPool.process)
  : result DynamicStringBufferPool.process :=
  match str with
  | Some mem => on_buffer (DynamicStringBuffer.append_c_str (Some mem)) this w
  | None => Ok w
  end.

(** [push_back( char c )] *)
Definition push_back (c : byte) (this : t) (w : DynamicStringBufferPool.process)
  : result DynamicStringBufferPool.process :=
  on_buffer (DynamicStringBuffer.push_back c) this w.

(** [operator<<], one overload per kind of argument: the append of that
    kind; the builder returned for chaining is [this]. *)
Definition shift (a : DynamicStringBuffer.append_call) (this : t)
    (w : DynamicStringBufferPool.process)
  : result DynamicStringBufferPool.process :=
  match a with
  | DynamicStringBuffer.AppendStringView str => append str this w
  | DynamicStringBuffer.AppendString str => append_string str this w
  | DynamicStringBuffer.AppendCString str => append_c_str str this w
  | DynamicStringBuffer.PushBack c => push_back c this w
  end.

(** [builder << a1 << a2 << ...] *)
Fixpoint chain (calls : list DynamicStringBuffer.append_call) (this : t)
    (w : DynamicStringBufferPool.process)
  : result DynamicStringBufferPool.process :=
  match calls with
  | [] => Ok w
  | a :: rest => w ← shift a this w; chain rest this w
  end.

(** [length()] *)
Definition length (this : t) (w : DynamicStringBufferPool.process) : result Z :=
  b ← deref (DynamicStringBufferPool.objects w !! m_buffer this);
  Ok (DynamicStringBuffer.size b).

(** [resize( newSize )] *)
Definition resize (newSize : Z) (this : t) (w : DynamicStringBufferPool.process)
  : result DynamicStringBufferPool.process :=
  on_buffer (DynamicStringBuffer.resize newSize) this w.

(** [StringBuilder::Enumerator].  Its three pointers are offsets from the
    start of the active array of the buffer of the builder; [begin() - 1] is
    the offset [-1].  The pointers are meaningful as long as the buffer is not
    modified. *)
Module Enumerator.

Record t : Type := Build {
  m_data : Z;
  m_end : Z;
  m_current : Z
}.

(** [Enumerator( const StringBuilder& builder )], for the buffer [b] the
    builder refers to. *)
Definition construct (b : DynamicStringBuffer.t) : t :=
  {| m_data := DynamicStringBuffer.begin_offset b;
     m_end := DynamicStringBuffer.end_offset b;
     m_current := DynamicStringBuffer.begin_offset b - 1 |}.

(** [next()]: the value returned and the new state. *)
Definition next (this : t) : bool * t :=
  let next_pos := m_current this + 1 in
  if next_pos <? m_end this
  then (true, {| m_data := m_data this; m_end := m_end this; m_current := next_pos |})
  else (false, this).

(** [current()]: [*m_current], read from the array [mem] the pointers are
    into. *)
Definition current (this : t) (mem : list byte) : result byte :=
  if 0 <=? m_current this then deref (mem !! Z.to_nat (m_current this)) else Undefined.

(** [reset()] *)
Definition reset (this : t) : t :=
  {| m_data := m_data this; m_end := m_end this; m_current := m_data this - 1 |}.

(** [while ( e.next() ) result += e.current();] with at most [fuel]
    calls of [next]; [None] when the fuel does not suffice.  The characters
    collected and the final enumerator. *)
Fixpoint collect (fuel : nat) (this : t) (mem : list byte) : option (result (list byte * t)) :=
  match fuel with
  | O => None
  | S fuel =>
      let r := next this in
      if r.1 then
        match current r.2 mem with
        | Ok c =>
            match collect fuel r.2 mem with
            | Some (Ok rest) => Some (Ok (c :: rest.1, rest.2))
            | other => other
            end
        | Throw e => Some (Throw e)
        | Undefined => Some Undefined
        end
      else Some (Ok ([], r.2))
  end.

End Enumerator.

End StringBuilder.

(** ** StringBuilderLease *)

Module StringBuilderLease.

Record t : Type := Build {
  m_buffer : option ptr;   (* [None]: [nullptr] *)
  m_valid : bool
}.

(** [StringBuilderLease( DynamicStringBuffer* buffer )] *)
Definition construct (buffer : option ptr) : t :=
  {| m_buffer := buffer; m_valid := true |}.

(** What [std::exchange( other.m_buffer, nullptr )] and
    [std::exchange( other.m_valid, false )] leave in [other]. *)
Definition exchanged : t := {| m_buffer := None; m_valid := false |}.

(** [StringBuilderLease( StringBuilderLease&& other )]: the new lease and the
    state left in [other]. *)
Definition move_construct (other : t) : t * t :=
  ({| m_buffer := m_buffer other; m_valid := m_valid other |}, exchanged).

(** [dispose()], run by thread [self]. *)
Definition dispose (self : tid) (this : t) (w : DynamicStringBufferPool.process)
  : result (t * DynamicStringBufferPool.process) :=
  if m_valid this then
    w ← DynamicStringBufferPool.returnToPool self (m_buffer this) w;
    Ok ({| m_buffer := None; m_valid := false |}, w)
  else Ok (this, w).

(** [~StringBuilderLease()] *)
Definition destroy (self : tid) (this : t) (w : DynamicStringBufferPool.process)
  : result DynamicStringBufferPool.process :=
  r ← dispose self this w;
  Ok r.2.

(** [operator=( StringBuilderLease&& other )] for [this != &other]: the new
    state of [this], the state left in [other], and the process. *)
Definition move_assign (self : tid) (other this : t) (w : DynamicStringBufferPool.process)
  : result (t * t * DynamicStringBufferPool.process) :=
  r ← dispose self this w;
  Ok ({| m_buffer := m_buffer other; m_valid := m_valid other |}, exchanged, r.2).

(** [throwInvalidOperation()] *)
Definition throwInvalidOperation {A : Type} : result A :=
  Throw (runtime_error "Tried to access StringBuilder after it was returned to pool").

(** [create()] *)
Definition create (this : t) : result StringBuilder.t :=
  if negb (m_valid this) then throwInvalidOperation
  else b ← deref (m_buffer this); Ok (StringBuilder.Build b).

(** [buffer()] *)
Definition buffer (this : t) : result ptr :=
  if negb (m_valid this) then throwInvalidOperation
  else deref (m_buffer this).

(** [toString()] *)
Definition toString (this : t) (w : DynamicStringBufferPool.process) : result (list byte) :=
  if negb (m_valid this) then throwInvalidOperation
  else
    p ← deref (m_buffer this);
    b ← deref (DynamicStringBufferPool.objects w !! p);
    DynamicStringBuffer.toString b.

End StringBuilderLease.

(** ** StringBuilderPool: the static facade over the singleton *)

Module StringBuilderPool.

(** [lease()], called by thread [self]. *)
Definition lease (self : tid) (w : DynamicStringBufferPool.process)
  : result (StringBuilderLease.t * DynamicStringBufferPool.process) :=
  r ← DynamicStringBufferPool.get self w;
  Ok (StringBuilderLease.construct (Some r.1), r.2).

(** [stats()]: the four counters (the hit rate, a [double], is left out). *)
Definition stats (w : DynamicStringBufferPool.process) : DynamicStringBufferPool.PoolStatistics :=
  DynamicStringBufferPool.stats w.

(** [resetStats()] *)
Definition resetStats (w : DynamicStringBufferPool.process) : DynamicStringBufferPool.process :=
  DynamicStringBufferPool.resetStats w.

(** [clear()], called by thread [self]. *)
Definition clear (self : tid) (w : DynamicStringBufferPool.process)
  : result (Z * DynamicStringBufferPool.process) :=
  DynamicStringBufferPool.clear self (DynamicStringBufferPool.resetStats w).

(** [size()], called by thread [self]. *)
Definition size (self : tid) (w : DynamicStringBufferPool.process) : Z :=
  DynamicStringBufferPool.size self w.

End StringBuilderPool.

Module DSB := DynamicStringBuffer.
Module Pool := DynamicStringBufferPool.
Module Lease := StringBuilderLease.

(** ** Programs: a process and its lease objects

    Lease objects are identified by the variable holding them, so that a
    move can tell [this] from [other]. *)

Abbreviation lid := nat (only parsing).

Record program : Type := BuildProgram {
  proc : DynamicStringBufferPool.process;
  leases : gmap lid StringBuilderLease.t
}.

(** Process start: nothing allocated, no thread caches a buffer, the
    singleton is freshly constructed. *)
Definition initial : program :=
  {| proc := {| DynamicStringBufferPool.objects := ∅;
                DynamicStringBufferPool.t_cachedBuffer := ∅;
                DynamicStringBufferPool.pool := DynamicStringBufferPool.dynamicStringBufferPool |};
     leases := ∅ |}.

(** One client action.  Buffers are reached only through a valid lease
    ([buffer()] or [create()]), which is the discipline the lease exists to
    enforce.  The end of a thread is not an action: it runs no code of the
    pool, and the slot of the thread keeps what it holds.  [step_cleanup] is
    the destructor of [t_cleanup], on an implementation that constructs that
    object; the step is optional, so that what holds of every reachable
    program holds whether the destructor runs or not. *)
Inductive step (w : program) : program → Prop :=
| step_lease (self : tid) (l : lid) r :
    leases w !! l = None →
    StringBuilderPool.lease self (proc w) = Ok r →
    step w {| proc := r.2; leases := <[l := r.1]> (leases w) |}
| step_move_construct (l src : lid) other :
    leases w !! l = None →
    leases w !! src = Some other →
    step w {| proc := proc w;
              leases := <[l := (StringBuilderLease.move_construct other).1]>
                          (<[src := (StringBuilderLease.move_construct other).2]> (leases w)) |}
| step_move_assign (self : tid) (dst src : lid) this other r :
    dst ≠ src →
    leases w !! dst = Some this →
    leases w !! src = Some other →
    StringBuilderLease.move_assign self other this (proc w) = Ok r →
    step w {| proc := r.2; leases := <[dst := r.1.1]> (<[src := r.1.2]> (leases w)) |}
| step_destroy (self : tid) (l : lid) this p :
    leases w !! l = Some this →
    StringBuilderLease.destroy self this (proc w) = Ok p →
    step w {| proc := p; leases := delete l (leases w) |}
| step_buffer (l : lid) this p b c b' :
    leases w !! l = Some this →
    StringBuilderLease.buffer this = Ok p →
    DynamicStringBufferPool.objects (proc w) !! p = Some b →
    DynamicStringBuffer.admissible c = true →
    DynamicStringBuffer.exec c b = Ok b' →
    step w {| proc := DynamicStringBufferPool.set_objects
                        (<[p := b']> (DynamicStringBufferPool.objects (proc w))) (proc w);
              leases := leases w |}
| step_resetStats :
    step w {| proc := StringBuilderPool.resetStats (proc w); leases := leases w |}
| step_clear (self : tid) r :
    StringBuilderPool.clear self (proc w) = Ok r →
    step w {| proc := r.2; leases := leases w |}
| step_cleanup (self : tid) p :
    DynamicStringBufferPool.ThreadLocalCleanup self (proc w) = Ok p →
    step w {| proc := p; leases := leases w |}.

Inductive reachable : program → Prop :=
| reachable_initial : reachable initial
| reachable_step w w' : reachable w → step w w' → reachable w'.

(** One acquire-use-release cycle of thread [self]:
    [{ auto lease{ StringBuilderPool::lease() }; lease.create() << ...; }],
    the lease being destroyed at the end of the block.  Besides the process
    the cycle reports [lease.buffer().capacity()] as read just before the
    destructor runs. *)
Definition cycle (self : tid) (use : list DynamicStringBuffer.append_call)
    (w : DynamicStringBufferPool.process)
  : result (Z * DynamicStringBufferPool.process) :=
  r ← StringBuilderPool.lease self w;
  builder ← StringBuilderLease.create r.1;
  w ← StringBuilder.chain use builder r.2;
  p ← StringBuilderLease.buffer r.1;
  b ← deref (DynamicStringBufferPool.objects w !! p);
  w ← StringBuilderLease.destroy self r.1 w;
  Ok (DynamicStringBuffer.capacity b, w).

(** One cycle after the other, one for each element of [uses]: the
    capacities reported and the final process. *)
Fixpoint cycles (self : tid) (uses : list (list DynamicStringBuffer.append_call))
    (w : DynamicStringBufferPool.process)
  : result (list Z * DynamicStringBufferPool.process) :=
  match uses with
  | [] => Ok ([], w)
  | use :: rest =>
      r ← cycle self use w;
      s ← cycles self rest r.2;
      Ok (r.1 :: s.1, s.2)
  end.

(** ** Predicates used in the statements *)

(** What a successful append did. *)
Definition appends (bytes : list byte) (b b' : DSB.t) : Prop :=
  DSB.well_formed b' = true
  ∧ DSB.m_size b' = DSB.m_size b + len bytes
  ∧ DSB.m_capacity b <= DSB.m_capacity b'
  ∧ (DSB.m_onHeap b = true → DSB.m_onHeap b' = true)
  ∧ ∀ s, DSB.toString b = Ok s → DSB.toString b' = Ok (s ++ bytes).

(** The storage a growing append ends up with, before the size is advanced. *)
Definition grown (b : DSB.t) (cur : list byte) (needed : Z) (b2 : DSB.t) : Prop :=
  let new_capacity := Z.max needed (3 * DSB.m_capacity b / 2) in
  if negb (DSB.m_onHeap b) && (new_capacity <=? DSB.STACK_BUFFER_SIZE)
  then DSB.m_onHeap b2 = false
       ∧ DSB.m_capacity b2 = DSB.m_capacity b
       ∧ DSB.m_heapBuffer b2 = DSB.m_heapBuffer b
  else DSB.m_onHeap b2 = true
       ∧ DSB.m_capacity b2 = new_capacity
       ∧ ∃ heap, DSB.m_heapBuffer b2 = Some heap
                 ∧ len heap = new_capacity
                 ∧ take (Z.to_nat (DSB.m_size b)) heap = take (Z.to_nat (DSB.m_size b)) cur.

(** The three constants of the pool are the same in both processes. *)
Definition same_config (w w' : Pool.process) : Prop :=
  Pool.m_initialCapacity (Pool.pool w') = Pool.m_initialCapacity (Pool.pool w)
  ∧ Pool.m_maximumRetainedCapacity (Pool.pool w') = Pool.m_maximumRetainedCapacity (Pool.pool w)
  ∧ Pool.m_maxPoolSize (Pool.pool w') = Pool.m_maxPoolSize (Pool.pool w).

(** [totalRequests == threadLocalHits + sharedHits + newAllocations], in
    [uint64_t] arithmetic, each counter being a [uint64_t]. *)
Definition consistent (s : Pool.PoolStatistics) : Prop :=
  Pool.totalRequests s
  = wrap64 (Pool.threadLocalHits s + Pool.dynamicStringBufferPoolHits s + Pool.newAllocations s)
  ∧ 0 <= Pool.threadLocalHits s < 2 ^ 64
  ∧ 0 <= Pool.dynamicStringBufferPoolHits s < 2 ^ 64
  ∧ 0 <= Pool.newAllocations s < 2 ^ 64.

(** Who may reference a buffer: the shared pool, the cache slot of a thread,
    or a valid lease. *)
Inductive owner : Type :=
| InPool
| InCache (thread : tid)
| InLease (l : lid).

Definition holds (w : program) (l : lid) (p : ptr) : Prop :=
  ∃ this, leases w !! l = Some this
          ∧ Lease.m_valid this = true ∧ Lease.m_buffer this = Some p.

Definition owns (w : program) (o : owner) (p : ptr) : Prop :=
  match o with
  | InPool => p ∈ Pool.m_pool (Pool.pool (proc w))
  | InCache thread => Pool.t_cachedBuffer (proc w) !! thread = Some p
  | InLease l => holds w l p
  end.

(** A tier of the pool, as opposed to a lease. *)
Definition is_tier (o : owner) : Prop :=
  match o with
  | InLease _ => False
  | _ => True
  end.

(** The invariant of every reachable program. *)
Record invariant (w : program) : Prop := BuildInvariant {
  inv_config : same_config (proc initial) (proc w);
  inv_stats : consistent (Pool.stats (proc w));
  inv_nodup : NoDup (Pool.m_pool (Pool.pool (proc w)));
  inv_bound : Z.of_nat (length (Pool.m_pool (Pool.pool (proc w))))
              <= Pool.m_maxPoolSize (Pool.pool (proc w));
  inv_unique : ∀ o1 o2 p, owns w o1 p → owns w o2 p → o1 = o2;
  inv_live : ∀ o p, owns w o p →
      ∃ b, Pool.objects (proc w) !! p = Some b
           ∧ DSB.well_formed b = true
           ∧ (is_tier o →
              DSB.capacity b <= Pool.m_maximumRetainedCapacity (Pool.pool (proc w)));
  inv_valid : ∀ l this, leases w !! l = Some this →
      Lease.m_valid this = true → is_Some (Lease.m_buffer this)
}.

(** Whether the slot of a thread holds a buffer. *)
Definition occupied (self : tid) (w : Pool.process) : bool :=
  match Pool.t_cachedBuffer w !! self with
  | Some _ => true
  | None => false
  end.

(** Whether the singleton keeps a released buffer of capacity [c]. *)
Definition retained (c : Z) : bool :=
  c <=? Pool.m_maximumRetainedCapacity Pool.dynamicStringBufferPool.

(** The thread-local hits of a run of cycles, from the capacities of the
    buffers they release: the first acquire hits when the slot is occupied at
    the start, each later one when the release before it retained the
    buffer. *)
Fixpoint hits (slot_occupied : bool) (caps : list Z) : Z :=
  match caps with
  | [] => 0
  | c :: rest => (if slot_occupied then 1 else 0) + hits (retained c) rest
  end.

(** The call leaves the buffer [p] in the slot of thread [self], untouched. *)
Definition keeps_slot (self : tid) (p : ptr) (w w' : Pool.process) : Prop :=
  Pool.t_cachedBuffer w' !! self = Some p
  ∧ Pool.objects w' !! p = Pool.objects w !! p.

(** Whatever is allocated is referenced by the shared pool, by the slot of a
    thread (running or ended) or by a valid lease. *)
Definition accounted (w : program) : Prop :=
  ∀ p, is_Some (Pool.objects (proc w) !! p) → ∃ o, owns w o p.

(** ** Sample inputs *)

Definition bytes_of (s : string) : list byte := String.list_byte_of_string s.

(** The four appends of the "Hello, World!" scenario, one of each kind. *)
Definition hello_world : list DynamicStringBuffer.append_call :=
  [DynamicStringBuffer.AppendStringView (bytes_of "Hello");
   DynamicStringBuffer.AppendString (bytes_of ", ");
   DynamicStringBuffer.AppendCString (Some (bytes_of "World"));
   DynamicStringBuffer.PushBack "!"%byte].

(** A string of 300 bytes, longer than the inline array. *)
Definition long_text : list byte := replicate 300 "a"%byte.

(** The value of a call that is known to succeed. *)
Definition the {A : Type} (d : A) (r : result A) : A :=
  match r with
  | Ok a => a
  | _ => d
  end.

(** Thread 0 took a lease, held in the lease object 0. *)
Definition leased : program :=
  let r := the (Lease.exchanged, proc initial) (StringBuilderPool.lease 0%nat (proc initial)) in
  {| proc := r.2; leases := <[0%nat := r.1]> (leases initial) |}.

(** ... and reserved 5000 bytes in its buffer, more than the pool retains. *)
Definition oversized : program :=
  {| proc := Pool.set_objects
               (<[1%positive := the DSB.default (DSB.exec (DSB.Reserve 5000) DSB.default)]>
                  (Pool.objects (proc leased))) (proc leased);
     leases := leases leased |}.

(** Thread 0 took a second lease, held in the lease object 1, and moved
    the first lease into a new lease object 2: object 0 is moved-from. *)
Definition moved : program :=
  let r := the (Lease.exchanged, proc leased) (StringBuilderPool.lease 0%nat (proc leased)) in
  let w := {| proc := r.2; leases := <[1%nat := r.1]> (leases leased) |} in
  {| proc := proc w;
     leases := <[2%nat := (Lease.move_construct (Lease.construct (Some 1%positive))).1]>
                 (<[0%nat := (Lease.move_construct (Lease.construct (Some 1%positive))).2]>
                    (leases w)) |}.

(** Thread [self] takes a lease into the lease object [l]. *)
Definition lease_by (self : tid) (l : lid) (w : program) : program :=
  let r := the (Lease.exchanged, proc w) (StringBuilderPool.lease self (proc w)) in
  {| proc := r.2; leases := <[l := r.1]> (leases w) |}.

(** Thread [self] destroys the lease object [l]. *)
Definition destroy_by (self : tid) (l : lid) (w : program) : program :=
  match leases w !! l with
  | Some this => {| proc := the (proc w) (Lease.destroy self this (proc w));
                    leases := delete l (leases w) |}
  | None => w
  end.

(** After [moved], thread 0 took three more leases (objects 3, 4, 5 on the
    buffers 3, 4, 5) and destroyed the leases 2, 1 and 3, in this order;
    thread 1 destroyed the lease 4.  The slot of thread 0 holds buffer 1, the
    slot of thread 1 holds buffer 4, the shared pool is [[2; 3]], and the
    lease object 5 holds buffer 5. *)
Definition busy : program :=
  destroy_by 1%nat 4%nat
    (destroy_by 0%nat 3%nat
       (destroy_by 0%nat 1%nat
          (destroy_by 0%nat 2%nat
             (lease_by 0%nat 5%nat (lease_by 0%nat 4%nat (lease_by 0%nat 3%nat moved)))))).

(** A use that appends 3000 bytes, more than the pool retains. *)
Definition big_use : list DynamicStringBuffer.append_call :=
  [DynamicStringBuffer.AppendStringView (replicate 3000 "b"%byte)].

(** * Proofs *)

(** ** The [result] monad *)

Lemma bind_Ok {A B : Type} (f : A → result B) (a : A) : (Ok a ≫= f) = f a.
Proof. reflexivity. Qed.

Lemma bind_Ok_inv {A B : Type} (f : A → result B) (r : result A) (b : B) :
  (r ≫= f) = Ok b → ∃ a, r = Ok a ∧ f a = Ok b.
Proof. destruct r as [a| |]; simpl; [eauto | discriminate | discriminate]. Qed.

Lemma deref_Ok_inv {A : Type} (p : option A) (a : A) : deref p = Ok a → p = Some a.
Proof. destruct p; simpl; congruence. Qed.

(** Decompose a hypothesis [(x ← c; k) = Ok _] into its successful steps. *)
Ltac bind_inv H :=
  let a := fresh "a" in
  let H1 := fresh "E" in
  apply bind_Ok_inv in H as (a & H1 & H).

(** ** Raw memory *)

Lemma len_nonneg (l : list byte) : 0 <= len l.
Proof. unfold len. lia. Qed.

Lemma len_app (l k : list byte) : len (l ++ k) = len l + len k.
Proof. unfold len. rewrite length_app. lia. Qed.

Lemma len_make_unique (n : Z) : 0 <= n → len (make_unique n) = n.
Proof. intros Hn. unfold len, make_unique. rewrite length_replicate. lia. Qed.

Lemma memcpy_Ok (dst : list byte) (off : Z) (src : list byte) (n : Z) :
  0 <= off → 0 <= n → n <= len src → off + n <= len dst →
  memcpy dst off src n
  = Ok (take (Z.to_nat off) dst ++ take (Z.to_nat n) src ++ drop (Z.to_nat (off + n)) dst).
Proof.
  intros H1 H2 H3 H4. unfold memcpy.
  rewrite (proj2 (Z.leb_le _ _) H1), (proj2 (Z.leb_le _ _) H2),
    (proj2 (Z.leb_le _ _) H3), (proj2 (Z.leb_le _ _) H4).
  reflexivity.
Qed.

Lemma memcpy_Ok_inv (dst : list byte) (off : Z) (src : list byte) (n : Z) (mem : list byte) :
  memcpy dst off src n = Ok mem →
  (0 <= off ∧ 0 <= n ∧ n <= len src ∧ off + n <= len dst)
  ∧ mem = take (Z.to_nat off) dst ++ take (Z.to_nat n) src ++ drop (Z.to_nat (off + n)) dst.
Proof.
  unfold memcpy. intros H.
  destruct (0 <=? off) eqn:E1; [|discriminate].
  destruct (0 <=? n) eqn:E2; [|discriminate].
  destruct (n <=? len src) eqn:E3; [|discriminate].
  destruct (off + n <=? len dst) eqn:E4; [|discriminate].
  simpl in H. injection H as <-.
  apply Z.leb_le in E1, E2, E3, E4. auto.
Qed.

(** The result of a copy has the length of the destination, keeps what was
    below the offset and holds the source right after it. *)
Lemma memcpy_layout (dst : list byte) (off : Z) (src : list byte) (n : Z) (mem : list byte) :
  memcpy dst off src n = Ok mem →
  len mem = len dst
  ∧ take (Z.to_nat (off + n)) mem = take (Z.to_nat off) dst ++ take (Z.to_nat n) src.
Proof.
  intros H. apply memcpy_Ok_inv in H as ((H1 & H2 & H3 & H4) & ->).
  unfold len in *. split.
  - rewrite !length_app, !length_take, length_drop. lia.
  - rewrite app_assoc. rewrite take_app_length'; [reflexivity|].
    rewrite length_app, !length_take. lia.
Qed.

(** ** The growth factor *)

Lemma rne53_small (x : Z) : x < 2 ^ 53 → rne53 x = x.
Proof. intros H. unfold rne53. apply Z.ltb_lt in H. rewrite H. reflexivity. Qed.

(** Below [2^51] the binary64 product is exact: the cast yields
    [floor (1.5 * c)]. *)
Lemma scale_capacity_exact (c : Z) :
  0 <= c < 2 ^ 51 → scale_capacity c = Ok (3 * c / 2).
Proof.
  intros Hc. unfold scale_capacity.
  rewrite (rne53_small c) by lia.
  rewrite (rne53_small (3 * c)) by lia.
  assert (H : 3 * c / 2 < 2 ^ 64).
  { apply Z.div_lt_upper_bound; lia. }
  apply Z.ltb_lt in H. rewrite H. reflexivity.
Qed.

(** The rounding model agrees with the IEEE 754 specification on the sample
    capacities. *)
Example scale_capacity_agrees_with_IEEE :
  Forall (λ c, scale_capacity c = scale_capacity_IEEE c) sample_capacities.
Proof. repeat constructor. Qed.

(** From [2^53] on the capacity itself is rounded when converted to
    [double]: the result is no longer [floor (1.5 * c)]. *)
Example scale_capacity_rounds :
  scale_capacity (2 ^ 53 + 1) = Ok (3 * 2 ^ 52) ∧ 3 * (2 ^ 53 + 1) / 2 = 3 * 2 ^ 52 + 1.
Proof. split; reflexivity. Qed.

(** ** DynamicStringBuffer: growth *)

Lemma well_formed_spec (b : DSB.t) :
  DSB.well_formed b = true ↔
  len (DSB.m_stackBuffer b) = DSB.STACK_BUFFER_SIZE
  ∧ 0 <= DSB.m_size b <= DSB.m_capacity b
  ∧ DSB.m_capacity b < 2 ^ 64
  ∧ (if DSB.m_onHeap b
     then ∃ heap, DSB.m_heapBuffer b = Some heap
                  ∧ len heap = DSB.m_capacity b
                  ∧ DSB.STACK_BUFFER_SIZE <= DSB.m_capacity b
     else DSB.m_capacity b = DSB.STACK_BUFFER_SIZE).
Proof.
  unfold DSB.well_formed. rewrite !andb_true_iff.
  rewrite Z.eqb_eq, !Z.leb_le, Z.ltb_lt.
  destruct (DSB.m_onHeap b).
  - destruct (DSB.m_heapBuffer b) as [heap|].
    + rewrite andb_true_iff, Z.eqb_eq, Z.leb_le. split.
      * intros ((((? & ?) & ?) & ?) & ? & ?). eauto 10.
      * intros (? & (? & ?) & ? & heap' & [= <-] & ? & ?). auto.
    + split; [intros (_ & [=]) | intros (_ & _ & _ & ? & [=] & _)].
  - rewrite Z.eqb_eq. tauto.
Qed.

(** What [ensureCapacity] does when it has to grow, for capacities in the
    range where the binary64 product is exact. *)
Lemma ensureCapacity_grows (b : DSB.t) (needed : Z) (cur : list byte) :
  0 <= DSB.m_size b <= DSB.m_capacity b →
  DSB.m_capacity b < 2 ^ 51 →
  DSB.currentBuffer b = Some cur →
  DSB.m_size b <= len cur →
  DSB.m_capacity b < needed →
  let new_capacity := Z.max needed (3 * DSB.m_capacity b / 2) in
  if negb (DSB.m_onHeap b) && (new_capacity <=? DSB.STACK_BUFFER_SIZE)
  then DSB.ensureCapacity needed b = Ok b
  else ∃ heap,
      DSB.ensureCapacity needed b
      = Ok {| DSB.m_stackBuffer := DSB.m_stackBuffer b;
              DSB.m_heapBuffer := Some heap;
              DSB.m_size := DSB.m_size b;
              DSB.m_capacity := new_capacity;
              DSB.m_onHeap := true |}
      ∧ len heap = new_capacity
      ∧ take (Z.to_nat (DSB.m_size b)) heap = take (Z.to_nat (DSB.m_size b)) cur.
Proof.
  intros Hsize Hcap Hcur Hlen Hneed new_capacity.
  unfold DSB.ensureCapacity.
  rewrite (proj2 (Z.leb_gt _ _) Hneed).
  rewrite scale_capacity_exact by lia. rewrite bind_Ok. fold new_capacity.
  assert (Hnc : DSB.m_size b <= new_capacity) by (unfold new_capacity; lia).
  assert (Hnc0 : 0 <= new_capacity) by lia.
  unfold DSB.currentBuffer in Hcur.
  destruct (DSB.m_onHeap b) eqn:Hheap; simpl negb; cbv iota.
  - rewrite andb_false_l. rewrite Hcur. simpl deref.
    destruct (0 <? DSB.m_size b) eqn:Hpos.
    + rewrite bind_Ok.
      destruct (memcpy (make_unique new_capacity) 0 cur (DSB.m_size b)) as [mem| |] eqn:Hcpy.
      * apply memcpy_layout in Hcpy as (Hl & Ht).
        exists mem. rewrite bind_Ok. split; [reflexivity|].
        rewrite Hl, len_make_unique by lia. split; [reflexivity|].
        rewrite Z.add_0_l in Ht. rewrite Ht. reflexivity.
      * exfalso. rewrite memcpy_Ok in Hcpy; [discriminate|lia..|].
        rewrite len_make_unique; lia.
      * exfalso. rewrite memcpy_Ok in Hcpy; [discriminate|lia..|].
        rewrite len_make_unique; lia.
    + apply Z.ltb_ge in Hpos. assert (DSB.m_size b = 0) as -> by lia.
      exists (make_unique new_capacity). rewrite bind_Ok.
      split; [reflexivity|]. split; [apply len_make_unique; lia | reflexivity].
  - rewrite andb_true_l. injection Hcur as <-.
    destruct (new_capacity <=? DSB.STACK_BUFFER_SIZE) eqn:Hfit; [reflexivity|].
    destruct (0 <? DSB.m_size b) eqn:Hpos.
    + destruct (memcpy (make_unique new_capacity) 0 (DSB.m_stackBuffer b) (DSB.m_size b))
        as [mem| |] eqn:Hcpy.
      * apply memcpy_layout in Hcpy as (Hl & Ht).
        exists mem. rewrite bind_Ok. split; [reflexivity|].
        rewrite Hl, len_make_unique by lia. split; [reflexivity|].
        rewrite Z.add_0_l in Ht. rewrite Ht. reflexivity.
      * exfalso. rewrite memcpy_Ok in Hcpy; [discriminate|lia..|].
        rewrite len_make_unique; lia.
      * exfalso. rewrite memcpy_Ok in Hcpy; [discriminate|lia..|].
        rewrite len_make_unique; lia.
    + apply Z.ltb_ge in Hpos. assert (DSB.m_size b = 0) as -> by lia.
      exists (make_unique new_capacity). rewrite bind_Ok.
      split; [reflexivity|]. split; [apply len_make_unique; lia | reflexivity].
Qed.

Lemma scale_capacity_lt (c v : Z) : scale_capacity c = Ok v → v < 2 ^ 64.
Proof.
  unfold scale_capacity.
  destruct (rne53 (3 * rne53 c) / 2 <? 2 ^ 64) eqn:E; [|discriminate].
  intros [= <-]. apply Z.ltb_lt. exact E.
Qed.

(** The copy into freshly allocated storage made by [ensureCapacity]. *)
Lemma relocate_layout (s nc : Z) (src heap : list byte) :
  0 <= s <= nc →
  (if 0 <? s then memcpy (make_unique nc) 0 src s else Ok (make_unique nc)) = Ok heap →
  len heap = nc ∧ take (Z.to_nat s) heap = take (Z.to_nat s) src.
Proof.
  intros Hs H. destruct (0 <? s) eqn:Hpos.
  - apply memcpy_layout in H as (Hl & Ht).
    rewrite Hl, len_make_unique by lia. split; [reflexivity|].
    rewrite Z.add_0_l in Ht. rewrite Ht. reflexivity.
  - injection H as <-. apply Z.ltb_ge in Hpos.
    assert (s = 0) as -> by lia.
    split; [apply len_make_unique; lia | reflexivity].
Qed.

(** On a well-formed buffer [toString] returns the first [m_size] bytes of
    the active storage, whose length is the capacity. *)
Lemma toString_well_formed (b : DSB.t) :
  DSB.well_formed b = true →
  ∃ cur, DSB.currentBuffer b = Some cur
         ∧ len cur = DSB.m_capacity b
         ∧ DSB.toString b = Ok (take (Z.to_nat (DSB.m_size b)) cur).
Proof.
  intros Hwf. apply well_formed_spec in Hwf as (Hstack & Hsize & _ & Hstore).
  unfold DSB.toString, DSB.currentBuffer.
  destruct (DSB.m_onHeap b).
  - destruct Hstore as (heap & -> & Hl & _). exists heap. simpl.
    split; [reflexivity|]. split; [exact Hl|].
    rewrite (proj2 (Z.leb_le _ _) (proj1 Hsize)).
    rewrite (proj2 (Z.leb_le (DSB.m_size b) (len heap)) ltac:(lia)). reflexivity.
  - exists (DSB.m_stackBuffer b). simpl.
    split; [reflexivity|]. split; [lia|].
    rewrite (proj2 (Z.leb_le _ _) (proj1 Hsize)).
    rewrite (proj2 (Z.leb_le (DSB.m_size b) (len (DSB.m_stackBuffer b))) ltac:(lia)).
    reflexivity.
Qed.

(** Whatever the capacity, a successful [ensureCapacity] keeps the buffer
    well formed, provides the capacity asked for, never lowers the
    capacity, never leaves the heap, and keeps size and contents. *)
Lemma ensureCapacity_Ok_inv (b b1 : DSB.t) (n : Z) :
  DSB.well_formed b = true →
  n < 2 ^ 64 →
  DSB.ensureCapacity n b = Ok b1 →
  DSB.well_formed b1 = true
  ∧ n <= DSB.m_capacity b1
  ∧ DSB.m_capacity b <= DSB.m_capacity b1
  ∧ DSB.m_size b1 = DSB.m_size b
  ∧ (DSB.m_onHeap b = true → DSB.m_onHeap b1 = true)
  ∧ DSB.toString b1 = DSB.toString b.
Proof.
  intros Hwf Hn H.
  destruct (toString_well_formed b Hwf) as (cur & Hcur & Hlcur & HtoS).
  pose proof Hwf as Hwf'.
  apply well_formed_spec in Hwf' as (Hstack & Hsize & Hcap & Hstore).
  unfold DSB.ensureCapacity in H.
  destruct (n <=? DSB.m_capacity b) eqn:Hle.
  { injection H as <-. apply Z.leb_le in Hle. repeat split; auto; lia. }
  apply Z.leb_gt in Hle.
  bind_inv H. rename a into v. apply scale_capacity_lt in E.
  set (nc := Z.max n v) in *.
  assert (Hnc : DSB.m_capacity b < nc < 2 ^ 64) by (unfold nc; lia).
  unfold DSB.currentBuffer in Hcur.
  destruct (DSB.m_onHeap b) eqn:Hheap; simpl negb in H; cbv iota in H.
  - rewrite andb_false_l in H. destruct Hstore as (heap & Hh & Hlh & H256).
    rewrite Hh in *. injection Hcur as <-.
    bind_inv H. rename a into new_buffer. injection H as <-.
    assert (Hrel : (if 0 <? DSB.m_size b
                    then memcpy (make_unique nc) 0 heap (DSB.m_size b)
                    else Ok (make_unique nc)) = Ok new_buffer).
    { destruct (0 <? DSB.m_size b); exact E0. }
    apply relocate_layout in Hrel as (Hl & Ht); [|lia].
    split.
    { apply well_formed_spec. simpl.
      repeat split; try lia. exists new_buffer. repeat split; lia. }
    simpl. repeat split; try lia; auto.
    rewrite HtoS. unfold DSB.toString, DSB.currentBuffer. simpl.
    rewrite (proj2 (Z.leb_le _ _) (proj1 Hsize)).
    rewrite (proj2 (Z.leb_le (DSB.m_size b) (len new_buffer)) ltac:(lia)).
    simpl. rewrite Ht. reflexivity.
  - rewrite andb_true_l in H. injection Hcur as <-.
    rewrite (proj2 (Z.leb_gt nc DSB.STACK_BUFFER_SIZE) ltac:(lia)) in H.
    bind_inv H. rename a into heap. injection H as <-.
    apply relocate_layout in E0 as (Hl & Ht); [|lia].
    split.
    { apply well_formed_spec. simpl.
      repeat split; try lia. exists heap. repeat split; lia. }
    simpl. repeat split; try lia; auto.
    rewrite HtoS. unfold DSB.toString, DSB.currentBuffer. simpl.
    rewrite (proj2 (Z.leb_le _ _) (proj1 Hsize)).
    rewrite (proj2 (Z.leb_le (DSB.m_size b) (len heap)) ltac:(lia)).
    simpl. rewrite Ht. reflexivity.
Qed.

(** ** DynamicStringBuffer: appending *)

Lemma take_len (l : list byte) : take (Z.to_nat (len l)) l = l.
Proof. unfold len. rewrite Nat2Z.id. apply firstn_all. Qed.

(** Writing [bytes] at the tail of the active storage and advancing the size. *)
Lemma tail_write (b1 : DSB.t) (cur bytes mem : list byte) :
  DSB.well_formed b1 = true →
  DSB.currentBuffer b1 = Some cur →
  len cur = DSB.m_capacity b1 →
  memcpy cur (DSB.m_size b1) bytes (len bytes) = Ok mem →
  let b2 := DSB.set_size (DSB.m_size b1 + len bytes) (DSB.set_currentBuffer mem b1) in
  DSB.well_formed b2 = true
  ∧ DSB.m_size b1 + len bytes <= DSB.m_capacity b1
  ∧ DSB.m_capacity b2 = DSB.m_capacity b1
  ∧ DSB.m_onHeap b2 = DSB.m_onHeap b1
  ∧ DSB.toString b2 = Ok (take (Z.to_nat (DSB.m_size b1)) cur ++ bytes).
Proof.
  intros Hwf Hcur Hlcur Hcpy b2.
  pose proof (memcpy_Ok_inv _ _ _ _ _ Hcpy) as ((Hb1 & Hb2 & Hb3 & Hb4) & _).
  apply memcpy_layout in Hcpy as (Hl & Ht). rewrite take_len in Ht.
  apply well_formed_spec in Hwf as (Hstack & Hsize & Hcap & Hstore).
  pose proof (len_nonneg bytes) as Hnn.
  assert (HtoS : ∀ b : DSB.t,
             DSB.currentBuffer b = Some mem →
             DSB.m_size b = DSB.m_size b1 + len bytes →
             DSB.toString b = Ok (take (Z.to_nat (DSB.m_size b1)) cur ++ bytes)).
  { intros b Hc Hs. unfold DSB.toString. rewrite Hc, Hs. simpl.
    rewrite (proj2 (Z.leb_le 0 (DSB.m_size b1 + len bytes)) ltac:(lia)).
    rewrite (proj2 (Z.leb_le (DSB.m_size b1 + len bytes) (len mem)) ltac:(lia)).
    simpl. rewrite Ht. reflexivity. }
  unfold DSB.currentBuffer in Hcur. subst b2.
  unfold DSB.set_size, DSB.set_currentBuffer.
  destruct (DSB.m_onHeap b1) eqn:Hheap.
  - destruct Hstore as (heap & Hh & Hlh & H256).
    rewrite Hh in Hcur. injection Hcur as <-.
    split.
    { apply well_formed_spec. simpl.
      repeat split; try lia. exists mem. repeat split; lia. }
    simpl. repeat split; try lia; auto; apply HtoS; reflexivity.
  - injection Hcur as <-.
    split.
    { apply well_formed_spec. simpl. repeat split; lia. }
    simpl. repeat split; try lia; auto; apply HtoS; reflexivity.
Qed.

Lemma wrap64_small (x : Z) : 0 <= x < 2 ^ 64 → wrap64 x = x.
Proof. intros H. unfold wrap64. apply Z.mod_small. exact H. Qed.

Lemma wrap64_range (x : Z) : 0 <= wrap64 x < 2 ^ 64.
Proof. unfold wrap64. apply Z.mod_pos_bound. lia. Qed.

(** After [ensureCapacity( wrap64 (m_size + n) )] succeeded, the tail write
    is defined only if the sum did not wrap. *)
Lemma ensure_then_write (b b1 : DSB.t) (bytes mem cur1 : list byte) :
  DSB.well_formed b = true →
  DSB.ensureCapacity (wrap64 (DSB.m_size b + len bytes)) b = Ok b1 →
  DSB.currentBuffer b1 = Some cur1 →
  memcpy cur1 (DSB.m_size b1) bytes (len bytes) = Ok mem →
  wrap64 (DSB.m_size b + len bytes) = DSB.m_size b + len bytes
  ∧ appends bytes b
      (DSB.set_size (DSB.m_size b1 + len bytes) (DSB.set_currentBuffer mem b1)).
Proof.
  intros Hwf Hens Hcur1 Hcpy.
  pose proof (wrap64_range (DSB.m_size b + len bytes)) as Hr.
  apply ensureCapacity_Ok_inv in Hens as (Hwf1 & Hn & Hmono & Hs & Hheap & HtoS);
    [|exact Hwf|lia].
  destruct (toString_well_formed b1 Hwf1) as (cur & Hcur & Hlcur & HtoS1).
  rewrite Hcur1 in Hcur. injection Hcur as <-.
  destruct (tail_write b1 cur1 bytes mem Hwf1 Hcur1 Hlcur Hcpy)
    as (Hwf2 & Hfit & Hcap2 & Hheap2 & HtoS2).
  pose proof (proj1 (well_formed_spec b) Hwf) as (_ & Hsize & _).
  pose proof (proj1 (well_formed_spec b1) Hwf1) as (_ & _ & Hcap1 & _).
  pose proof (len_nonneg bytes) as Hnn.
  split; [apply wrap64_small; lia|].
  unfold appends. split; [exact Hwf2|]. split; [simpl; lia|].
  split; [lia|]. split; [rewrite Hheap2; exact Hheap|].
  intros s Hs0. rewrite HtoS2. rewrite <- HtoS, HtoS1 in Hs0.
  injection Hs0 as <-. reflexivity.
Qed.

Lemma appends_nil (b : DSB.t) : DSB.well_formed b = true → appends [] b b.
Proof.
  intros Hwf. unfold appends. split; [exact Hwf|].
  split; [unfold len; simpl; lia|]. split; [lia|]. split; [auto|].
  intros s Hs. rewrite app_nil_r. exact Hs.
Qed.

Lemma append_Ok_inv (str : list byte) (b b' : DSB.t) :
  DSB.well_formed b = true → DSB.append str b = Ok b' → appends str b b'.
Proof.
  intros Hwf H. unfold DSB.append in H.
  destruct (len str =? 0) eqn:Hempty; simpl negb in H; cbv iota in H.
  - injection H as <-. apply Z.eqb_eq in Hempty.
    assert (str = []) as ->.
    { destruct str; [reflexivity|]. unfold len in Hempty. simpl in Hempty. lia. }
    apply appends_nil. exact Hwf.
  - bind_inv H. rename a into b1. bind_inv H. rename a into cur1.
    apply deref_Ok_inv in E0. bind_inv H. rename a into mem. injection H as <-.
    destruct (ensure_then_write b b1 str mem cur1 Hwf E E0 E1) as (Hw & Happ).
    rewrite Hw.
    apply ensureCapacity_Ok_inv in E as (_ & _ & _ & Hs & _);
      [|exact Hwf|pose proof (wrap64_range (DSB.m_size b + len str)); lia].
    rewrite <- Hs. exact Happ.
Qed.

Lemma push_back_Ok_inv (c : byte) (b b' : DSB.t) :
  DSB.well_formed b = true → DSB.push_back c b = Ok b' → appends [c] b b'.
Proof.
  intros Hwf H. unfold DSB.push_back in H.
  bind_inv H. rename a into b1. bind_inv H. rename a into cur1.
  apply deref_Ok_inv in E0. bind_inv H. rename a into mem. injection H as <-.
  change 1 with (len [c]) in E, E1.
  destruct (ensure_then_write b b1 [c] mem cur1 Hwf E E0 E1) as (Hw & Happ).
  apply ensureCapacity_Ok_inv in E as (_ & _ & _ & Hs & _);
    [|exact Hwf|pose proof (wrap64_range (DSB.m_size b + len [c])); lia].
  change 1 with (len [c]). rewrite Hs, Hw. rewrite <- Hs. exact Happ.
Qed.

Lemma exec_append_Ok_inv (a : DSB.append_call) (b b' : DSB.t) :
  DSB.well_formed b = true → DSB.exec_append a b = Ok b' → appends (DSB.appended a) b b'.
Proof.
  intros Hwf H. destruct a as [str|str|[mem|]|c]; simpl in *.
  - apply append_Ok_inv; assumption.
  - apply append_Ok_inv; assumption.
  - apply append_Ok_inv; assumption.
  - injection H as <-. apply appends_nil. exact Hwf.
  - apply push_back_Ok_inv; assumption.
Qed.

(** Below [2^50] bytes nothing is undefined: the growth succeeds. *)
Lemma ensureCapacity_exists (b : DSB.t) (n : Z) :
  DSB.well_formed b = true → n < 2 ^ 50 → ∃ b1, DSB.ensureCapacity n b = Ok b1.
Proof.
  intros Hwf Hn.
  destruct (Z_le_gt_dec n (DSB.m_capacity b)) as [Hle|Hgt].
  - exists b. unfold DSB.ensureCapacity.
    rewrite (proj2 (Z.leb_le _ _) Hle). reflexivity.
  - destruct (toString_well_formed b Hwf) as (cur & Hcur & Hlcur & _).
    apply well_formed_spec in Hwf as (_ & Hsize & _).
    pose proof (ensureCapacity_grows b n cur Hsize ltac:(lia) Hcur ltac:(lia) ltac:(lia)) as H.
    simpl in H.
    destruct (negb (DSB.m_onHeap b)
              && (Z.max n (3 * DSB.m_capacity b / 2) <=? DSB.STACK_BUFFER_SIZE)).
    + eauto.
    + destruct H as (heap & H & _). eauto.
Qed.

Lemma exec_append_exists (a : DSB.append_call) (b : DSB.t) :
  DSB.well_formed b = true →
  DSB.m_size b + len (DSB.appended a) < 2 ^ 50 →
  ∃ b', DSB.exec_append a b = Ok b'.
Proof.
  intros Hwf Hbound.
  pose proof (proj1 (well_formed_spec b) Hwf) as (_ & Hsize & _).
  pose proof (len_nonneg (DSB.appended a)) as Hnn.
  assert (Hgen : ∀ (bytes : list byte) (k : DSB.t → list byte → result DSB.t),
             bytes = DSB.appended a →
             (∀ b1 mem, ∃ b', k b1 mem = Ok b') →
             ∃ b', (b1 ← DSB.ensureCapacity (wrap64 (DSB.m_size b + len bytes)) b;
                    cur ← deref (DSB.currentBuffer b1);
                    mem ← memcpy cur (DSB.m_size b1) bytes (len bytes);
                    k b1 mem) = Ok b').
  { intros bytes k -> Hk.
    rewrite wrap64_small by lia.
    destruct (ensureCapacity_exists b (DSB.m_size b + len (DSB.appended a)) Hwf Hbound)
      as (b1 & Hens).
    rewrite Hens, bind_Ok.
    apply ensureCapacity_Ok_inv in Hens as (Hwf1 & Hn & _ & Hs & _); [|exact Hwf|lia].
    destruct (toString_well_formed b1 Hwf1) as (cur1 & Hcur1 & Hl1 & _).
    rewrite Hcur1. simpl deref. rewrite bind_Ok.
    rewrite memcpy_Ok by lia. rewrite bind_Ok. apply Hk. }
  destruct a as [str|str|[mem|]|c]; simpl in *.
  - unfold DSB.append. destruct (len str =? 0); simpl negb; cbv iota; [eauto|].
    apply (Hgen str (λ b1 mem, Ok _)); eauto.
  - unfold DSB.append_string, DSB.append.
    destruct (len str =? 0); simpl negb; cbv iota; [eauto|].
    apply (Hgen str (λ b1 mem, Ok _)); eauto.
  - unfold DSB.append. destruct (len (c_str mem) =? 0); simpl negb; cbv iota; [eauto|].
    apply (Hgen (c_str mem) (λ b1 mem, Ok _)); eauto.
  - eauto.
  - unfold DSB.push_back. change 1 with (len [c]).
    apply (Hgen [c] (λ b1 mem, Ok _)); eauto.
Qed.

(** Running a sequence of appends from a well-formed buffer. *)
Lemma run_appends (calls : list DSB.append_call) (b : DSB.t) (s : list byte) :
  DSB.well_formed b = true →
  DSB.toString b = Ok s →
  DSB.m_size b + len (concat (map DSB.appended calls)) < 2 ^ 50 →
  ∃ b', DSB.run DSB.exec_append calls b = Ok b'
        ∧ DSB.well_formed b' = true
        ∧ DSB.toString b' = Ok (s ++ concat (map DSB.appended calls))
        ∧ DSB.m_size b' = DSB.m_size b + len (concat (map DSB.appended calls)).
Proof.
  revert b s. induction calls as [|a calls IH]; intros b s Hwf Hs Hbound.
  - exists b. simpl. rewrite app_nil_r. unfold len. simpl. repeat split; auto. lia.
  - simpl in Hbound. rewrite len_app in Hbound.
    pose proof (len_nonneg (concat (map DSB.appended calls))) as Hnn.
    destruct (exec_append_exists a b Hwf ltac:(lia)) as (b1 & Hb1).
    destruct (exec_append_Ok_inv a b b1 Hwf Hb1) as (Hwf1 & Hs1 & _ & _ & HtoS).
    destruct (IH b1 (s ++ DSB.appended a) Hwf1 (HtoS s Hs) ltac:(lia))
      as (b' & Hrun & Hwf' & HtoS' & Hs').
    exists b'. simpl. rewrite Hb1, bind_Ok. split; [exact Hrun|].
    split; [exact Hwf'|]. rewrite len_app, <- app_assoc in *.
    split; [exact HtoS'|]. lia.
Qed.

Lemma len_appended_take (calls : list DSB.append_call) (k : nat) :
  len (concat (map DSB.appended (take k calls))) <= len (concat (map DSB.appended calls)).
Proof.
  rewrite <- (take_drop k calls) at 2.
  rewrite map_app, concat_app, len_app.
  pose proof (len_nonneg (concat (map DSB.appended (drop k calls)))). lia.
Qed.

(** C1. Whatever the sequence of appends (string view, string, C string or
    single character) made on an empty buffer -- a freshly constructed one or
    a recycled one, cleared -- after each of them, that is after every prefix
    of the sequence, the calls have succeeded, [toString()] is the
    concatenation of the byte sequences appended so far and [size()] is their
    total length.  The total stays below [2^50] bytes, the range in which
    sizes do not wrap and the growth factor is computed exactly. *)
Theorem append_round_trip (b0 : DSB.t) (calls : list DSB.append_call) (k : nat) :
  DSB.well_formed b0 = true →
  DSB.size b0 = 0 →
  len (concat (map DSB.appended calls)) < 2 ^ 50 →
  ∃ b, DSB.run DSB.exec_append (take k calls) b0 = Ok b
       ∧ DSB.toString b = Ok (concat (map DSB.appended (take k calls)))
       ∧ DSB.size b = len (concat (map DSB.appended (take k calls))).
Proof.
  intros Hwf Hempty Hbound. unfold DSB.size in *.
  pose proof (len_appended_take calls k) as Hk.
  destruct (toString_well_formed b0 Hwf) as (cur & _ & _ & HtoS).
  rewrite Hempty in HtoS. simpl in HtoS.
  destruct (run_appends (take k calls) b0 [] Hwf HtoS) as (b & Hrun & _ & Hs & Hn).
  { lia. }
  exists b. split; [exact Hrun|]. split; [exact Hs|]. lia.
Qed.

Lemma memcpy_prefix (dst : list byte) (off : Z) (src : list byte) (n : Z) (mem : list byte) :
  memcpy dst off src n = Ok mem → take (Z.to_nat off) mem = take (Z.to_nat off) dst.
Proof.
  intros H. apply memcpy_Ok_inv in H as ((H1 & H2 & H3 & H4) & ->).
  rewrite take_app_length'; [reflexivity|].
  rewrite length_take. unfold len in H4. lia.
Qed.

Lemma grow_and_write (b : DSB.t) (cur bytes : list byte) :
  len (DSB.m_stackBuffer b) = DSB.STACK_BUFFER_SIZE →
  0 <= DSB.m_size b <= DSB.m_capacity b →
  DSB.m_capacity b < 2 ^ 51 →
  DSB.currentBuffer b = Some cur →
  DSB.m_size b <= len cur →
  DSB.m_capacity b < DSB.m_size b + len bytes < 2 ^ 64 →
  ∃ b1 cur1 mem,
    DSB.ensureCapacity (wrap64 (DSB.m_size b + len bytes)) b = Ok b1
    ∧ DSB.m_size b1 = DSB.m_size b
    ∧ DSB.currentBuffer b1 = Some cur1
    ∧ memcpy cur1 (DSB.m_size b1) bytes (len bytes) = Ok mem
    ∧ grown b cur (DSB.m_size b + len bytes) (DSB.set_currentBuffer mem b1).
Proof.
  intros Hstack Hsize Hcap Hcur Hlen Hneed.
  rewrite wrap64_small by lia.
  pose proof (ensureCapacity_grows b _ cur Hsize Hcap Hcur Hlen (proj1 Hneed)) as H.
  pose proof (len_nonneg bytes) as Hnn.
  unfold grown. simpl in H |- *.
  set (nc := Z.max (DSB.m_size b + len bytes) (3 * DSB.m_capacity b / 2)) in *.
  destruct (negb (DSB.m_onHeap b) && (nc <=? DSB.STACK_BUFFER_SIZE)) eqn:Hcond.
  - apply andb_true_iff in Hcond as (Hinline & Hfit).
    apply negb_true_iff in Hinline. apply Z.leb_le in Hfit.
    unfold DSB.currentBuffer in Hcur. rewrite Hinline in Hcur. injection Hcur as <-.
    exists b, (DSB.m_stackBuffer b).
    eexists. split; [exact H|]. split; [reflexivity|].
    split; [unfold DSB.currentBuffer; rewrite Hinline; reflexivity|].
    split; [apply memcpy_Ok; lia|].
    unfold DSB.set_currentBuffer. rewrite Hinline. simpl. auto.
  - destruct H as (heap & Hens & Hl & Ht).
    eexists. exists heap. eexists. split; [exact Hens|]. split; [reflexivity|].
    split; [reflexivity|]. simpl.
    split; [apply memcpy_Ok; lia|].
    split; [reflexivity|]. split; [reflexivity|].
    eexists. split; [reflexivity|]. split.
    + unfold len in *. rewrite !length_app, !length_take, length_drop. lia.
    + rewrite take_app_length'; [exact Ht|]. rewrite length_take. unfold len in Hl. lia.
Qed.

(** C5. When an append or a [push_back] needs more than the current capacity,
    the new capacity is [max( needed, floor( capacity * 1.5 ) )]; a buffer
    still inline whose new capacity fits the inline array is not reallocated
    (capacity, flag and heap pointer stay), otherwise heap storage of the new
    capacity is allocated and holds the [m_size] existing bytes.  Capacities
    are below [2^51], where the binary64 product is exact. *)
Theorem growth_policy (a : DSB.append_call) (b : DSB.t) (cur : list byte) :
  len (DSB.m_stackBuffer b) = DSB.STACK_BUFFER_SIZE →
  0 <= DSB.m_size b <= DSB.m_capacity b →
  DSB.m_capacity b < 2 ^ 51 →
  DSB.currentBuffer b = Some cur →
  DSB.m_size b <= len cur →
  DSB.m_capacity b < DSB.m_size b + len (DSB.appended a) < 2 ^ 64 →
  ∃ b', DSB.exec_append a b = Ok b'
        ∧ DSB.m_size b' = DSB.m_size b + len (DSB.appended a)
        ∧ grown b cur (DSB.m_size b + len (DSB.appended a)) b'.
Proof.
  intros Hstack Hsize Hcap Hcur Hlen Hneed.
  destruct (grow_and_write b cur (DSB.appended a) Hstack Hsize Hcap Hcur Hlen Hneed)
    as (b1 & cur1 & mem & Hens & Hs & Hcur1 & Hcpy & Hgrown).
  assert (Hfin : ∀ n, grown b cur (DSB.m_size b + len (DSB.appended a))
                        (DSB.set_size n (DSB.set_currentBuffer mem b1))).
  { intros n. unfold grown in *. simpl in *.
    destruct (negb (DSB.m_onHeap b) && _); exact Hgrown. }
  assert (Hne : (len (DSB.appended a) =? 0) = false) by (apply Z.eqb_neq; lia).
  destruct a as [str|str|[m|]|c]; simpl in *.
  - unfold DSB.append. rewrite Hne. simpl negb. cbv iota.
    rewrite Hens, bind_Ok, Hcur1. simpl deref. rewrite bind_Ok, Hcpy, bind_Ok.
    eexists. split; [reflexivity|]. split; [simpl; apply wrap64_small; lia|apply Hfin].
  - unfold DSB.append_string, DSB.append. rewrite Hne. simpl negb. cbv iota.
    rewrite Hens, bind_Ok, Hcur1. simpl deref. rewrite bind_Ok, Hcpy, bind_Ok.
    eexists. split; [reflexivity|]. split; [simpl; apply wrap64_small; lia|apply Hfin].
  - unfold DSB.append. rewrite Hne. simpl negb. cbv iota.
    rewrite Hens, bind_Ok, Hcur1. simpl deref. rewrite bind_Ok, Hcpy, bind_Ok.
    eexists. split; [reflexivity|]. split; [simpl; apply wrap64_small; lia|apply Hfin].
  - discriminate.
  - unfold DSB.push_back. change (len [c]) with 1 in *.
    rewrite Hens, bind_Ok, Hcur1. simpl deref. rewrite bind_Ok, Hcpy, bind_Ok.
    eexists. split; [reflexivity|]. split; [simpl; rewrite Hs; apply wrap64_small; lia|apply Hfin].
Qed.

(** ** DynamicStringBuffer: every call keeps the representation invariant *)

Lemma well_formed_set_size (b : DSB.t) (n : Z) :
  DSB.well_formed b = true → 0 <= n <= DSB.m_capacity b →
  DSB.well_formed (DSB.set_size n b) = true.
Proof.
  intros Hwf Hn. apply well_formed_spec in Hwf as (Hstack & Hsize & Hcap & Hstore).
  apply well_formed_spec. simpl. repeat split; auto; lia.
Qed.

Lemma well_formed_set_currentBuffer (b : DSB.t) (cur mem : list byte) :
  DSB.well_formed b = true → DSB.currentBuffer b = Some cur → len mem = len cur →
  DSB.well_formed (DSB.set_currentBuffer mem b) = true.
Proof.
  intros Hwf Hcur Hl. apply well_formed_spec in Hwf as (Hstack & Hsize & Hcap & Hstore).
  apply well_formed_spec. unfold DSB.set_currentBuffer, DSB.currentBuffer in *.
  destruct (DSB.m_onHeap b) eqn:Hheap; simpl.
  - destruct Hstore as (heap & Hh & Hlh & H256). rewrite Hh in Hcur. injection Hcur as <-.
    repeat split; auto; try lia. exists mem. repeat split; lia.
  - injection Hcur as <-. repeat split; auto; lia.
Qed.

Lemma well_formed_moved_from (b : DSB.t) :
  DSB.well_formed b = true → DSB.well_formed (DSB.moved_from b) = true.
Proof.
  intros Hwf. apply well_formed_spec in Hwf as (Hstack & _).
  apply well_formed_spec. simpl. unfold DSB.STACK_BUFFER_SIZE in *. repeat split; auto; lia.
Qed.

Lemma copy_assign_well_formed (other b b' : DSB.t) :
  DSB.well_formed b = true → DSB.well_formed other = true →
  DSB.copy_assign other b = Ok b' →
  DSB.well_formed b' = true ∧ DSB.m_onHeap b' = DSB.m_onHeap other.
Proof.
  intros Hwf Hwfo H.
  apply well_formed_spec in Hwf as (Hstack & Hsize & Hcap & Hstore).
  apply well_formed_spec in Hwfo as (Hstacko & Hsizeo & Hcapo & Hstoreo).
  unfold DSB.copy_assign in H.
  destruct (DSB.m_onHeap other) eqn:Hho.
  - destruct Hstoreo as (heapo & Hheapo & Hlo & H256o).
    bind_inv H. rename a into dst. apply deref_Ok_inv in E.
    bind_inv H. rename a into src. bind_inv H. rename a into heap. injection H as <-.
    apply memcpy_layout in E1 as (Hl & _).
    split; [|simpl; destruct (negb (DSB.m_onHeap b) || _) eqn:Hg; [reflexivity|];
             apply orb_false_iff in Hg as (Hg & _); apply negb_false_iff in Hg; exact Hg].
    apply well_formed_spec. simpl.
    destruct (negb (DSB.m_onHeap b) || (DSB.m_capacity b <? DSB.m_capacity other)) eqn:Hg.
    + injection E as <-. rewrite len_make_unique in Hl by lia.
      repeat split; auto; try lia. exists heap. repeat split; lia.
    + apply orb_false_iff in Hg as (Hg1 & Hg2). apply negb_false_iff in Hg1.
      apply Z.ltb_ge in Hg2. rewrite Hg1 in Hstore |- *.
      destruct Hstore as (heapb & Hhb & Hlb & H256). rewrite Hhb in E. injection E as <-.
      repeat split; auto; try lia. exists heap. repeat split; lia.
  - bind_inv H. rename a into stack. injection H as <-.
    apply memcpy_layout in E as (Hl & _).
    split; [|simpl; destruct (DSB.m_onHeap b); reflexivity].
    apply well_formed_spec. simpl.
    destruct (DSB.m_onHeap b) eqn:Hhb; repeat split; auto; try lia.
Qed.

Lemma move_assign_well_formed (other b : DSB.t) (r : DSB.t * DSB.t) :
  DSB.well_formed b = true → DSB.well_formed other = true →
  DSB.move_assign other b = Ok r →
  DSB.well_formed r.1 = true ∧ DSB.m_onHeap r.1 = DSB.m_onHeap other
  ∧ r.2 = DSB.moved_from other.
Proof.
  intros Hwf Hwfo H.
  apply well_formed_spec in Hwf as (Hstack & Hsize & Hcap & Hstore).
  apply well_formed_spec in Hwfo as (Hstacko & Hsizeo & Hcapo & Hstoreo).
  unfold DSB.move_assign in H.
  bind_inv H. rename a into stack. injection H as <-. simpl.
  split; [|split; reflexivity].
  apply well_formed_spec. simpl.
  destruct (DSB.m_onHeap other) eqn:Hho; simpl in E.
  - injection E as <-. repeat split; auto; lia.
  - apply memcpy_layout in E as (Hl & _). repeat split; auto; lia.
Qed.

(** An in-place call keeps the invariant, never leaves the heap and never
    lowers the capacity. *)
Lemma in_place_step (c : DSB.call) (b b' : DSB.t) :
  DSB.well_formed b = true → DSB.in_place c = true → DSB.exec c b = Ok b' →
  DSB.well_formed b' = true
  ∧ (DSB.m_onHeap b = true → DSB.m_onHeap b' = true)
  ∧ DSB.m_capacity b <= DSB.m_capacity b'.
Proof.
  intros Hwf Hc H.
  pose proof (proj1 (well_formed_spec b) Hwf) as (Hstack & Hsize & Hcap & Hstore).
  destruct c as [a| |n|n|i c|other|other|]; simpl in Hc, H; try discriminate.
  - destruct (exec_append_Ok_inv a b b' Hwf H) as (Hwf' & _ & Hmono & Hheap & _). auto.
  - injection H as <-. split; [apply well_formed_set_size; [exact Hwf|lia]|].
    simpl. split; [auto|lia].
  - unfold DSB.reserve in H. destruct (DSB.m_capacity b <? wrap64 n).
    + apply ensureCapacity_Ok_inv in H as (Hwf' & _ & Hmono & _ & Hheap & _);
        [auto|exact Hwf|apply wrap64_range].
    + injection H as <-. split; [exact Hwf|]. split; [auto|lia].
  - unfold DSB.resize in H. bind_inv H. rename a into b1. injection H as <-.
    apply ensureCapacity_Ok_inv in E as (Hwf1 & Hn & Hmono & _ & Hheap & _);
      [|exact Hwf|apply wrap64_range].
    split; [apply well_formed_set_size; [exact Hwf1|]|].
    { pose proof (wrap64_range n). lia. }
    simpl. auto.
  - unfold DSB.store in H. destruct ((0 <=? i) && (i <? DSB.m_size b)); [|discriminate].
    bind_inv H. rename a into cur. apply deref_Ok_inv in E.
    bind_inv H. rename a into mem. injection H as <-.
    apply memcpy_layout in E0 as (Hl & _).
    split; [apply (well_formed_set_currentBuffer b cur mem); assumption|].
    unfold DSB.set_currentBuffer. destruct (DSB.m_onHeap b); simpl; split; auto; lia.
Qed.

Lemma exec_well_formed (c : DSB.call) (b b' : DSB.t) :
  DSB.well_formed b = true → DSB.admissible c = true → DSB.exec c b = Ok b' →
  DSB.well_formed b' = true.
Proof.
  intros Hwf Hadm H.
  destruct (DSB.in_place c) eqn:Hc.
  { apply (in_place_step c b b' Hwf Hc H). }
  destruct c as [a| |n|n|i c|other|other|]; simpl in Hc, Hadm, H; try discriminate.
  - apply (copy_assign_well_formed other b b' Hwf Hadm H).
  - bind_inv H. injection H as <-.
    apply (move_assign_well_formed other b a Hwf Hadm E).
  - injection H as <-. apply well_formed_moved_from. exact Hwf.
Qed.

(** ** DynamicStringBuffer: clearing and the storage tier *)

(** C8. [clear()] sets the size to zero and changes nothing else: the
    capacity, the [m_onHeap] flag, the heap allocation and the inline array
    are the same. *)
Theorem clear_resets_size_only (b : DSB.t) :
  DSB.size (DSB.clear b) = 0
  ∧ DSB.capacity (DSB.clear b) = DSB.capacity b
  ∧ DSB.m_onHeap (DSB.clear b) = DSB.m_onHeap b
  ∧ DSB.m_heapBuffer (DSB.clear b) = DSB.m_heapBuffer b
  ∧ DSB.m_stackBuffer (DSB.clear b) = DSB.m_stackBuffer b.
Proof. unfold DSB.clear, DSB.set_size, DSB.size, DSB.capacity. simpl. auto. Qed.

Lemma run_in_place (calls : list DSB.call) (b b' : DSB.t) :
  DSB.well_formed b = true →
  forallb DSB.in_place calls = true →
  DSB.run DSB.exec calls b = Ok b' →
  DSB.well_formed b' = true
  ∧ (DSB.m_onHeap b = true → DSB.m_onHeap b' = true)
  ∧ DSB.m_capacity b <= DSB.m_capacity b'.
Proof.
  revert b. induction calls as [|c calls IH]; intros b Hwf Hall H; simpl in *.
  - injection H as <-. split; [exact Hwf|]. split; [auto|lia].
  - apply andb_true_iff in Hall as (Hc & Hall).
    bind_inv H. rename a into b1.
    destruct (in_place_step c b b1 Hwf Hc E) as (Hwf1 & Hheap1 & Hcap1).
    destruct (IH b1 Hwf1 Hall H) as (Hwf' & Hheap' & Hcap').
    split; [exact Hwf'|]. split; [auto|lia].
Qed.

(** C2, as the code has it.  Once [m_onHeap] is true no sequence of appends,
    [push_back], [reserve], [resize], element stores or [clear] makes it false
    again, and the capacity never falls below the promoted value.  Copy and
    move assignment instead give the buffer the storage tier of their source,
    inline included, and a moved-from buffer is reset to the inline tier with
    the inline capacity. *)
Theorem heap_promotion_in_place :
  (∀ (calls : list DSB.call) (b b' : DSB.t),
      DSB.well_formed b = true →
      forallb DSB.in_place calls = true →
      DSB.run DSB.exec calls b = Ok b' →
      DSB.m_onHeap b = true →
      DSB.m_onHeap b' = true ∧ DSB.capacity b <= DSB.capacity b')
  ∧ (∀ (other b b' : DSB.t),
        DSB.well_formed b = true → DSB.well_formed other = true →
        (DSB.exec (DSB.CopyAssign other) b = Ok b'
         ∨ DSB.exec (DSB.MoveAssign other) b = Ok b') →
        DSB.m_onHeap b' = DSB.m_onHeap other
        ∧ (DSB.m_onHeap other = false → DSB.capacity b' = DSB.STACK_BUFFER_SIZE))
  ∧ (∀ b : DSB.t,
        DSB.exec DSB.MovedFrom b = Ok (DSB.moved_from b)
        ∧ DSB.m_onHeap (DSB.moved_from b) = false
        ∧ DSB.capacity (DSB.moved_from b) = DSB.STACK_BUFFER_SIZE).
Proof.
  split; [|split].
  - intros calls b b' Hwf Hall Hrun Hheap.
    destruct (run_in_place calls b b' Hwf Hall Hrun) as (_ & H1 & H2). auto.
  - intros other b b' Hwf Hwfo H.
    assert (H' : DSB.well_formed b' = true ∧ DSB.m_onHeap b' = DSB.m_onHeap other).
    { destruct H as [H|H]; simpl in H.
      - apply (copy_assign_well_formed other b b' Hwf Hwfo H).
      - bind_inv H. injection H as <-.
        destruct (move_assign_well_formed other b a Hwf Hwfo E) as (? & ? & _). auto. }
    destruct H' as (Hwf' & Hheap'). split; [exact Hheap'|].
    intros Hinline. rewrite Hinline in Hheap'.
    apply well_formed_spec in Hwf' as (_ & _ & _ & Hstore).
    rewrite Hheap' in Hstore. exact Hstore.
  - intros b. simpl. auto.
Qed.

Lemma append_round_trip_witness :
  ∃ b, DSB.run DSB.exec_append (take 3 hello_world) DSB.default = Ok b
       ∧ DSB.toString b = Ok (bytes_of "Hello, World")
       ∧ DSB.size b = 12.
Proof.
  apply (append_round_trip DSB.default hello_world 3).
  - reflexivity.
  - reflexivity.
  - vm_compute. reflexivity.
Defined.

Lemma growth_policy_witness :
  ∃ b', DSB.exec_append (DSB.AppendStringView long_text) DSB.default = Ok b'
        ∧ DSB.m_size b' = 300
        ∧ grown DSB.default (make_unique 256) 300 b'.
Proof.
  apply (growth_policy (DSB.AppendStringView long_text) DSB.default (make_unique 256)).
  - reflexivity.
  - vm_compute. split; discriminate.
  - vm_compute. reflexivity.
  - reflexivity.
  - vm_compute. discriminate.
  - vm_compute. split; reflexivity.
Defined.

(** C2 as stated fails: a buffer promoted to the heap by [reserve( 300 )]
    (capacity 384) is back on the inline array, with capacity 256, after an
    inline buffer is copy-assigned to it. *)
Lemma copy_assign_returns_to_inline :
  ∃ b b', DSB.run DSB.exec [DSB.Reserve 300] DSB.default = Ok b
          ∧ DSB.well_formed b = true
          ∧ DSB.m_onHeap b = true ∧ DSB.capacity b = 384
          ∧ DSB.exec (DSB.CopyAssign DSB.default) b = Ok b'
          ∧ DSB.m_onHeap b' = false ∧ DSB.capacity b' = 256.
Proof.
  eexists. eexists. split; [vm_compute; reflexivity|].
  split; [vm_compute; reflexivity|]. split; [reflexivity|]. split; [reflexivity|].
  split; [vm_compute; reflexivity|]. split; reflexivity.
Qed.

Lemma heap_promotion_in_place_witness :
  ∃ b b', DSB.run DSB.exec [DSB.Reserve 300] DSB.default = Ok b
          ∧ DSB.run DSB.exec [DSB.Clear; DSB.Append (DSB.PushBack "x"%byte); DSB.Resize 500] b
            = Ok b'
          ∧ DSB.m_onHeap b' = true ∧ DSB.capacity b <= DSB.capacity b'.
Proof.
  eexists. eexists. split; [vm_compute; reflexivity|].
  split; [vm_compute; reflexivity|].
  eapply (proj1 heap_promotion_in_place
            [DSB.Clear; DSB.Append (DSB.PushBack "x"%byte); DSB.Resize 500]);
    vm_compute; reflexivity.
Defined.

(** ** The pool: what [get] and [returnToPool] do *)

Lemma last_removelast (l : list positive) (p : positive) :
  last l = Some p → l = removelast l ++ [p].
Proof.
  intros H. apply last_Some in H as (l' & ->). rewrite removelast_last. reflexivity.
Qed.

(** The three acquire paths. *)
Lemma get_spec (self : nat) (w w' : Pool.process) (p : positive) :
  Pool.get self w = Ok (p, w') →
  same_config w w'
  ∧ ((Pool.t_cachedBuffer w !! self = Some p
      ∧ Pool.t_cachedBuffer w' = delete self (Pool.t_cachedBuffer w)
      ∧ Pool.m_pool (Pool.pool w') = Pool.m_pool (Pool.pool w)
      ∧ (∃ b, Pool.objects w !! p = Some b
              ∧ Pool.objects w' = <[p := DSB.clear b]> (Pool.objects w))
      ∧ Pool.stats w' = Pool.add_threadLocalHits (Pool.add_totalRequests (Pool.stats w)))
     ∨ (Pool.t_cachedBuffer w !! self = None
        ∧ Pool.t_cachedBuffer w' = Pool.t_cachedBuffer w
        ∧ Pool.m_pool (Pool.pool w) = Pool.m_pool (Pool.pool w') ++ [p]
        ∧ (∃ b, Pool.objects w !! p = Some b
                ∧ Pool.objects w' = <[p := DSB.clear b]> (Pool.objects w))
        ∧ Pool.stats w'
          = Pool.add_dynamicStringBufferPoolHits (Pool.add_totalRequests (Pool.stats w)))
     ∨ (Pool.t_cachedBuffer w !! self = None
        ∧ Pool.t_cachedBuffer w' = Pool.t_cachedBuffer w
        ∧ Pool.m_pool (Pool.pool w) = [] ∧ Pool.m_pool (Pool.pool w') = []
        ∧ Pool.objects w !! p = None
        ∧ (∃ b, DSB.reserve (Pool.m_initialCapacity (Pool.pool w)) DSB.default = Ok b
                ∧ Pool.objects w' = <[p := b]> (Pool.objects w))
        ∧ Pool.stats w' = Pool.add_newAllocations (Pool.add_totalRequests (Pool.stats w)))).
Proof.
  unfold Pool.get. intros H. simpl in H.
  destruct (Pool.t_cachedBuffer w !! self) as [cached|] eqn:Hc.
  - unfold Pool.clear_at in H. simpl in H.
    bind_inv H. injection H as <- <-. bind_inv E. rename a0 into b.
    apply deref_Ok_inv in E0. injection E as <-.
    split; [repeat split|]. left. simpl. eauto 10.
  - destruct (last (Pool.m_pool (Pool.pool w))) as [back|] eqn:Hl.
    + unfold Pool.clear_at in H. simpl in H.
      bind_inv H. injection H as <- <-. bind_inv E. rename a0 into b.
      apply deref_Ok_inv in E0. injection E as <-.
      split; [repeat split|]. right. left. simpl.
      split; [reflexivity|]. split; [reflexivity|].
      split; [apply last_removelast; exact Hl|]. eauto.
    + bind_inv H. rename a into b. injection H as <- <-.
      split; [repeat split|]. right. right. simpl.
      apply last_None in Hl. rewrite Hl. repeat split.
      * apply not_elem_of_dom. apply is_fresh.
      * eauto.
Qed.

(** The four release paths of a non-null buffer. *)
Lemma returnToPool_spec (self : nat) (p : positive) (w w' : Pool.process) :
  Pool.returnToPool self (Some p) w = Ok w' →
  same_config w w' ∧ Pool.stats w' = Pool.stats w
  ∧ ∃ b, Pool.objects w !! p = Some b
    ∧ ((Pool.m_maximumRetainedCapacity (Pool.pool w) < DSB.capacity b
        ∧ Pool.objects w' = delete p (Pool.objects w)
        ∧ Pool.t_cachedBuffer w' = Pool.t_cachedBuffer w
        ∧ Pool.m_pool (Pool.pool w') = Pool.m_pool (Pool.pool w))
       ∨ (DSB.capacity b <= Pool.m_maximumRetainedCapacity (Pool.pool w)
          ∧ Pool.t_cachedBuffer w !! self = None
          ∧ Pool.objects w' = Pool.objects w
          ∧ Pool.t_cachedBuffer w' = <[self := p]> (Pool.t_cachedBuffer w)
          ∧ Pool.m_pool (Pool.pool w') = Pool.m_pool (Pool.pool w))
       ∨ (DSB.capacity b <= Pool.m_maximumRetainedCapacity (Pool.pool w)
          ∧ is_Some (Pool.t_cachedBuffer w !! self)
          ∧ Z.of_nat (length (Pool.m_pool (Pool.pool w))) < Pool.m_maxPoolSize (Pool.pool w)
          ∧ Pool.objects w' = Pool.objects w
          ∧ Pool.t_cachedBuffer w' = Pool.t_cachedBuffer w
          ∧ Pool.m_pool (Pool.pool w') = Pool.m_pool (Pool.pool w) ++ [p])
       ∨ (DSB.capacity b <= Pool.m_maximumRetainedCapacity (Pool.pool w)
          ∧ is_Some (Pool.t_cachedBuffer w !! self)
          ∧ Pool.m_maxPoolSize (Pool.pool w) <= Z.of_nat (length (Pool.m_pool (Pool.pool w)))
          ∧ Pool.objects w' = delete p (Pool.objects w)
          ∧ Pool.t_cachedBuffer w' = Pool.t_cachedBuffer w
          ∧ Pool.m_pool (Pool.pool w') = Pool.m_pool (Pool.pool w))).
Proof.
  unfold Pool.returnToPool, Pool.delete_object. intros H.
  bind_inv H. rename a into b. apply deref_Ok_inv in E.
  destruct (Pool.m_maximumRetainedCapacity (Pool.pool w) <? DSB.capacity b) eqn:Hbig.
  - rewrite E in H. simpl in H. injection H as <-. apply Z.ltb_lt in Hbig.
    split; [repeat split|]. split; [reflexivity|]. exists b. split; [exact E|].
    left. auto.
  - apply Z.ltb_ge in Hbig.
    destruct (Pool.t_cachedBuffer w !! self) as [cached|] eqn:Hc.
    + destruct (Z.of_nat (length (Pool.m_pool (Pool.pool w))) <? Pool.m_maxPoolSize (Pool.pool w))
        eqn:Hroom.
      * injection H as <-. apply Z.ltb_lt in Hroom.
        split; [repeat split|]. split; [reflexivity|]. exists b. split; [exact E|].
        right. right. left. simpl. eauto 10.
      * rewrite E in H. simpl in H. injection H as <-. apply Z.ltb_ge in Hroom.
        split; [repeat split|]. split; [reflexivity|]. exists b. split; [exact E|].
        right. right. right. simpl. eauto 10.
    + injection H as <-.
      split; [repeat split|]. split; [reflexivity|]. exists b. split; [exact E|].
      right. left. simpl. auto.
Qed.

Lemma returnToPool_exists (self : nat) (p : positive) (w : Pool.process) :
  is_Some (Pool.objects w !! p) → ∃ w', Pool.returnToPool self (Some p) w = Ok w'.
Proof.
  intros (b & Hb). unfold Pool.returnToPool, Pool.delete_object. rewrite Hb. simpl.
  destruct (_ <? DSB.capacity b); [eauto|].
  destruct (Pool.t_cachedBuffer w !! self); [|eauto].
  destruct (_ <? _); eauto.
Qed.

(** ** The invariant of reachable programs *)

Lemma wrap64_add_l (a b : Z) : wrap64 (wrap64 a + b) = wrap64 (a + b).
Proof. unfold wrap64. apply Zplus_mod_idemp_l. Qed.

Lemma wrap64_add_r (a b : Z) : wrap64 (a + wrap64 b) = wrap64 (a + b).
Proof. unfold wrap64. apply Zplus_mod_idemp_r. Qed.

(** Each acquire path keeps the counters consistent. *)
Lemma consistent_get (s : Pool.PoolStatistics) :
  consistent s →
  consistent (Pool.add_threadLocalHits (Pool.add_totalRequests s))
  ∧ consistent (Pool.add_dynamicStringBufferPoolHits (Pool.add_totalRequests s))
  ∧ consistent (Pool.add_newAllocations (Pool.add_totalRequests s)).
Proof.
  intros (Ht & Ha & Hb & Hc). unfold consistent. simpl. rewrite Ht.
  repeat split; try apply wrap64_range; try lia; rewrite !wrap64_add_l.
  - rewrite <- (Z.add_assoc (wrap64 _)), wrap64_add_l. f_equal. lia.
  - rewrite (Z.add_comm (Pool.threadLocalHits s) (wrap64 _)),
      <- (Z.add_assoc (wrap64 _)), wrap64_add_l.
    f_equal. lia.
  - rewrite wrap64_add_r. f_equal. lia.
Qed.

Lemma consistent_reset (s : Pool.PoolStatistics) : consistent (Pool.reset s).
Proof. unfold consistent. simpl. repeat split; try lia; reflexivity. Qed.

Lemma same_config_trans (w1 w2 w3 : Pool.process) :
  same_config w1 w2 → same_config w2 w3 → same_config w1 w3.
Proof. unfold same_config. intros (? & ? & ?) (? & ? & ?). repeat split; congruence. Qed.

(** Ownership stays exclusive when owners are only removed ... *)
Lemma unique_shrink (w w' : program) :
  (∀ o p, owns w' o p → owns w o p) →
  (∀ o1 o2 p, owns w o1 p → owns w o2 p → o1 = o2) →
  ∀ o1 o2 p, owns w' o1 p → owns w' o2 p → o1 = o2.
Proof. intros Hsub Hu o1 o2 p H1 H2. eauto. Qed.

(** ... or when a buffer nobody owned gets one owner. *)
Lemma unique_grow (w w' : program) (o0 : owner) (p0 : positive) :
  (∀ o p, owns w' o p → owns w o p ∨ (o = o0 ∧ p = p0)) →
  (∀ o, ¬ owns w o p0) →
  (∀ o1 o2 p, owns w o1 p → owns w o2 p → o1 = o2) →
  ∀ o1 o2 p, owns w' o1 p → owns w' o2 p → o1 = o2.
Proof.
  intros Hsub Hfree Hu o1 o2 p H1 H2.
  destruct (Hsub _ _ H1) as [H1'|(-> & ->)], (Hsub _ _ H2) as [H2'|(-> & Hp)];
    subst; eauto; exfalso; eapply Hfree; eauto.
Qed.

Lemma invariant_initial : invariant initial.
Proof.
  split; simpl.
  - repeat split.
  - unfold consistent. simpl. repeat split; try lia; reflexivity.
  - constructor.
  - lia.
  - intros [|t|l] o2 p H; simpl in H.
    + apply elem_of_nil in H. contradiction.
    + rewrite lookup_empty in H. discriminate.
    + destruct H as (this & H & _). simpl in H. rewrite lookup_empty in H. discriminate.
  - intros [|t|l] p H; simpl in H.
    + apply elem_of_nil in H. contradiction.
    + rewrite lookup_empty in H. discriminate.
    + destruct H as (this & H & _). simpl in H. rewrite lookup_empty in H. discriminate.
  - intros l this H. rewrite lookup_empty in H. discriminate.
Qed.

(** Replacing a lease object by one that holds nothing new. *)
Lemma invariant_drop (w : program) (l : nat) (entry : option Lease.t) :
  invariant w →
  (∀ this, entry = Some this → Lease.m_valid this = true → leases w !! l = Some this) →
  invariant {| proc := proc w; leases := partial_alter (λ _, entry) l (leases w) |}.
Proof.
  intros [Hcfg Hst Hnd Hbd Hu Hlive Hval] Hentry.
  assert (Hsub : ∀ o p, owns {| proc := proc w;
                                leases := partial_alter (λ _, entry) l (leases w) |} o p
                        → owns w o p).
  { intros [|t|l'] p H; simpl in *; auto.
    destruct H as (this & Hl & Hv & Hb). simpl in Hl. exists this. split; [|auto].
    destruct (decide (l = l')) as [->|Hne].
    - rewrite lookup_partial_alter_eq in Hl. auto.
    - rewrite lookup_partial_alter_ne in Hl by exact Hne. exact Hl. }
  split; [exact Hcfg|exact Hst|exact Hnd|exact Hbd| | | ]; simpl.
  - eapply unique_shrink; eauto.
  - intros o p H. apply Hsub in H. apply Hlive in H. exact H.
  - intros l' this Hl Hv. destruct (decide (l = l')) as [->|Hne].
    + rewrite lookup_partial_alter_eq in Hl. eapply Hval; eauto.
    + rewrite lookup_partial_alter_ne in Hl by exact Hne. eapply Hval; eauto.
Qed.

(** Handing a live buffer nobody owns to a lease. *)
Lemma invariant_give (w : program) (l : nat) (p : positive) (b : DSB.t) :
  invariant w →
  (∀ o, ¬ owns w o p) →
  Pool.objects (proc w) !! p = Some b →
  DSB.well_formed b = true →
  invariant {| proc := proc w;
               leases := <[l := Lease.construct (Some p)]> (leases w) |}.
Proof.
  intros [Hcfg Hst Hnd Hbd Hu Hlive Hval] Hfree Hb Hwf.
  set (w' := {| proc := proc w; leases := <[l := Lease.construct (Some p)]> (leases w) |}).
  assert (Hsub : ∀ o q, owns w' o q → owns w o q ∨ (o = InLease l ∧ q = p)).
  { intros [|t|l'] q H; simpl in *; auto.
    destruct H as (this & Hl & Hv & Hbuf). simpl in Hl.
    destruct (decide (l = l')) as [->|Hne].
    - rewrite lookup_insert_eq in Hl. injection Hl as <-. simpl in Hbuf.
      injection Hbuf as <-. auto.
    - rewrite lookup_insert_ne in Hl by exact Hne. left. exists this. auto. }
  split; [exact Hcfg|exact Hst|exact Hnd|exact Hbd| | | ]; simpl.
  - eapply unique_grow; eauto.
  - intros o q H. destruct (Hsub _ _ H) as [H'|(-> & ->)].
    + apply Hlive in H'. exact H'.
    + exists b. split; [exact Hb|]. split; [exact Hwf|]. intros [].
  - intros l' this Hl Hv. destruct (decide (l = l')) as [->|Hne].
    + rewrite lookup_insert_eq in Hl. injection Hl as <-. simpl. eauto.
    + rewrite lookup_insert_ne in Hl by exact Hne. eapply Hval; eauto.
Qed.

(** Changing a buffer that a valid lease holds. *)
Lemma invariant_buffer (w : program) (l : nat) (p : positive) (b' : DSB.t) :
  invariant w →
  holds w l p →
  DSB.well_formed b' = true →
  invariant {| proc := Pool.set_objects (<[p := b']> (Pool.objects (proc w))) (proc w);
               leases := leases w |}.
Proof.
  intros [Hcfg Hst Hnd Hbd Hu Hlive Hval] Hl Hwf.
  split; [exact Hcfg|exact Hst|exact Hnd|exact Hbd|exact Hu| |exact Hval]; simpl.
  intros o q H.
  assert (Hq : owns w o q) by (destruct o; exact H).
  destruct (decide (p = q)) as [->|Hne].
  - rewrite lookup_insert_eq. exists b'. split; [reflexivity|]. split; [exact Hwf|].
    assert (o = InLease l) as -> by exact (Hu o (InLease l) q Hq Hl). intros [].
  - rewrite lookup_insert_ne by exact Hne. apply Hlive in Hq. exact Hq.
Qed.

(** A change of the process that adds no owner and keeps the buffers that
    are still owned, up to their contents. *)
Lemma invariant_shrink (w : program) (pr' : Pool.process) :
  invariant w →
  same_config (proc w) pr' →
  consistent (Pool.stats pr') →
  NoDup (Pool.m_pool (Pool.pool pr')) →
  (length (Pool.m_pool (Pool.pool pr')) ≤ length (Pool.m_pool (Pool.pool (proc w))))%nat →
  (∀ o q, owns {| proc := pr'; leases := leases w |} o q → owns w o q) →
  (∀ o q b0, owns {| proc := pr'; leases := leases w |} o q →
             Pool.objects (proc w) !! q = Some b0 → DSB.well_formed b0 = true →
             ∃ b1, Pool.objects pr' !! q = Some b1
                   ∧ DSB.well_formed b1 = true ∧ DSB.capacity b1 = DSB.capacity b0) →
  invariant {| proc := pr'; leases := leases w |}.
Proof.
  intros [Hcfg Hst Hnd Hbd Hu Hlive Hval] Hsame Hst' Hnd' Hlen Hsub Hobj.
  pose proof Hsame as (Hc1 & Hc2 & Hc3).
  split; simpl.
  - eapply same_config_trans; eauto.
  - exact Hst'.
  - exact Hnd'.
  - rewrite Hc3. lia.
  - eapply unique_shrink; eauto.
  - intros o q H. pose proof (Hsub _ _ H) as H0.
    destruct (Hlive _ _ H0) as (b0 & Hb0 & Hwf0 & Hcap0).
    destruct (Hobj _ _ _ H Hb0 Hwf0) as (b1 & Hb1 & Hwf1 & Hcap1).
    exists b1. split; [exact Hb1|]. split; [exact Hwf1|].
    intros Ht. rewrite Hcap1, Hc2. auto.
  - exact Hval.
Qed.

Lemma well_formed_clear (b : DSB.t) :
  DSB.well_formed b = true → DSB.well_formed (DSB.clear b) = true.
Proof.
  intros Hwf. apply well_formed_set_size; [exact Hwf|].
  apply well_formed_spec in Hwf as (_ & Hsize & _). lia.
Qed.

(** [get] keeps the invariant and returns a live, well-formed buffer that no
    tier and no lease references. *)
Lemma get_invariant (w : program) (self : nat) (p : positive) (pr' : Pool.process) :
  invariant w →
  Pool.get self (proc w) = Ok (p, pr') →
  invariant {| proc := pr'; leases := leases w |}
  ∧ (∀ o, ¬ owns {| proc := pr'; leases := leases w |} o p)
  ∧ ∃ b, Pool.objects pr' !! p = Some b ∧ DSB.well_formed b = true.
Proof.
  intros Hinv Hget. pose proof Hinv as [Hcfg Hst Hnd Hbd Hu Hlive Hval].
  apply get_spec in Hget as (Hsame & Hcases).
  destruct (consistent_get _ Hst) as (Hst1 & Hst2 & Hst3).
  destruct Hcases as [(Hc & Hc' & Hp' & (b & Hb & Ho') & Hs')
                     |[(Hc & Hc' & Hp' & (b & Hb & Ho') & Hs')
                      |(Hc & Hc' & Hp & Hp' & Hnone & (b & Hb & Ho') & Hs')]].
  - (* thread-local hit *)
    assert (Hsub : ∀ o q, owns {| proc := pr'; leases := leases w |} o q → owns w o q).
    { intros [|t|l] q H; simpl in *.
      - rewrite Hp' in H. exact H.
      - rewrite Hc' in H. apply lookup_delete_Some in H as (_ & H). exact H.
      - exact H. }
    destruct (Hlive (InCache self) p Hc) as (b0 & Hb0 & Hwf0 & _).
    rewrite Hb in Hb0. injection Hb0 as <-.
    split; [|split].
    + apply invariant_shrink; auto.
      * rewrite Hs'. exact Hst1.
      * rewrite Hp'. exact Hnd.
      * rewrite Hp'. lia.
      * intros o q b0 H Hq Hwfq. rewrite Ho'.
        destruct (decide (p = q)) as [->|Hne].
        -- rewrite lookup_insert_eq. rewrite Hb in Hq. injection Hq as <-.
           exists (DSB.clear b). split; [reflexivity|].
           split; [apply well_formed_clear; exact Hwfq|reflexivity].
        -- rewrite lookup_insert_ne by exact Hne. eauto.
    + intros o H. pose proof (Hsub _ _ H) as H0.
      assert (o = InCache self) as -> by exact (Hu o (InCache self) p H0 Hc).
      simpl in H. rewrite Hc', lookup_delete_eq in H. discriminate.
    + exists (DSB.clear b). rewrite Ho', lookup_insert_eq.
      split; [reflexivity|apply well_formed_clear; exact Hwf0].
  - (* shared-pool hit *)
    assert (Hin : p ∈ Pool.m_pool (Pool.pool (proc w))).
    { rewrite Hp'. apply elem_of_app. right. apply list_elem_of_singleton. reflexivity. }
    assert (Hsub : ∀ o q, owns {| proc := pr'; leases := leases w |} o q → owns w o q).
    { intros [|t|l] q H; simpl in *.
      - rewrite Hp'. apply elem_of_app. left. exact H.
      - rewrite Hc' in H. exact H.
      - exact H. }
    destruct (Hlive InPool p Hin) as (b0 & Hb0 & Hwf0 & _).
    rewrite Hb in Hb0. injection Hb0 as <-.
    rewrite Hp' in Hnd. apply NoDup_app in Hnd as (Hnd1 & Hnd2 & _).
    split; [|split].
    + apply invariant_shrink; auto.
      * rewrite Hs'. exact Hst2.
      * rewrite Hp', length_app. lia.
      * intros o q b0 H Hq Hwfq. rewrite Ho'.
        destruct (decide (p = q)) as [->|Hne].
        -- rewrite lookup_insert_eq. rewrite Hb in Hq. injection Hq as <-.
           exists (DSB.clear b). split; [reflexivity|].
           split; [apply well_formed_clear; exact Hwfq|reflexivity].
        -- rewrite lookup_insert_ne by exact Hne. eauto.
    + intros o H. pose proof (Hsub _ _ H) as H0.
      assert (o = InPool) as -> by exact (Hu o InPool p H0 Hin).
      simpl in H. apply (Hnd2 p H). apply list_elem_of_singleton. reflexivity.
    + exists (DSB.clear b). rewrite Ho', lookup_insert_eq.
      split; [reflexivity|apply well_formed_clear; exact Hwf0].
  - (* fresh allocation *)
    assert (Hsub : ∀ o q, owns {| proc := pr'; leases := leases w |} o q → owns w o q).
    { intros [|t|l] q H; simpl in *.
      - rewrite Hp' in H. apply elem_of_nil in H. contradiction.
      - rewrite Hc' in H. exact H.
      - exact H. }
    assert (Hfresh : ∀ o, ¬ owns w o p).
    { intros o H. destruct (Hlive _ _ H) as (b0 & Hb0 & _). congruence. }
    destruct Hcfg as (Hi & _). simpl in Hi. rewrite Hi in Hb.
    injection Hb as <-.
    split; [|split].
    + apply invariant_shrink; auto.
      * rewrite Hs'. exact Hst3.
      * rewrite Hp'. constructor.
      * rewrite Hp'. simpl. lia.
      * intros o q b0 H Hq Hwfq. rewrite Ho'.
        destruct (decide (p = q)) as [->|Hne]; [congruence|].
        rewrite lookup_insert_ne by exact Hne. eauto.
    + intros o H. apply (Hfresh o). apply Hsub. exact H.
    + exists DSB.default. rewrite Ho', lookup_insert_eq. split; reflexivity.
Qed.

(** A tier takes in a live buffer nobody owned, small enough to be retained. *)
Lemma invariant_grow (w : program) (pr' : Pool.process) (o0 : owner) (p0 : positive) (b : DSB.t) :
  invariant w →
  same_config (proc w) pr' →
  Pool.stats pr' = Pool.stats (proc w) →
  Pool.objects pr' = Pool.objects (proc w) →
  NoDup (Pool.m_pool (Pool.pool pr')) →
  Z.of_nat (length (Pool.m_pool (Pool.pool pr'))) <= Pool.m_maxPoolSize (Pool.pool (proc w)) →
  is_tier o0 →
  (∀ o q, owns {| proc := pr'; leases := leases w |} o q → owns w o q ∨ (o = o0 ∧ q = p0)) →
  (∀ o, ¬ owns w o p0) →
  Pool.objects (proc w) !! p0 = Some b →
  DSB.well_formed b = true →
  DSB.capacity b <= Pool.m_maximumRetainedCapacity (Pool.pool (proc w)) →
  invariant {| proc := pr'; leases := leases w |}.
Proof.
  intros [Hcfg Hst Hnd Hbd Hu Hlive Hval] Hsame Hst' Hobj Hnd' Hbd' Htier Hsub Hfree Hb Hwf Hcap.
  pose proof Hsame as (Hc1 & Hc2 & Hc3).
  split; simpl.
  - eapply same_config_trans; eauto.
  - unfold Pool.stats in *. rewrite Hst'. exact Hst.
  - exact Hnd'.
  - rewrite Hc3. exact Hbd'.
  - eapply unique_grow; eauto.
  - intros o q H. rewrite Hobj, Hc2. destruct (Hsub _ _ H) as [H0|(-> & ->)].
    + apply Hlive. exact H0.
    + exists b. auto.
  - exact Hval.
Qed.

(** [returnToPool] of a live, well-formed buffer that nobody references. *)
Lemma returnToPool_invariant (w : program) (self : nat) (p : positive) (b : DSB.t)
    (pr' : Pool.process) :
  invariant w →
  (∀ o, ¬ owns w o p) →
  Pool.objects (proc w) !! p = Some b →
  DSB.well_formed b = true →
  Pool.returnToPool self (Some p) (proc w) = Ok pr' →
  invariant {| proc := pr'; leases := leases w |}.
Proof.
  intros Hinv Hfree Hb Hwf Hret. pose proof Hinv as [Hcfg Hst Hnd Hbd Hu Hlive Hval].
  apply returnToPool_spec in Hret as (Hsame & Hst' & b0 & Hb0 & Hcases).
  rewrite Hb in Hb0. injection Hb0 as <-.
  assert (Hdel : ∀ pr1 : Pool.process,
             same_config (proc w) pr1 → Pool.stats pr1 = Pool.stats (proc w) →
             Pool.objects pr1 = delete p (Pool.objects (proc w)) →
             Pool.t_cachedBuffer pr1 = Pool.t_cachedBuffer (proc w) →
             Pool.m_pool (Pool.pool pr1) = Pool.m_pool (Pool.pool (proc w)) →
             invariant {| proc := pr1; leases := leases w |}).
  { intros pr1 Hsame1 Hst1 Ho1 Hc1 Hp1.
    assert (Hsub : ∀ o q, owns {| proc := pr1; leases := leases w |} o q → owns w o q).
    { intros [|t|l] q H; simpl in *; [rewrite Hp1 in H|rewrite Hc1 in H|]; exact H. }
    apply invariant_shrink; auto.
    - rewrite Hst1. exact Hst.
    - rewrite Hp1. exact Hnd.
    - rewrite Hp1. lia.
    - intros o q b0 H Hq Hwfq. rewrite Ho1.
      destruct (decide (p = q)) as [->|Hne].
      + exfalso. apply (Hfree o). apply Hsub. exact H.
      + rewrite lookup_delete_ne by exact Hne. eauto. }
  destruct Hcases as [(Hbig & Ho' & Hc' & Hp')
                     |[(Hcap & Hc & Ho' & Hc' & Hp')
                      |[(Hcap & Hc & Hroom & Ho' & Hc' & Hp')
                       |(Hcap & Hc & Hfull & Ho' & Hc' & Hp')]]].
  - apply Hdel; assumption.
  - apply (invariant_grow w pr' (InCache self) p b); auto.
    + rewrite Hp'. exact Hnd.
    + rewrite Hp'. exact Hbd.
    + exact I.
    + intros [|t|l] q H; simpl in *.
      * rewrite Hp' in H. auto.
      * rewrite Hc' in H. destruct (decide (self = t)) as [->|Hne].
        -- rewrite lookup_insert_eq in H. injection H as <-. auto.
        -- rewrite lookup_insert_ne in H by exact Hne. auto.
      * auto.
  - apply (invariant_grow w pr' InPool p b); auto.
    + rewrite Hp'. apply NoDup_app. split; [exact Hnd|]. split.
      * intros q Hq Hq'. apply list_elem_of_singleton in Hq'. subst q.
        apply (Hfree InPool). exact Hq.
      * apply NoDup_singleton.
    + rewrite Hp', length_app. simpl. lia.
    + exact I.
    + intros [|t|l] q H; simpl in *.
      * rewrite Hp' in H. apply elem_of_app in H as [H|H]; [auto|].
        apply list_elem_of_singleton in H. auto.
      * rewrite Hc' in H. auto.
      * auto.
  - apply Hdel; assumption.
Qed.

(** Deleting the buffers of a list leaves the others, and the tiers, alone. *)
Lemma delete_each_spec (ps : list positive) (w w' : Pool.process) :
  Pool.delete_each ps w = Ok w' →
  Pool.pool w' = Pool.pool w
  ∧ Pool.t_cachedBuffer w' = Pool.t_cachedBuffer w
  ∧ ∀ q, q ∉ ps → Pool.objects w' !! q = Pool.objects w !! q.
Proof.
  revert w. induction ps as [|p ps IH]; intros w H; simpl in H.
  - injection H as <-. auto.
  - bind_inv H. rename a into w1. unfold Pool.delete_object in E.
    bind_inv E. injection E as <-.
    destruct (IH _ H) as (Hp & Hc & Ho). simpl in *.
    split; [exact Hp|]. split; [exact Hc|].
    intros q Hq. apply not_elem_of_cons in Hq as (Hne & Hq).
    rewrite (Ho q Hq). apply lookup_delete_ne. congruence.
Qed.

Lemma delete_each_exists (ps : list positive) (w : Pool.process) :
  NoDup ps → (∀ q, q ∈ ps → is_Some (Pool.objects w !! q)) →
  ∃ w', Pool.delete_each ps w = Ok w'.
Proof.
  revert w. induction ps as [|p ps IH]; intros w Hnd Hlive; simpl.
  - eauto.
  - apply NoDup_cons in Hnd as (Hp & Hnd).
    destruct (Hlive p ltac:(left)) as (b & Hb).
    unfold Pool.delete_object. rewrite Hb. simpl.
    apply IH; [exact Hnd|]. intros q Hq. simpl.
    rewrite lookup_delete_ne by (intros ->; contradiction).
    apply Hlive. right. exact Hq.
Qed.

(** The lease that held a buffer was its only owner. *)
Lemma delete_each_gone (ps : list positive) (w w' : Pool.process) :
  Pool.delete_each ps w = Ok w' →
  ∀ q, q ∈ ps ∨ Pool.objects w !! q = None → Pool.objects w' !! q = None.
Proof.
  revert w. induction ps as [|p ps IH]; intros w H q Hq; simpl in H.
  - injection H as <-. destruct Hq as [Hq|Hq]; [|exact Hq].
    apply elem_of_nil in Hq. contradiction.
  - bind_inv H. rename a into w1. unfold Pool.delete_object in E.
    bind_inv E. injection E as <-. apply (IH _ H). simpl.
    destruct Hq as [Hq|Hq].
    + apply elem_of_cons in Hq as [->|Hq]; [right; apply lookup_delete_eq|left; exact Hq].
    + right. apply lookup_delete_None. right. exact Hq.
Qed.

Lemma drop_frees (w : program) (l : nat) (entry : option Lease.t) (q : positive) :
  invariant w →
  holds w l q →
  (∀ this, entry = Some this → Lease.m_valid this = false) →
  ∀ o, ¬ owns {| proc := proc w; leases := partial_alter (λ _, entry) l (leases w) |} o q.
Proof.
  intros [Hcfg Hst Hnd Hbd Hu Hlive Hval] Hl Hentry o H.
  assert (H0 : owns w o q).
  { destruct o as [|t|l']; simpl in *; auto.
    destruct H as (this & Hlk & Hv & Hb). simpl in Hlk. exists this. split; [|auto].
    destruct (decide (l = l')) as [->|Hne].
    - rewrite lookup_partial_alter_eq in Hlk. apply Hentry in Hlk. congruence.
    - rewrite lookup_partial_alter_ne in Hlk by exact Hne. exact Hlk. }
  assert (o = InLease l) as -> by exact (Hu o (InLease l) q H0 Hl).
  destruct H as (this & Hlk & Hv & Hb). simpl in Hlk.
  rewrite lookup_partial_alter_eq in Hlk. apply Hentry in Hlk. congruence.
Qed.

Lemma dispose_spec (self : nat) (this this' : Lease.t) (pr pr' : Pool.process) :
  Lease.dispose self this pr = Ok (this', pr') →
  (Lease.m_valid this = false ∧ this' = this ∧ pr' = pr)
  ∨ (Lease.m_valid this = true
     ∧ this' = Lease.exchanged
     ∧ Pool.returnToPool self (Lease.m_buffer this) pr = Ok pr').
Proof.
  unfold Lease.dispose. intros H. destruct (Lease.m_valid this).
  - bind_inv H. injection H as <- <-. right. auto.
  - injection H as <- <-. left. auto.
Qed.

(** Disposing the lease object [l], whatever is stored in its place as long
    as that is not a valid lease. *)
Lemma dispose_invariant (w : program) (self l : nat) (this this' : Lease.t)
    (pr' : Pool.process) (entry : option Lease.t) :
  invariant w →
  leases w !! l = Some this →
  Lease.dispose self this (proc w) = Ok (this', pr') →
  (∀ x, entry = Some x → Lease.m_valid x = false) →
  invariant {| proc := pr'; leases := partial_alter (λ _, entry) l (leases w) |}.
Proof.
  intros Hinv Hl Hd Hentry.
  assert (Hdrop : invariant {| proc := proc w;
                               leases := partial_alter (λ _, entry) l (leases w) |}).
  { apply invariant_drop; [exact Hinv|]. intros x Hx Hv. apply Hentry in Hx. congruence. }
  apply dispose_spec in Hd as [(Hv & -> & ->)|(Hv & -> & Hret)]; [exact Hdrop|].
  destruct (inv_valid w Hinv l this Hl Hv) as (p & Hp).
  assert (Hheld : holds w l p) by (exists this; auto).
  destruct (inv_live w Hinv (InLease l) p Hheld) as (b & Hb & Hwf & _).
  rewrite Hp in Hret.
  apply (returnToPool_invariant
           {| proc := proc w; leases := partial_alter (λ _, entry) l (leases w) |}
           self p b pr' Hdrop); auto.
  apply drop_frees; assumption.
Qed.

(** Moving the lease [other] out of [src] into the object [dst]. *)
Lemma move_invariant (w : program) (dst src : nat) (other : Lease.t) :
  invariant w →
  dst ≠ src →
  leases w !! src = Some other →
  invariant {| proc := proc w;
               leases := <[dst := {| Lease.m_buffer := Lease.m_buffer other;
                                     Lease.m_valid := Lease.m_valid other |}]>
                           (<[src := Lease.exchanged]> (leases w)) |}.
Proof.
  intros Hinv Hne Hsrc.
  assert (Hdrop : invariant {| proc := proc w;
                               leases := <[src := Lease.exchanged]> (leases w) |}).
  { apply (invariant_drop w src (Some Lease.exchanged) Hinv).
    intros x [= <-] Hv. discriminate. }
  destruct (Lease.m_valid other) eqn:Hv.
  - destruct (inv_valid w Hinv src other Hsrc Hv) as (q & Hq). rewrite Hq.
    assert (Hheld : holds w src q) by (exists other; auto).
    destruct (inv_live w Hinv (InLease src) q Hheld) as (b & Hb & Hwf & _).
    apply (invariant_give {| proc := proc w;
                             leases := <[src := Lease.exchanged]> (leases w) |}
             dst q b Hdrop); auto.
    apply (drop_frees w src (Some Lease.exchanged) q Hinv Hheld).
    intros x [= <-]. reflexivity.
  - apply (invariant_drop {| proc := proc w;
                             leases := <[src := Lease.exchanged]> (leases w) |}
             dst (Some {| Lease.m_buffer := Lease.m_buffer other;
                          Lease.m_valid := false |}) Hdrop).
    intros x [= <-] Hx. discriminate.
Qed.

(** [DynamicStringBufferPool::clear()]: both tiers of the calling thread are
    emptied, the buffers they held are freed, and the count is [size()]. *)
Lemma clear_spec (self : nat) (w w' : Pool.process) (n : Z) :
  Pool.clear self w = Ok (n, w') →
  same_config w w'
  ∧ Pool.stats w' = Pool.stats w
  ∧ Pool.m_pool (Pool.pool w') = []
  ∧ Pool.t_cachedBuffer w' = delete self (Pool.t_cachedBuffer w)
  ∧ n = Pool.size self w
  ∧ ∀ q, q ∉ Pool.m_pool (Pool.pool w) → Pool.t_cachedBuffer w !! self ≠ Some q →
         Pool.objects w' !! q = Pool.objects w !! q.
Proof.
  unfold Pool.clear, Pool.size. intros H.
  bind_inv H. rename a into w1.
  apply delete_each_spec in E as (Hp & Hc & Ho). simpl in H. rewrite Hc in H.
  destruct (Pool.t_cachedBuffer w !! self) as [cached|] eqn:Hcached.
  - unfold Pool.delete_object in H. simpl in H.
    bind_inv H. injection H as <- <-. bind_inv E. injection E as <-.
    unfold same_config, Pool.stats. simpl. rewrite ?Hp, ?Hc. repeat split.
    intros q Hq Hne. rewrite lookup_delete_ne by congruence. apply Ho. exact Hq.
  - injection H as <- <-. unfold same_config, Pool.stats. simpl. rewrite ?Hp, ?Hc.
    rewrite delete_id by exact Hcached. repeat split.
    intros q Hq _. apply Ho. exact Hq.
Qed.

(** ... and every buffer they held is deallocated. *)
Lemma clear_gone (self : nat) (w w' : Pool.process) (n : Z) :
  Pool.clear self w = Ok (n, w') →
  ∀ q, q ∈ Pool.m_pool (Pool.pool w) ∨ Pool.t_cachedBuffer w !! self = Some q →
       Pool.objects w' !! q = None.
Proof.
  unfold Pool.clear. intros H q Hq. bind_inv H. rename a into w1.
  pose proof (delete_each_gone _ _ _ E) as Hgone.
  apply delete_each_spec in E as (_ & Hc & _). simpl in H. rewrite Hc in H.
  destruct (Pool.t_cachedBuffer w !! self) as [cached|] eqn:Hcached.
  - unfold Pool.delete_object in H. simpl in H.
    bind_inv H. injection H as _ <-. bind_inv E. injection E as <-. simpl.
    apply lookup_delete_None.
    destruct Hq as [Hq|[= ->]]; [right; apply Hgone; left; exact Hq|left; reflexivity].
  - injection H as _ <-. destruct Hq as [Hq|[=]]. apply Hgone. left. exact Hq.
Qed.

Lemma clear_invariant (w : program) (self : nat) (n : Z) (pr' : Pool.process) :
  invariant w →
  StringBuilderPool.clear self (proc w) = Ok (n, pr') →
  invariant {| proc := pr'; leases := leases w |}.
Proof.
  intros Hinv H. pose proof Hinv as [Hcfg Hst Hnd Hbd Hu Hlive Hval].
  unfold StringBuilderPool.clear in H.
  apply clear_spec in H as (Hsame & Hst' & Hp' & Hc' & _ & Ho'). simpl in *.
  assert (Hsub : ∀ o q, owns {| proc := pr'; leases := leases w |} o q → owns w o q).
  { intros [|t|l] q H; simpl in *.
    - rewrite Hp' in H. apply elem_of_nil in H. contradiction.
    - rewrite Hc' in H. apply lookup_delete_Some in H as (_ & H). exact H.
    - exact H. }
  apply invariant_shrink; auto.
  - rewrite Hst'. apply consistent_reset.
  - rewrite Hp'. constructor.
  - rewrite Hp'. simpl. lia.
  - intros o q b0 H Hq Hwfq. exists b0. rewrite Ho'; [auto| |].
    + intros Hin. pose proof (Hu o InPool q (Hsub _ _ H) Hin) as ->.
      simpl in H. rewrite Hp' in H. apply elem_of_nil in H. contradiction.
    + intros Hcq. pose proof (Hu o (InCache self) q (Hsub _ _ H) Hcq) as ->.
      simpl in H. rewrite Hc', lookup_delete_eq in H. discriminate.
Qed.

Lemma ThreadLocalCleanup_invariant (w : program) (self : nat) (pr' : Pool.process) :
  invariant w →
  Pool.ThreadLocalCleanup self (proc w) = Ok pr' →
  invariant {| proc := pr'; leases := leases w |}.
Proof.
  intros Hinv H. pose proof Hinv as [Hcfg Hst Hnd Hbd Hu Hlive Hval].
  unfold Pool.ThreadLocalCleanup in H.
  destruct (Pool.t_cachedBuffer (proc w) !! self) as [cached|] eqn:Hc.
  - unfold Pool.delete_object in H. bind_inv H. injection H as <-.
    bind_inv E. injection E as <-.
    assert (Hsub : ∀ o q, owns {| proc := Pool.set_cached
                                            (delete self (Pool.t_cachedBuffer (proc w)))
                                            (Pool.set_objects
                                               (delete cached (Pool.objects (proc w))) (proc w));
                                  leases := leases w |} o q → owns w o q).
    { intros [|t|l] q H; simpl in *; auto.
      apply lookup_delete_Some in H as (_ & H). exact H. }
    apply invariant_shrink;
      [exact Hinv|repeat split|exact Hst|exact Hnd|simpl; lia|exact Hsub|].
    intros o q b0 H Hq Hwfq. exists b0. simpl.
    rewrite lookup_delete_ne; [auto|]. intros <-.
    pose proof (Hu o (InCache self) cached (Hsub _ _ H) Hc) as ->.
    simpl in H. rewrite lookup_delete_eq in H. discriminate.
  - injection H as <-. destruct w. exact Hinv.
Qed.

Lemma resetStats_invariant (w : program) :
  invariant w →
  invariant {| proc := StringBuilderPool.resetStats (proc w); leases := leases w |}.
Proof.
  intros Hinv. pose proof Hinv as [Hcfg Hst Hnd Hbd Hu Hlive Hval].
  apply invariant_shrink;
    [exact Hinv|repeat split|apply consistent_reset|exact Hnd|simpl; lia| |].
  - intros [|t|l] q H; exact H.
  - intros o q b0 H Hq Hwfq. exists b0. auto.
Qed.

(** Every client action keeps the invariant. *)
Lemma step_invariant (w w' : program) : invariant w → step w w' → invariant w'.
Proof.
  intros Hinv Hstep. destruct Hstep.
  - (* lease() *)
    destruct r as (this & pr'). unfold StringBuilderPool.lease in H0.
    bind_inv H0. destruct a as (p & pr0). injection H0 as <- <-. simpl.
    destruct (get_invariant w self p pr0 Hinv E) as (Hinv' & Hfree & b & Hb & Hwf).
    apply (invariant_give {| proc := pr0; leases := leases w |} l p b Hinv' Hfree Hb Hwf).
  - (* move construction *)
    simpl. apply move_invariant; [exact Hinv| |exact H0]. congruence.
  - (* move assignment *)
    destruct r as ((this' & other') & pr'). unfold Lease.move_assign in H2.
    bind_inv H2. destruct a as (disposed & pr0). injection H2 as <- <- <-. simpl.
    pose proof (dispose_invariant w self dst this disposed pr0 (Some Lease.exchanged)
                  Hinv H0 E) as Hinv1.
    assert (Hinv2 : invariant {| proc := pr0; leases := <[dst := Lease.exchanged]> (leases w) |}).
    { apply Hinv1. intros x [= <-]. reflexivity. }
    pose proof (move_invariant _ dst src other Hinv2 H) as Hinv3. simpl in Hinv3.
    rewrite lookup_insert_ne in Hinv3 by exact H.
    specialize (Hinv3 H1).
    rewrite (insert_insert_ne _ src dst), insert_insert_eq in Hinv3 by congruence.
    exact Hinv3.
  - (* destruction *)
    unfold Lease.destroy in H0. bind_inv H0. destruct a as (disposed & pr0).
    injection H0 as <-. simpl.
    apply (dispose_invariant w self l this disposed pr0 None Hinv H E).
    intros x [=].
  - (* a call on the buffer of a valid lease *)
    unfold Lease.buffer in H0. destruct (Lease.m_valid this) eqn:Hv; [|discriminate].
    simpl in H0. apply deref_Ok_inv in H0.
    assert (Hheld : holds w l p) by (exists this; auto).
    destruct (inv_live w Hinv (InLease l) p Hheld) as (b0 & Hb0 & Hwf & _).
    rewrite H1 in Hb0. injection Hb0 as <-.
    apply (invariant_buffer w l p b' Hinv Hheld).
    apply (exec_well_formed c b b' Hwf H2 H3).
  - apply resetStats_invariant. exact Hinv.
  - destruct r as (n & pr'). simpl. apply (clear_invariant w self n pr' Hinv H).
  - apply (ThreadLocalCleanup_invariant w self p Hinv H).
Qed.

Lemma reachable_invariant (w : program) : reachable w → invariant w.
Proof.
  induction 1 as [|w w' _ IH Hstep].
  - apply invariant_initial.
  - apply (step_invariant w w' IH Hstep).
Qed.

(** ** The pool: acquiring always succeeds *)

Lemma get_exists (w : program) (self : nat) :
  invariant w → ∃ p pr', Pool.get self (proc w) = Ok (p, pr').
Proof.
  intros [Hcfg Hst Hnd Hbd Hu Hlive Hval]. unfold Pool.get. simpl.
  destruct (Pool.t_cachedBuffer (proc w) !! self) as [cached|] eqn:Hc.
  - destruct (Hlive (InCache self) cached Hc) as (b & Hb & _).
    unfold Pool.clear_at. simpl. rewrite Hb. simpl. eauto.
  - destruct (last (Pool.m_pool (Pool.pool (proc w)))) as [back|] eqn:Hl.
    + assert (Hin : back ∈ Pool.m_pool (Pool.pool (proc w))).
      { apply last_Some in Hl as (l' & ->). apply elem_of_app. right.
        apply list_elem_of_singleton. reflexivity. }
      destruct (Hlive InPool back Hin) as (b & Hb & _).
      unfold Pool.clear_at. simpl. rewrite Hb. simpl. eauto.
    + destruct Hcfg as (Hi & _). simpl in Hi. rewrite Hi. simpl. eauto.
Qed.

(** The buffer [get] returns is small enough to be retained, and the slot
    of the calling thread is empty afterwards. *)
Lemma get_retainable (w : program) (self : nat) (p : positive) (pr' : Pool.process) :
  invariant w →
  Pool.get self (proc w) = Ok (p, pr') →
  Pool.t_cachedBuffer pr' !! self = None
  ∧ ∃ b, Pool.objects pr' !! p = Some b
         ∧ DSB.capacity b <= Pool.m_maximumRetainedCapacity (Pool.pool pr').
Proof.
  intros [Hcfg Hst Hnd Hbd Hu Hlive Hval] Hget.
  apply get_spec in Hget as ((_ & Hmax & _) & Hcases). rewrite Hmax.
  destruct Hcases as [(Hc & Hc' & Hp' & (b & Hb & Ho') & Hs')
                     |[(Hc & Hc' & Hp' & (b & Hb & Ho') & Hs')
                      |(Hc & Hc' & Hp & Hp' & Hnone & (b & Hb & Ho') & Hs')]].
  - split; [rewrite Hc'; apply lookup_delete_eq|].
    destruct (Hlive (InCache self) p Hc) as (b0 & Hb0 & _ & Hcap).
    rewrite Hb in Hb0. injection Hb0 as <-.
    exists (DSB.clear b). rewrite Ho', lookup_insert_eq. split; [reflexivity|].
    apply Hcap. exact I.
  - split; [rewrite Hc'; exact Hc|].
    assert (Hin : p ∈ Pool.m_pool (Pool.pool (proc w))).
    { rewrite Hp'. apply elem_of_app. right. apply list_elem_of_singleton. reflexivity. }
    destruct (Hlive InPool p Hin) as (b0 & Hb0 & _ & Hcap).
    rewrite Hb in Hb0. injection Hb0 as <-.
    exists (DSB.clear b). rewrite Ho', lookup_insert_eq. split; [reflexivity|].
    apply Hcap. exact I.
  - split; [rewrite Hc'; exact Hc|].
    destruct Hcfg as (Hi & Hm & _). simpl in Hi, Hm. rewrite Hi in Hb. injection Hb as <-.
    exists DSB.default. rewrite Ho', lookup_insert_eq. split; [reflexivity|].
    rewrite Hm. unfold DSB.capacity. simpl. unfold DSB.STACK_BUFFER_SIZE. lia.
Qed.

(** C3. In every reachable program (every sequence of pool operations) the
    counters satisfy [totalRequests == threadLocalHits + sharedHits +
    newAllocations]; an acquire completes, adds one to [totalRequests] and one
    to exactly the counter of the tier that served it -- the slot of the thread
    if it is occupied, else the shared pool if it is not empty, else a fresh
    allocation -- and the equation holds again afterwards. *)
Theorem acquire_accounting (w : program) (self : nat) :
  reachable w →
  consistent (Pool.stats (proc w))
  ∧ ∃ p pr',
      Pool.get self (proc w) = Ok (p, pr')
      ∧ Pool.totalRequests (Pool.stats pr')
        = wrap64 (Pool.totalRequests (Pool.stats (proc w)) + 1)
      ∧ ((is_Some (Pool.t_cachedBuffer (proc w) !! self)
          ∧ Pool.threadLocalHits (Pool.stats pr')
            = wrap64 (Pool.threadLocalHits (Pool.stats (proc w)) + 1)
          ∧ Pool.dynamicStringBufferPoolHits (Pool.stats pr')
            = Pool.dynamicStringBufferPoolHits (Pool.stats (proc w))
          ∧ Pool.newAllocations (Pool.stats pr') = Pool.newAllocations (Pool.stats (proc w)))
         ∨ (Pool.t_cachedBuffer (proc w) !! self = None
            ∧ Pool.m_pool (Pool.pool (proc w)) ≠ []
            ∧ Pool.threadLocalHits (Pool.stats pr') = Pool.threadLocalHits (Pool.stats (proc w))
            ∧ Pool.dynamicStringBufferPoolHits (Pool.stats pr')
              = wrap64 (Pool.dynamicStringBufferPoolHits (Pool.stats (proc w)) + 1)
            ∧ Pool.newAllocations (Pool.stats pr')
              = Pool.newAllocations (Pool.stats (proc w)))
         ∨ (Pool.t_cachedBuffer (proc w) !! self = None
            ∧ Pool.m_pool (Pool.pool (proc w)) = []
            ∧ Pool.threadLocalHits (Pool.stats pr') = Pool.threadLocalHits (Pool.stats (proc w))
            ∧ Pool.dynamicStringBufferPoolHits (Pool.stats pr')
              = Pool.dynamicStringBufferPoolHits (Pool.stats (proc w))
            ∧ Pool.newAllocations (Pool.stats pr')
              = wrap64 (Pool.newAllocations (Pool.stats (proc w)) + 1)))
      ∧ consistent (Pool.stats pr').
Proof.
  intros Hreach. apply reachable_invariant in Hreach as Hinv.
  split; [apply (inv_stats w Hinv)|].
  destruct (get_exists w self Hinv) as (p & pr' & Hget).
  exists p, pr'. split; [exact Hget|].
  destruct (get_invariant w self p pr' Hinv Hget) as (Hinv' & _).
  pose proof (inv_stats _ Hinv') as Hst'. simpl in Hst'.
  apply get_spec in Hget as (_ & Hcases).
  destruct Hcases as [(Hc & Hc' & Hp' & _ & Hs')
                     |[(Hc & Hc' & Hp' & _ & Hs')
                      |(Hc & Hc' & Hp & Hp' & _ & _ & Hs')]]; rewrite Hs' in *; simpl.
  - split; [reflexivity|]. split; [|exact Hst']. left. rewrite Hc. eauto.
  - split; [reflexivity|]. split; [|exact Hst']. right. left.
    split; [exact Hc|]. split; [|auto]. rewrite Hp'. intros Hnil.
    apply app_eq_nil in Hnil as (_ & [=]).
  - split; [reflexivity|]. split; [|exact Hst']. right. right. auto.
Qed.

Lemma acquire_accounting_witness :
  consistent (Pool.stats (proc initial))
  ∧ ∃ p pr',
      Pool.get 0%nat (proc initial) = Ok (p, pr')
      ∧ Pool.totalRequests (Pool.stats pr') = wrap64 (0 + 1)
      ∧ ((is_Some (Pool.t_cachedBuffer (proc initial) !! 0%nat)
          ∧ Pool.threadLocalHits (Pool.stats pr') = wrap64 (0 + 1)
          ∧ Pool.dynamicStringBufferPoolHits (Pool.stats pr') = 0
          ∧ Pool.newAllocations (Pool.stats pr') = 0)
         ∨ (Pool.t_cachedBuffer (proc initial) !! 0%nat = None
            ∧ Pool.m_pool (Pool.pool (proc initial)) ≠ []
            ∧ Pool.threadLocalHits (Pool.stats pr') = 0
            ∧ Pool.dynamicStringBufferPoolHits (Pool.stats pr') = wrap64 (0 + 1)
            ∧ Pool.newAllocations (Pool.stats pr') = 0)
         ∨ (Pool.t_cachedBuffer (proc initial) !! 0%nat = None
            ∧ Pool.m_pool (Pool.pool (proc initial)) = []
            ∧ Pool.threadLocalHits (Pool.stats pr') = 0
            ∧ Pool.dynamicStringBufferPoolHits (Pool.stats pr') = 0
            ∧ Pool.newAllocations (Pool.stats pr') = wrap64 (0 + 1)))
      ∧ consistent (Pool.stats pr').
Proof. apply (acquire_accounting initial 0%nat). apply reachable_initial. Defined.

(** ** The pool: releasing *)

(** C4. In every reachable program each buffer held by the slot of a thread
    or by the shared pool has [capacity <= maxRetainedCapacity]; releasing a
    buffer whose capacity exceeds the limit completes, deallocates it, leaves
    both tiers as they were -- so that no tier holds it -- and does not
    increase [size()]. *)
Theorem oversized_release (w : program) :
  reachable w →
  (∀ o p, is_tier o → owns w o p →
          ∃ b, Pool.objects (proc w) !! p = Some b
               ∧ DSB.capacity b <= Pool.m_maximumRetainedCapacity (Pool.pool (proc w)))
  ∧ (∀ (self : nat) (p : positive) (b : DSB.t),
        Pool.objects (proc w) !! p = Some b →
        Pool.m_maximumRetainedCapacity (Pool.pool (proc w)) < DSB.capacity b →
        ∃ pr', Pool.returnToPool self (Some p) (proc w) = Ok pr'
               ∧ Pool.objects pr' = delete p (Pool.objects (proc w))
               ∧ Pool.t_cachedBuffer pr' = Pool.t_cachedBuffer (proc w)
               ∧ Pool.m_pool (Pool.pool pr') = Pool.m_pool (Pool.pool (proc w))
               ∧ (∀ o, is_tier o → ¬ owns {| proc := pr'; leases := leases w |} o p)
               ∧ Pool.size self pr' <= Pool.size self (proc w)).
Proof.
  intros Hreach. apply reachable_invariant in Hreach as Hinv.
  pose proof Hinv as [Hcfg Hst Hnd Hbd Hu Hlive Hval].
  split.
  - intros o p Ht Ho. destruct (Hlive o p Ho) as (b & Hb & _ & Hcap). eauto.
  - intros self p b Hb Hbig.
    destruct (returnToPool_exists self p (proc w) (ex_intro _ b Hb)) as (pr' & Hret).
    exists pr'. split; [exact Hret|].
    apply returnToPool_spec in Hret as (_ & _ & b0 & Hb0 & Hcases).
    rewrite Hb in Hb0. injection Hb0 as <-.
    destruct Hcases as [(_ & Ho' & Hc' & Hp')|[(Hcap & _)|[(Hcap & _)|(Hcap & _)]]];
      try lia.
    split; [exact Ho'|]. split; [exact Hc'|]. split; [exact Hp'|]. split.
    + intros o Ht Ho.
      assert (Ho0 : owns w o p).
      { destruct o as [|t|l]; simpl in *; [rewrite Hp' in Ho|rewrite Hc' in Ho|]; exact Ho. }
      destruct (Hlive o p Ho0) as (b0 & Hb0 & _ & Hcap).
      rewrite Hb in Hb0. injection Hb0 as <-. specialize (Hcap Ht). lia.
    + unfold Pool.size. rewrite Hc', Hp'. lia.
Qed.

(** ** The facade: [StringBuilderPool::clear()] *)

Lemma clear_exists (w : program) (self : nat) :
  invariant w → ∃ n pr', StringBuilderPool.clear self (proc w) = Ok (n, pr').
Proof.
  intros [Hcfg Hst Hnd Hbd Hu Hlive Hval].
  unfold StringBuilderPool.clear, Pool.clear. simpl.
  destruct (delete_each_exists (Pool.m_pool (Pool.pool (proc w)))
              (Pool.resetStats (proc w)) Hnd) as (w1 & Hw1).
  { intros q Hq. destruct (Hlive InPool q Hq) as (b & Hb & _). simpl. eauto. }
  rewrite Hw1. simpl.
  apply delete_each_spec in Hw1 as (Hp & Hc & Ho). simpl in *. rewrite Hc.
  destruct (Pool.t_cachedBuffer (proc w) !! self) as [cached|] eqn:Hcached; [|eauto].
  destruct (Hlive (InCache self) cached Hcached) as (b & Hb & _).
  unfold Pool.delete_object. simpl. rewrite Ho, Hb; [simpl; eauto|].
  intros Hin. pose proof (Hu InPool (InCache self) cached Hin Hcached). discriminate.
Qed.

(** C9. In every reachable program [StringBuilderPool::clear()] completes;
    afterwards the four counters read zero, the shared pool and the slot of
    the calling thread are empty, and every buffer they held -- each one
    allocated until then -- is deallocated.  Nothing else is freed or changed:
    every other buffer and the slots of the other threads are as they were. *)
Theorem clear_resets_statistics (w : program) (self : nat) :
  reachable w →
  ∃ n pr', StringBuilderPool.clear self (proc w) = Ok (n, pr')
           ∧ Pool.threadLocalHits (StringBuilderPool.stats pr') = 0
           ∧ Pool.dynamicStringBufferPoolHits (StringBuilderPool.stats pr') = 0
           ∧ Pool.newAllocations (StringBuilderPool.stats pr') = 0
           ∧ Pool.totalRequests (StringBuilderPool.stats pr') = 0
           ∧ Pool.m_pool (Pool.pool pr') = []
           ∧ Pool.t_cachedBuffer pr' !! self = None
           ∧ (∀ p, p ∈ Pool.m_pool (Pool.pool (proc w))
                   ∨ Pool.t_cachedBuffer (proc w) !! self = Some p →
                   is_Some (Pool.objects (proc w) !! p) ∧ Pool.objects pr' !! p = None)
           ∧ (∀ p, p ∉ Pool.m_pool (Pool.pool (proc w)) →
                   Pool.t_cachedBuffer (proc w) !! self ≠ Some p →
                   Pool.objects pr' !! p = Pool.objects (proc w) !! p)
           ∧ (∀ thread, thread ≠ self →
                Pool.t_cachedBuffer pr' !! thread = Pool.t_cachedBuffer (proc w) !! thread).
Proof.
  intros Hreach. apply reachable_invariant in Hreach as Hinv.
  destruct (clear_exists w self Hinv) as (n & pr' & Hclear).
  exists n, pr'. split; [exact Hclear|].
  unfold StringBuilderPool.clear in Hclear.
  pose proof (clear_gone _ _ _ _ Hclear) as Hgone.
  apply clear_spec in Hclear as (_ & Hst' & Hp' & Hc' & _ & Ho'). simpl in *.
  unfold StringBuilderPool.stats. rewrite Hst', Hp', Hc'. simpl.
  do 6 (split; [reflexivity || apply lookup_delete_eq|]).
  split; [|split].
  - intros p Hp. split; [|apply Hgone; exact Hp].
    destruct Hp as [Hp|Hp].
    + destruct (inv_live w Hinv InPool p Hp) as (b & Hb & _). eauto.
    + destruct (inv_live w Hinv (InCache self) p Hp) as (b & Hb & _). eauto.
  - exact Ho'.
  - intros t Ht. apply lookup_delete_ne. congruence.
Qed.

(** ** Sample programs are reachable *)

Lemma leased_reachable : reachable leased.
Proof.
  apply (reachable_step initial); [apply reachable_initial|].
  apply (step_lease initial 0%nat 0%nat
           (the (Lease.exchanged, proc initial)
              (StringBuilderPool.lease 0%nat (proc initial)))); reflexivity.
Qed.

Lemma oversized_reachable : reachable oversized.
Proof.
  apply (reachable_step leased); [apply leased_reachable|].
  apply (step_buffer leased 0%nat (Lease.construct (Some 1%positive)) 1%positive
           DSB.default (DSB.Reserve 5000)
           (the DSB.default (DSB.exec (DSB.Reserve 5000) DSB.default)));
    vm_compute; reflexivity.
Qed.

Lemma moved_reachable : reachable moved.
Proof.
  eapply reachable_step.
  - apply (reachable_step leased); [apply leased_reachable|].
    apply (step_lease leased 0%nat 1%nat
             (the (Lease.exchanged, proc leased)
                (StringBuilderPool.lease 0%nat (proc leased)))); vm_compute; reflexivity.
  - apply (step_move_construct _ 2%nat 0%nat (Lease.construct (Some 1%positive)));
      vm_compute; reflexivity.
Qed.

Lemma destroy_exists (w : program) (self l : nat) (this : Lease.t) :
  invariant w →
  leases w !! l = Some this →
  ∃ pr', Lease.destroy self this (proc w) = Ok pr'.
Proof.
  intros Hinv Hl. unfold Lease.destroy, Lease.dispose.
  destruct (Lease.m_valid this) eqn:Hv; [|simpl; eauto].
  destruct (inv_valid w Hinv l this Hl Hv) as (B & HB). rewrite HB.
  assert (Hheld : holds w l B) by (exists this; auto).
  destruct (inv_live w Hinv (InLease l) B Hheld) as (b & Hb & _).
  destruct (returnToPool_exists self B (proc w) (ex_intro _ b Hb)) as (pr' & Hret).
  rewrite Hret. simpl. eauto.
Qed.

Lemma lease_by_reachable (self l : nat) (w : program) :
  reachable w → leases w !! l = None → reachable (lease_by self l w).
Proof.
  intros Hreach Hl. pose proof (reachable_invariant w Hreach) as Hinv.
  destruct (get_exists w self Hinv) as (p & pr' & Hget).
  apply (reachable_step w); [exact Hreach|].
  apply (step_lease w self l
           (the (Lease.exchanged, proc w) (StringBuilderPool.lease self (proc w))));
    [exact Hl|].
  unfold StringBuilderPool.lease. rewrite Hget. reflexivity.
Qed.

Lemma destroy_by_reachable (self l : nat) (w : program) :
  reachable w → reachable (destroy_by self l w).
Proof.
  intros Hreach. unfold destroy_by.
  destruct (leases w !! l) as [this|] eqn:Hl; [|exact Hreach].
  destruct (destroy_exists w self l this (reachable_invariant w Hreach) Hl) as (pr' & Hd).
  apply (reachable_step w); [exact Hreach|]. rewrite Hd. simpl.
  apply (step_destroy w self l this pr' Hl Hd).
Qed.

Lemma busy_reachable : reachable busy.
Proof.
  unfold busy. do 4 apply destroy_by_reachable.
  do 3 (apply lease_by_reachable; [|vm_compute; reflexivity]).
  apply moved_reachable.
Qed.

(** ** Leases *)

(** C6. Every way into the Disposed state -- [dispose()], which the
    destructor runs, and being the source of a move construction or of a move
    assignment -- leaves [m_valid] false; on such a lease [create()],
    [buffer()] and [toString()] throw the invalid-operation error instead of
    returning; on a valid lease of a reachable program the three return. *)
Theorem disposed_lease_throws :
  (∀ self this pr r, Lease.dispose self this pr = Ok r → Lease.m_valid r.1 = false)
  ∧ (∀ other, Lease.m_valid (Lease.move_construct other).2 = false)
  ∧ (∀ self other this pr r,
        Lease.move_assign self other this pr = Ok r → Lease.m_valid r.1.2 = false)
  ∧ (∀ this pr,
        Lease.m_valid this = false →
        Lease.create this
        = Throw (runtime_error "Tried to access StringBuilder after it was returned to pool")
        ∧ Lease.buffer this
          = Throw (runtime_error "Tried to access StringBuilder after it was returned to pool")
        ∧ Lease.toString this pr
          = Throw (runtime_error "Tried to access StringBuilder after it was returned to pool"))
  ∧ (∀ w l this,
        reachable w → leases w !! l = Some this → Lease.m_valid this = true →
        ∃ p s, Lease.create this = Ok (StringBuilder.Build p)
               ∧ Lease.buffer this = Ok p
               ∧ Lease.toString this (proc w) = Ok s).
Proof.
  split; [|split; [|split; [|split]]].
  - intros self this pr (this' & pr') H.
    apply dispose_spec in H as [(Hv & -> & _)|(_ & -> & _)]; [exact Hv|reflexivity].
  - intros other. reflexivity.
  - intros self other this pr r H. unfold Lease.move_assign in H.
    bind_inv H. injection H as <-. reflexivity.
  - intros this pr Hv. unfold Lease.create, Lease.buffer, Lease.toString.
    rewrite Hv. simpl. auto.
  - intros w l this Hreach Hl Hv. apply reachable_invariant in Hreach as Hinv.
    destruct (inv_valid w Hinv l this Hl Hv) as (p & Hp).
    assert (Hheld : holds w l p) by (exists this; auto).
    destruct (inv_live w Hinv (InLease l) p Hheld) as (b & Hb & Hwf & _).
    destruct (toString_well_formed b Hwf) as (cur & _ & _ & HtoS).
    exists p, (take (Z.to_nat (DSB.m_size b)) cur).
    unfold Lease.create, Lease.buffer, Lease.toString.
    rewrite Hv, Hp. simpl. rewrite Hb. simpl. auto.
Qed.

Lemma disposed_lease_throws_witness :
  ∃ p s, Lease.create (Lease.construct (Some 1%positive)) = Ok (StringBuilder.Build p)
         ∧ Lease.buffer (Lease.construct (Some 1%positive)) = Ok p
         ∧ Lease.toString (Lease.construct (Some 1%positive)) (proc leased) = Ok s.
Proof.
  apply (proj2 (proj2 (proj2 (proj2 disposed_lease_throws))) leased 0%nat).
  - apply leased_reachable.
  - vm_compute. reflexivity.
  - reflexivity.
Defined.

(** C10 as stated fails when the source is itself Disposed: in [moved] the
    lease object 1 is valid and holds buffer 2, the object 0 is moved-from;
    after [lease1 = std::move( lease0 )] the destination is not valid and
    holds no buffer. *)
Lemma move_assign_from_disposed_source :
  ∃ this other r,
    reachable moved
    ∧ leases moved !! 1%nat = Some this ∧ leases moved !! 0%nat = Some other
    ∧ Lease.m_valid this = true ∧ Lease.m_buffer this = Some 2%positive
    ∧ Lease.move_assign 0%nat other this (proc moved) = Ok r
    ∧ Lease.m_valid r.1.1 = false ∧ Lease.m_buffer r.1.1 = None.
Proof.
  eexists. eexists. eexists. split; [apply moved_reachable|].
  split; [vm_compute; reflexivity|]. split; [vm_compute; reflexivity|].
  split; [reflexivity|]. split; [reflexivity|].
  split; [vm_compute; reflexivity|]. split; reflexivity.
Qed.

(** C10, as the code has it.  A move assignment between two distinct lease
    objects of a reachable program whose destination is valid and holds the
    buffer [B] completes; its effect on the pool is that of one
    [returnToPool( B )]; the destination takes over the state of the source --
    valid with the buffer of the source when the source is valid, disposed
    when the source is disposed -- and the source is left disposed.  [B] is
    then deallocated or in exactly one tier, referenced by no lease, and
    ownership stays exclusive, so nothing is leaked or released twice. *)
Theorem lease_move_assign (w : program) (self dst src : nat) (this other : Lease.t)
    (B : positive) :
  reachable w →
  dst ≠ src →
  leases w !! dst = Some this →
  leases w !! src = Some other →
  Lease.m_valid this = true →
  Lease.m_buffer this = Some B →
  ∃ pr',
    Pool.returnToPool self (Some B) (proc w) = Ok pr'
    ∧ Lease.move_assign self other this (proc w)
      = Ok ({| Lease.m_buffer := Lease.m_buffer other; Lease.m_valid := Lease.m_valid other |},
            {| Lease.m_buffer := None; Lease.m_valid := false |},
            pr')
    ∧ let w' := {| proc := pr';
                   leases := <[dst := {| Lease.m_buffer := Lease.m_buffer other;
                                         Lease.m_valid := Lease.m_valid other |}]>
                               (<[src := {| Lease.m_buffer := None;
                                            Lease.m_valid := false |}]> (leases w)) |} in
      invariant w'
      ∧ (∀ l, ¬ holds w' l B)
      ∧ (Pool.objects pr' !! B = None ∧ (∀ o, ¬ owns w' o B)
         ∨ owns w' (InCache self) B
         ∨ owns w' InPool B)
      ∧ (∀ q, Lease.m_valid other = true → Lease.m_buffer other = Some q →
              holds w' dst q ∧ ¬ holds w' src q).
Proof.
  intros Hreach Hne Hdst Hsrc Hv HB. apply reachable_invariant in Hreach as Hinv.
  assert (Hheld : holds w dst B) by (exists this; auto).
  destruct (inv_live w Hinv (InLease dst) B Hheld) as (b & Hb & Hwf & _).
  destruct (returnToPool_exists self B (proc w) (ex_intro _ b Hb)) as (pr' & Hret).
  exists pr'. split; [exact Hret|].
  assert (Hmove : Lease.move_assign self other this (proc w)
                  = Ok ({| Lease.m_buffer := Lease.m_buffer other;
                           Lease.m_valid := Lease.m_valid other |},
                        {| Lease.m_buffer := None; Lease.m_valid := false |}, pr')).
  { unfold Lease.move_assign, Lease.dispose. rewrite Hv, HB, Hret. reflexivity. }
  split; [exact Hmove|].
  set (w' := {| proc := pr'; leases := _ |}).
  assert (Hinv' : invariant w').
  { apply (step_invariant w w' Hinv).
    apply (step_move_assign w self dst src this other _ Hne Hdst Hsrc Hmove). }
  assert (HnoB : ∀ l, ¬ holds w' l B).
  { intros l (x & Hl & Hxv & Hxb). simpl in Hl.
    destruct (decide (dst = l)) as [<-|Hd].
    - rewrite lookup_insert_eq in Hl. injection Hl as <-. simpl in *.
      assert (Hs : holds w src B) by (exists other; auto).
      pose proof (inv_unique w Hinv (InLease dst) (InLease src) B Hheld Hs). congruence.
    - rewrite lookup_insert_ne in Hl by exact Hd.
      destruct (decide (src = l)) as [<-|Hs].
      + rewrite lookup_insert_eq in Hl. injection Hl as <-. discriminate.
      + rewrite lookup_insert_ne in Hl by exact Hs.
        assert (Hx : holds w l B) by (exists x; auto).
        pose proof (inv_unique w Hinv (InLease dst) (InLease l) B Hheld Hx). congruence. }
  split; [exact Hinv'|]. split; [exact HnoB|]. split.
  - apply returnToPool_spec in Hret as (_ & _ & b0 & Hb0 & Hcases).
    assert (Hfreed : Pool.objects pr' = delete B (Pool.objects (proc w)) →
                     Pool.objects pr' !! B = None ∧ (∀ o, ¬ owns w' o B)).
    { intros Ho'. assert (Hnone : Pool.objects pr' !! B = None)
        by (rewrite Ho'; apply lookup_delete_eq).
      split; [exact Hnone|]. intros o Ho.
      destruct (inv_live w' Hinv' o B Ho) as (x & Hx & _). simpl in Hx. congruence. }
    destruct Hcases as [(_ & Ho' & _)
                       |[(_ & _ & _ & Hc' & _)
                        |[(_ & _ & _ & _ & _ & Hp')|(_ & _ & _ & Ho' & _)]]].
    + left. auto.
    + right. left. simpl. rewrite Hc'. apply lookup_insert_eq.
    + right. right. simpl. rewrite Hp'. apply elem_of_app. right.
      apply list_elem_of_singleton. reflexivity.
    + left. auto.
  - intros q Hov Hoq. split.
    + eexists. simpl. rewrite lookup_insert_eq. split; [reflexivity|]. simpl. auto.
    + intros (x & Hl & Hxv & _). simpl in Hl.
      rewrite lookup_insert_ne in Hl by exact Hne.
      rewrite lookup_insert_eq in Hl. injection Hl as <-. discriminate.
Qed.

Lemma lease_move_assign_witness :
  ∃ pr',
    Pool.returnToPool 0%nat (Some 2%positive) (proc moved) = Ok pr'
    ∧ Lease.move_assign 0%nat (Lease.construct (Some 1%positive))
        (Lease.construct (Some 2%positive)) (proc moved)
      = Ok (Lease.construct (Some 1%positive), Lease.exchanged, pr').
Proof.
  destruct (lease_move_assign moved 0%nat 1%nat 2%nat
              (Lease.construct (Some 2%positive)) (Lease.construct (Some 1%positive))
              2%positive moved_reachable) as (pr' & Hret & Hmove & _).
  - lia.
  - vm_compute. reflexivity.
  - vm_compute. reflexivity.
  - reflexivity.
  - reflexivity.
  - exists pr'. split; [exact Hret|exact Hmove].
Defined.

Lemma oversized_release_witness :
  ∃ pr', Pool.returnToPool 0%nat (Some 1%positive) (proc oversized) = Ok pr'
         ∧ Pool.objects pr' = delete 1%positive (Pool.objects (proc oversized))
         ∧ Pool.size 0%nat pr' <= Pool.size 0%nat (proc oversized).
Proof.
  destruct (proj2 (oversized_release oversized oversized_reachable) 0%nat 1%positive
              (the DSB.default (DSB.exec (DSB.Reserve 5000) DSB.default)))
    as (pr' & Hret & Ho & _ & _ & _ & Hsize).
  - vm_compute. reflexivity.
  - vm_compute. reflexivity.
  - exists pr'. auto.
Defined.

Lemma clear_resets_statistics_witness :
  ∃ n pr', StringBuilderPool.clear 0%nat (proc busy) = Ok (n, pr')
           ∧ n = 3
           ∧ Pool.totalRequests (StringBuilderPool.stats (proc busy)) = 5
           ∧ Pool.totalRequests (StringBuilderPool.stats pr') = 0
           ∧ Pool.m_pool (Pool.pool pr') = []
           ∧ (is_Some (Pool.objects (proc busy) !! 3%positive)
              ∧ Pool.objects pr' !! 3%positive = None)
           ∧ (is_Some (Pool.objects (proc busy) !! 1%positive)
              ∧ Pool.objects pr' !! 1%positive = None).
Proof.
  destruct (clear_resets_statistics busy 0%nat busy_reachable)
    as (n & pr' & H1 & _ & _ & _ & H2 & H3 & _ & H4 & _).
  exists n, pr'. split; [exact H1|].
  split; [vm_compute in H1; injection H1 as <- _; reflexivity|].
  split; [vm_compute; reflexivity|]. split; [exact H2|]. split; [exact H3|].
  split; apply H4.
  - left. vm_compute. apply list_elem_of_further, list_elem_of_here.
  - right. vm_compute. reflexivity.
Defined.

(** * Further properties of the buffer *)

Lemma toString_of (b : DSB.t) (cur : list byte) :
  DSB.currentBuffer b = Some cur →
  0 <= DSB.m_size b <= len cur →
  DSB.toString b = Ok (take (Z.to_nat (DSB.m_size b)) cur).
Proof.
  intros Hcur Hs. unfold DSB.toString. rewrite Hcur. simpl.
  rewrite (proj2 (Z.leb_le 0 (DSB.m_size b)) ltac:(lia)).
  rewrite (proj2 (Z.leb_le (DSB.m_size b) (len cur)) ltac:(lia)). reflexivity.
Qed.

(** [reserve( n )] completes, keeps the buffer well formed, provides at least
    [n] bytes, never lowers the capacity, keeps size and contents, and does
    nothing at all when the capacity already suffices. *)
Theorem reserve_grows_only (b : DSB.t) (n : Z) :
  DSB.well_formed b = true →
  n < 2 ^ 50 →
  ∃ b', DSB.reserve n b = Ok b'
        ∧ DSB.well_formed b' = true
        ∧ Z.max n (DSB.capacity b) <= DSB.capacity b'
        ∧ DSB.size b' = DSB.size b
        ∧ DSB.toString b' = DSB.toString b
        ∧ (n <= DSB.capacity b → b' = b).
Proof.
  intros Hwf Hn. unfold DSB.reserve, DSB.capacity, DSB.size.
  destruct (DSB.m_capacity b <? n) eqn:Hlt.
  - apply Z.ltb_lt in Hlt.
    destruct (ensureCapacity_exists b n Hwf Hn) as (b' & Hens).
    exists b'. split; [exact Hens|].
    apply ensureCapacity_Ok_inv in Hens as (Hwf' & Hcap & Hmono & Hs & _ & HtoS);
      [|exact Hwf|lia].
    repeat split; auto; lia.
  - apply Z.ltb_ge in Hlt. exists b. repeat split; auto; lia.
Qed.

Lemma reserve_grows_only_witness :
  ∃ b', DSB.reserve 1000 DSB.default = Ok b'
        ∧ DSB.well_formed b' = true
        ∧ Z.max 1000 (DSB.capacity DSB.default) <= DSB.capacity b'
        ∧ DSB.size b' = DSB.size DSB.default
        ∧ DSB.toString b' = DSB.toString DSB.default
        ∧ (1000 <= DSB.capacity DSB.default → b' = DSB.default).
Proof. apply (reserve_grows_only DSB.default 1000); [reflexivity|vm_compute; reflexivity]. Defined.

(** [resize( n )] completes and sets the size to [n]; shrinking keeps the
    first [n] bytes, growing keeps all the old bytes in front (what follows
    them is whatever the storage holds); the capacity is never lowered. *)
Theorem resize_keeps_prefix (b : DSB.t) (n : Z) (s : list byte) :
  DSB.well_formed b = true →
  DSB.toString b = Ok s →
  0 <= n < 2 ^ 50 →
  ∃ b' s', DSB.resize n b = Ok b'
           ∧ DSB.well_formed b' = true
           ∧ DSB.size b' = n
           ∧ DSB.capacity b <= DSB.capacity b'
           ∧ DSB.toString b' = Ok s'
           ∧ len s' = n
           ∧ (n <= DSB.size b → s' = take (Z.to_nat n) s)
           ∧ (DSB.size b <= n → take (Z.to_nat (DSB.size b)) s' = s).
Proof.
  intros Hwf HtoS Hn. unfold DSB.resize, DSB.size, DSB.capacity.
  destruct (ensureCapacity_exists b n Hwf (proj2 Hn)) as (b1 & Hens).
  rewrite Hens, bind_Ok.
  apply ensureCapacity_Ok_inv in Hens as (Hwf1 & Hcap & Hmono & Hs & _ & HtoS1);
    [|exact Hwf|lia].
  destruct (toString_well_formed b1 Hwf1) as (cur1 & Hcur1 & Hl1 & HtoS1').
  rewrite HtoS1, HtoS in HtoS1'. injection HtoS1' as ->. rewrite Hs.
  pose proof (proj1 (well_formed_spec b) Hwf) as (_ & Hsize & _).
  exists (DSB.set_size n b1), (take (Z.to_nat n) cur1).
  split; [reflexivity|]. split; [apply well_formed_set_size; [exact Hwf1|lia]|].
  split; [reflexivity|]. split; [simpl; lia|]. split.
  { apply (toString_of (DSB.set_size n b1) cur1); simpl; [|lia].
    unfold DSB.currentBuffer in *. simpl. exact Hcur1. }
  split.
  { unfold len in *. rewrite length_take. lia. }
  split; intros Hcmp; rewrite take_take; f_equal; lia.
Qed.

Lemma resize_keeps_prefix_witness :
  ∃ b' s', DSB.resize 300 DSB.default = Ok b'
           ∧ DSB.well_formed b' = true
           ∧ DSB.size b' = 300
           ∧ DSB.capacity DSB.default <= DSB.capacity b'
           ∧ DSB.toString b' = Ok s'
           ∧ len s' = 300
           ∧ (300 <= DSB.size DSB.default → s' = take (Z.to_nat 300) [])
           ∧ (DSB.size DSB.default <= 300 → take (Z.to_nat (DSB.size DSB.default)) s' = []).
Proof.
  apply (resize_keeps_prefix DSB.default 300 []);
    [reflexivity|reflexivity|vm_compute; split; [discriminate|reflexivity]].
Defined.

Lemma memcpy_front (dst src : list byte) (n : Z) :
  0 <= n <= len src → n <= len dst →
  ∃ mem, memcpy dst 0 src n = Ok mem
         ∧ len mem = len dst
         ∧ take (Z.to_nat n) mem = take (Z.to_nat n) src.
Proof.
  intros Hn Hd.
  destruct (memcpy dst 0 src n) as [mem| |] eqn:H.
  - exists mem. split; [reflexivity|].
    apply memcpy_layout in H as (Hl & Ht). rewrite Z.add_0_l in Ht. auto.
  - rewrite memcpy_Ok in H by lia. discriminate.
  - rewrite memcpy_Ok in H by lia. discriminate.
Qed.

(** What it means for [b'] to be a copy of [other]: same bytes, same size,
    same storage tier, and room for at least the capacity of [other]. *)
Lemma copy_construct_Ok (other : DSB.t) :
  DSB.well_formed other = true →
  ∃ b, DSB.copy_construct other = Ok b
       ∧ DSB.well_formed b = true
       ∧ DSB.toString b = DSB.toString other
       ∧ DSB.m_size b = DSB.m_size other
       ∧ DSB.m_capacity b = DSB.m_capacity other
       ∧ DSB.m_onHeap b = DSB.m_onHeap other.
Proof.
  intros Hwf.
  destruct (toString_well_formed other Hwf) as (cur & Hcur & Hlcur & HtoS).
  apply well_formed_spec in Hwf as (Hstack & Hsize & Hcap & Hstore).
  unfold DSB.copy_construct. unfold DSB.currentBuffer in Hcur.
  destruct (DSB.m_onHeap other) eqn:Hheap.
  - destruct Hstore as (heap & Hh & Hlh & H256). rewrite Hh in *. injection Hcur as <-.
    simpl deref. rewrite bind_Ok.
    destruct (memcpy_front (make_unique (DSB.m_capacity other)) heap (DSB.m_size other))
      as (mem & Hcpy & Hl & Ht); [lia|rewrite len_make_unique; lia|].
    rewrite len_make_unique in Hl by lia.
    rewrite Hcpy, bind_Ok. eexists. split; [reflexivity|].
    split; [apply well_formed_spec; simpl; repeat split; try lia;
            exists mem; repeat split; lia|].
    split; [|auto]. rewrite HtoS.
    rewrite (toString_of _ mem); simpl; [rewrite Ht; reflexivity|reflexivity|lia].
  - injection Hcur as <-.
    destruct (memcpy_front (make_unique DSB.STACK_BUFFER_SIZE) (DSB.m_stackBuffer other)
                (DSB.m_size other)) as (mem & Hcpy & Hl & Ht);
      [lia|rewrite len_make_unique; unfold DSB.STACK_BUFFER_SIZE in *; lia|].
    rewrite len_make_unique in Hl by (unfold DSB.STACK_BUFFER_SIZE; lia).
    rewrite Hcpy, bind_Ok. eexists. split; [reflexivity|].
    split; [apply well_formed_spec; simpl; repeat split; lia|].
    split; [|auto]. rewrite HtoS.
    rewrite (toString_of _ mem); simpl; [rewrite Ht; reflexivity|reflexivity|lia].
Qed.

Lemma copy_assign_Ok (other b : DSB.t) :
  DSB.well_formed b = true →
  DSB.well_formed other = true →
  ∃ b', DSB.copy_assign other b = Ok b'
        ∧ DSB.toString b' = DSB.toString other
        ∧ DSB.m_size b' = DSB.m_size other
        ∧ DSB.m_capacity other <= DSB.m_capacity b'.
Proof.
  intros Hwfb Hwf.
  destruct (toString_well_formed other Hwf) as (cur & Hcur & Hlcur & HtoS).
  apply well_formed_spec in Hwf as (Hstack & Hsize & Hcap & Hstore).
  apply well_formed_spec in Hwfb as (Hstackb & Hsizeb & Hcapb & Hstoreb).
  unfold DSB.copy_assign. unfold DSB.currentBuffer in Hcur.
  destruct (DSB.m_onHeap other) eqn:Hheap.
  - destruct Hstore as (heap & Hh & Hlh & H256). rewrite Hh in *. injection Hcur as <-.
    destruct (negb (DSB.m_onHeap b) || (DSB.m_capacity b <? DSB.m_capacity other)) eqn:Hg.
    + simpl deref. rewrite !bind_Ok.
      destruct (memcpy_front (make_unique (DSB.m_capacity other)) heap (DSB.m_size other))
        as (mem & Hcpy & Hl & Ht); [lia|rewrite len_make_unique; lia|].
      rewrite len_make_unique in Hl by lia.
      rewrite Hcpy, bind_Ok. eexists. split; [reflexivity|]. simpl.
      split; [|split; [reflexivity|lia]]. rewrite HtoS.
      rewrite (toString_of _ mem); simpl; [rewrite Ht; reflexivity|reflexivity|lia].
    + apply orb_false_iff in Hg as (Hg1 & Hg2). apply negb_false_iff in Hg1.
      apply Z.ltb_ge in Hg2. rewrite Hg1 in Hstoreb.
      destruct Hstoreb as (heapb & Hhb & Hlb & _). rewrite Hhb.
      simpl deref. rewrite !bind_Ok.
      destruct (memcpy_front heapb heap (DSB.m_size other))
        as (mem & Hcpy & Hl & Ht); [lia|lia|].
      rewrite Hcpy, bind_Ok. eexists. split; [reflexivity|]. simpl.
      split; [|split; [reflexivity|lia]]. rewrite HtoS.
      rewrite (toString_of _ mem); simpl;
        [rewrite Ht; reflexivity|rewrite Hg1; reflexivity|lia].
  - injection Hcur as <-.
    destruct (memcpy_front (DSB.m_stackBuffer b) (DSB.m_stackBuffer other) (DSB.m_size other))
      as (mem & Hcpy & Hl & Ht); [lia|lia|].
    rewrite Hcpy, bind_Ok. eexists. split; [reflexivity|]. simpl.
    split; [|split; [reflexivity|]].
    + rewrite HtoS.
      rewrite (toString_of _ mem); simpl;
        [rewrite Ht; reflexivity|destruct (DSB.m_onHeap b); reflexivity|lia].
    + destruct (DSB.m_onHeap b); lia.
Qed.

(** Copy construction and copy assignment complete and give a well-formed
    buffer with the bytes, the size and the storage tier of the source; the
    copy constructor also takes its capacity, the assignment keeps a heap
    allocation of its own that is large enough. *)
Theorem copies_duplicate_contents (other b : DSB.t) :
  DSB.well_formed other = true →
  DSB.well_formed b = true →
  (∃ c, DSB.copy_construct other = Ok c
        ∧ DSB.well_formed c = true
        ∧ DSB.toString c = DSB.toString other
        ∧ DSB.size c = DSB.size other
        ∧ DSB.capacity c = DSB.capacity other
        ∧ DSB.m_onHeap c = DSB.m_onHeap other)
  ∧ (∃ b', DSB.copy_assign other b = Ok b'
           ∧ DSB.well_formed b' = true
           ∧ DSB.toString b' = DSB.toString other
           ∧ DSB.size b' = DSB.size other
           ∧ DSB.capacity other <= DSB.capacity b'
           ∧ DSB.m_onHeap b' = DSB.m_onHeap other
           ∧ (DSB.m_onHeap b = true → DSB.m_onHeap other = true →
              DSB.capacity other <= DSB.capacity b → DSB.capacity b' = DSB.capacity b)).
Proof.
  intros Hwfo Hwfb. split; [apply copy_construct_Ok; exact Hwfo|].
  destruct (copy_assign_Ok other b Hwfb Hwfo) as (b' & Hc & HtoS & Hs & Hcap).
  destruct (copy_assign_well_formed other b b' Hwfb Hwfo Hc) as (Hwf' & Hheap).
  exists b'. repeat split; auto.
  intros Hb Ho Hle. unfold DSB.copy_assign in Hc. rewrite Ho, Hb in Hc. simpl in Hc.
  unfold DSB.capacity in *.
  rewrite (proj2 (Z.ltb_ge (DSB.m_capacity b) (DSB.m_capacity other)) Hle) in Hc.
  bind_inv Hc. bind_inv Hc. bind_inv Hc. injection Hc as <-. reflexivity.
Qed.

Lemma copies_duplicate_contents_witness :
  ∃ b', DSB.copy_assign DSB.default (DSB.with_capacity 300) = Ok b'
        ∧ DSB.toString b' = DSB.toString DSB.default
        ∧ DSB.m_onHeap b' = false.
Proof.
  destruct (proj2 (copies_duplicate_contents DSB.default (DSB.with_capacity 300)
                     eq_refl ltac:(vm_compute; reflexivity)))
    as (b' & Hc & _ & HtoS & _ & _ & Hheap & _).
  exists b'. auto.
Defined.

Lemma move_assign_Ok (other b : DSB.t) :
  DSB.well_formed b = true →
  DSB.well_formed other = true →
  ∃ r, DSB.move_assign other b = Ok r ∧ DSB.toString r.1 = DSB.toString other.
Proof.
  intros Hwfb Hwf.
  destruct (toString_well_formed other Hwf) as (cur & Hcur & Hlcur & HtoS).
  apply well_formed_spec in Hwf as (Hstack & Hsize & Hcap & Hstore).
  apply well_formed_spec in Hwfb as (Hstackb & _).
  unfold DSB.move_assign. unfold DSB.currentBuffer in Hcur.
  destruct (DSB.m_onHeap other) eqn:Hheap; simpl negb; cbv iota.
  - rewrite bind_Ok. eexists. split; [reflexivity|]. simpl. rewrite HtoS.
    rewrite (toString_of _ cur); simpl; [reflexivity|exact Hcur|lia].
  - injection Hcur as <-.
    destruct (memcpy_front (DSB.m_stackBuffer b) (DSB.m_stackBuffer other) (DSB.m_size other))
      as (mem & Hcpy & Hl & Ht); [lia|lia|].
    rewrite Hcpy, bind_Ok. eexists. split; [reflexivity|]. simpl. rewrite HtoS.
    rewrite (toString_of _ mem); simpl; [rewrite Ht; reflexivity|reflexivity|lia].
Qed.

Lemma move_construct_Ok (other : DSB.t) :
  DSB.well_formed other = true →
  ∃ r, DSB.move_construct other = Ok r
       ∧ DSB.well_formed r.1 = true
       ∧ DSB.toString r.1 = DSB.toString other.
Proof.
  intros Hwf.
  destruct (toString_well_formed other Hwf) as (cur & Hcur & Hlcur & HtoS).
  apply well_formed_spec in Hwf as (Hstack & Hsize & Hcap & Hstore).
  unfold DSB.move_construct. unfold DSB.currentBuffer in Hcur.
  assert (H256 : len (make_unique DSB.STACK_BUFFER_SIZE) = DSB.STACK_BUFFER_SIZE)
    by reflexivity.
  destruct (DSB.m_onHeap other) eqn:Hheap; simpl negb; cbv iota.
  - rewrite bind_Ok. eexists. split; [reflexivity|]. simpl.
    destruct Hstore as (heap & Hh & Hlh & Hge).
    split; [apply well_formed_spec; simpl; repeat split; try lia;
            exists heap; repeat split; auto|].
    rewrite HtoS. rewrite (toString_of _ cur); simpl; [reflexivity|exact Hcur|lia].
  - injection Hcur as <-.
    destruct (memcpy_front (make_unique DSB.STACK_BUFFER_SIZE) (DSB.m_stackBuffer other)
                (DSB.m_size other)) as (mem & Hcpy & Hl & Ht); [lia|lia|].
    rewrite Hcpy, bind_Ok. eexists. split; [reflexivity|]. simpl.
    split; [apply well_formed_spec; simpl; repeat split; lia|].
    rewrite HtoS. rewrite (toString_of _ mem); simpl; [rewrite Ht; reflexivity|reflexivity|lia].
Qed.

(** Move construction and move assignment complete; the destination is well
    formed and has the bytes, size, capacity and storage tier of the source;
    the source is left well formed, empty, inline, with the inline capacity
    and no heap allocation. *)
Theorem moves_transfer_contents (other b : DSB.t) :
  DSB.well_formed other = true →
  DSB.well_formed b = true →
  (∃ r, DSB.move_construct other = Ok r
        ∧ DSB.well_formed r.1 = true
        ∧ DSB.toString r.1 = DSB.toString other
        ∧ DSB.size r.1 = DSB.size other
        ∧ DSB.capacity r.1 = DSB.capacity other
        ∧ DSB.m_onHeap r.1 = DSB.m_onHeap other
        ∧ r.2 = DSB.moved_from other)
  ∧ (∃ r, DSB.move_assign other b = Ok r
          ∧ DSB.well_formed r.1 = true
          ∧ DSB.toString r.1 = DSB.toString other
          ∧ DSB.size r.1 = DSB.size other
          ∧ DSB.capacity r.1 = DSB.capacity other
          ∧ DSB.m_onHeap r.1 = DSB.m_onHeap other
          ∧ r.2 = DSB.moved_from other)
  ∧ (DSB.well_formed (DSB.moved_from other) = true
     ∧ DSB.toString (DSB.moved_from other) = Ok []
     ∧ DSB.size (DSB.moved_from other) = 0
     ∧ DSB.capacity (DSB.moved_from other) = DSB.STACK_BUFFER_SIZE
     ∧ DSB.m_onHeap (DSB.moved_from other) = false
     ∧ DSB.m_heapBuffer (DSB.moved_from other) = None).
Proof.
  intros Hwfo Hwfb. split; [|split].
  - destruct (move_construct_Ok other Hwfo) as (r & Hm & Hwf & HtoS).
    exists r. split; [exact Hm|]. split; [exact Hwf|]. split; [exact HtoS|].
    unfold DSB.move_construct in Hm. bind_inv Hm. injection Hm as <-. simpl. auto.
  - destruct (move_assign_Ok other b Hwfb Hwfo) as (r & Hm & HtoS).
    destruct (move_assign_well_formed other b r Hwfb Hwfo Hm) as (Hwf & Hheap & Hsrc).
    exists r. split; [exact Hm|]. split; [exact Hwf|]. split; [exact HtoS|].
    unfold DSB.move_assign in Hm. bind_inv Hm. injection Hm as <-. simpl. auto.
  - split; [apply well_formed_moved_from; exact Hwfo|].
    unfold DSB.toString, DSB.currentBuffer. simpl.
    pose proof (len_nonneg (DSB.m_stackBuffer other)) as Hnn.
    rewrite (proj2 (Z.leb_le 0 (len (DSB.m_stackBuffer other))) Hnn). simpl. auto.
Qed.

Lemma moves_transfer_contents_witness :
  ∃ r, DSB.move_assign (DSB.with_capacity 300) DSB.default = Ok r
       ∧ DSB.capacity r.1 = 300
       ∧ DSB.m_onHeap r.1 = true
       ∧ r.2 = DSB.moved_from (DSB.with_capacity 300).
Proof.
  destruct (proj1 (proj2 (moves_transfer_contents (DSB.with_capacity 300) DSB.default
                            ltac:(vm_compute; reflexivity) eq_refl)))
    as (r & Hm & _ & _ & _ & Hcap & Hheap & Hsrc).
  exists r. auto.
Defined.

(** ** Element access *)

Lemma memcpy_store (cur : list byte) (i : Z) (c : byte) :
  0 <= i < len cur → memcpy cur i [c] 1 = Ok (<[Z.to_nat i := c]> cur).
Proof.
  intros Hi. unfold len in Hi. rewrite memcpy_Ok; [|lia|lia|unfold len; simpl; lia|unfold len; lia].
  f_equal. rewrite insert_take_drop by lia. simpl.
  replace (Z.to_nat (i + 1)) with (S (Z.to_nat i)) by lia. reflexivity.
Qed.

(** Writing through [operator[]] below [size()] completes and changes exactly
    that byte: [toString()] is the old string with position [i] replaced, size
    and capacity are the same, reading the position gives the byte written
    and reading any other position gives what it held before. *)
Theorem store_then_load (b : DSB.t) (i : Z) (c : byte) (s : list byte) :
  DSB.well_formed b = true →
  DSB.toString b = Ok s →
  0 <= i < DSB.size b →
  ∃ b', DSB.store i c b = Ok b'
        ∧ DSB.well_formed b' = true
        ∧ DSB.toString b' = Ok (<[Z.to_nat i := c]> s)
        ∧ DSB.size b' = DSB.size b
        ∧ DSB.capacity b' = DSB.capacity b
        ∧ DSB.load i b' = Ok c
        ∧ (∀ j, j ≠ i → DSB.load j b' = DSB.load j b).
Proof.
  intros Hwf HtoS Hi. unfold DSB.size, DSB.capacity in *.
  destruct (toString_well_formed b Hwf) as (cur & Hcur & Hlcur & HtoS').
  rewrite HtoS in HtoS'. injection HtoS' as ->.
  pose proof (proj1 (well_formed_spec b) Hwf) as (_ & Hsize & _).
  assert (Hcur' : DSB.currentBuffer (DSB.set_currentBuffer (<[Z.to_nat i := c]> cur) b)
                  = Some (<[Z.to_nat i := c]> cur)).
  { unfold DSB.currentBuffer, DSB.set_currentBuffer.
    destruct (DSB.m_onHeap b) eqn:Hh; reflexivity. }
  assert (Hsame : DSB.m_size (DSB.set_currentBuffer (<[Z.to_nat i := c]> cur) b)
                  = DSB.m_size b
                  ∧ DSB.m_capacity (DSB.set_currentBuffer (<[Z.to_nat i := c]> cur) b)
                    = DSB.m_capacity b).
  { unfold DSB.set_currentBuffer. destruct (DSB.m_onHeap b); simpl; auto. }
  destruct Hsame as (Hs' & Hc').
  assert (Hli : len (<[Z.to_nat i := c]> cur) = len cur)
    by (unfold len; rewrite length_insert; reflexivity).
  exists (DSB.set_currentBuffer (<[Z.to_nat i := c]> cur) b).
  split.
  { unfold DSB.store.
    rewrite (proj2 (Z.leb_le 0 i) ltac:(lia)), (proj2 (Z.ltb_lt i (DSB.m_size b)) ltac:(lia)).
    simpl. rewrite Hcur. simpl. rewrite memcpy_store by lia. reflexivity. }
  split; [apply (well_formed_set_currentBuffer b cur); auto|].
  split.
  { rewrite (toString_of _ _ Hcur'); [|lia]. rewrite Hs'. f_equal.
    apply take_insert_lt. lia. }
  split; [exact Hs'|]. split; [exact Hc'|]. split.
  - unfold DSB.load. rewrite Hs', Hcur'.
    rewrite (proj2 (Z.leb_le 0 i) ltac:(lia)), (proj2 (Z.ltb_lt i (DSB.m_size b)) ltac:(lia)).
    simpl. rewrite list_lookup_insert_eq; [reflexivity|]. unfold len in Hlcur. lia.
  - intros j Hj. unfold DSB.load. rewrite Hs', Hcur', Hcur.
    destruct ((0 <=? j) && (j <? DSB.m_size b)) eqn:Hb; [|reflexivity].
    apply andb_true_iff in Hb as (Hb1 & Hb2). apply Z.leb_le in Hb1.
    simpl. rewrite list_lookup_insert_ne; [reflexivity|lia].
Qed.

Lemma store_then_load_witness :
  ∃ b', DSB.store 1 "a"%byte (DSB.set_size 3 DSB.default) = Ok b'
        ∧ DSB.toString b' = Ok [x00; "a"%byte; x00]
        ∧ DSB.load 1 b' = Ok "a"%byte.
Proof.
  destruct (store_then_load (DSB.set_size 3 DSB.default) 1 "a"%byte [x00; x00; x00]
              eq_refl eq_refl ltac:(vm_compute; split; [discriminate|reflexivity]))
    as (b' & Hst & _ & HtoS & _ & _ & Hload & _).
  exists b'. auto.
Defined.

(** ** The representation invariant *)

Lemma run_well_formed (calls : list DSB.call) (b b' : DSB.t) :
  DSB.well_formed b = true →
  forallb DSB.admissible calls = true →
  DSB.run DSB.exec calls b = Ok b' →
  DSB.well_formed b' = true.
Proof.
  revert b. induction calls as [|c calls IH]; intros b Hwf Hall H; simpl in *.
  - injection H as <-. exact Hwf.
  - apply andb_true_iff in Hall as (Hc & Hall). bind_inv H.
    apply (IH a); [|exact Hall|exact H]. apply (exec_well_formed c b a Hwf Hc E).
Qed.

(** Both constructors give a well-formed buffer, and whatever sequence of
    calls a client makes on a well-formed buffer -- appends, [clear],
    [reserve], [resize], element stores, copy and move assignments from
    well-formed buffers, being moved from -- if the calls complete, then
    [0 <= size() <= capacity()], the capacity is at least the inline size and
    fits [size_t], and the active storage has exactly [capacity()] bytes. *)
Theorem representation_invariant (calls : list DSB.call) (b b' : DSB.t) :
  DSB.well_formed b = true →
  forallb DSB.admissible calls = true →
  DSB.run DSB.exec calls b = Ok b' →
  DSB.well_formed DSB.default = true
  ∧ (∀ n, 0 <= n < 2 ^ 64 → DSB.well_formed (DSB.with_capacity n) = true)
  ∧ 0 <= DSB.size b' <= DSB.capacity b'
  ∧ DSB.STACK_BUFFER_SIZE <= DSB.capacity b' < 2 ^ 64
  ∧ ∃ cur, DSB.currentBuffer b' = Some cur ∧ len cur = DSB.capacity b'.
Proof.
  intros Hwf Hall Hrun. split; [reflexivity|]. split.
  { intros n Hn. unfold DSB.with_capacity.
    destruct (DSB.STACK_BUFFER_SIZE <? n) eqn:Hbig; [|reflexivity].
    apply Z.ltb_lt in Hbig. apply well_formed_spec. simpl.
    repeat split; try lia. exists (make_unique n).
    split; [reflexivity|]. split; [apply len_make_unique; lia|lia]. }
  pose proof (run_well_formed calls b b' Hwf Hall Hrun) as Hwf'.
  destruct (toString_well_formed b' Hwf') as (cur & Hcur & Hl & _).
  apply well_formed_spec in Hwf' as (_ & Hsize & Hcap & Hstore).
  unfold DSB.size, DSB.capacity. split; [exact Hsize|]. split; [|eauto].
  split; [|exact Hcap]. destruct (DSB.m_onHeap b'); [|lia].
  destruct Hstore as (heap & _ & _ & Hge). exact Hge.
Qed.

Lemma representation_invariant_witness :
  ∃ b', DSB.run DSB.exec
          [DSB.Append (DSB.AppendStringView long_text); DSB.Resize 10;
           DSB.CopyAssign DSB.default; DSB.Reserve 1000; DSB.MovedFrom] DSB.default = Ok b'
        ∧ 0 <= DSB.size b' <= DSB.capacity b'
        ∧ DSB.STACK_BUFFER_SIZE <= DSB.capacity b' < 2 ^ 64.
Proof.
  set (calls := [DSB.Append (DSB.AppendStringView long_text); DSB.Resize 10;
                 DSB.CopyAssign DSB.default; DSB.Reserve 1000; DSB.MovedFrom]).
  destruct (DSB.run DSB.exec calls DSB.default) as [b'| |] eqn:Hrun;
    [|vm_compute in Hrun; discriminate..].
  destruct (representation_invariant calls DSB.default b' eq_refl eq_refl Hrun)
    as (_ & _ & H1 & H2 & _).
  exists b'. auto.
Defined.

(** ** Enumerating a builder *)

Lemma collect_S (fuel : nat) (e : StringBuilder.Enumerator.t) (mem : list byte) :
  StringBuilder.Enumerator.collect (S fuel) e mem
  = let r := StringBuilder.Enumerator.next e in
    if r.1 then
      match StringBuilder.Enumerator.current r.2 mem with
      | Ok c =>
          match StringBuilder.Enumerator.collect fuel r.2 mem with
          | Some (Ok rest) => Some (Ok (c :: rest.1, rest.2))
          | other => other
          end
      | Throw x => Some (Throw x)
      | Undefined => Some Undefined
      end
    else Some (Ok ([], r.2)).
Proof. reflexivity. Qed.

Lemma collect_from (s cur : list byte) (k i : nat) :
  (i + k = length s)%nat →
  (∀ j, (j < length s)%nat → cur !! j = s !! j) →
  StringBuilder.Enumerator.collect (S k)
    {| StringBuilder.Enumerator.m_data := 0;
       StringBuilder.Enumerator.m_end := len s;
       StringBuilder.Enumerator.m_current := Z.of_nat i - 1 |} cur
  = Some (Ok (drop i s,
              {| StringBuilder.Enumerator.m_data := 0;
                 StringBuilder.Enumerator.m_end := len s;
                 StringBuilder.Enumerator.m_current := len s - 1 |})).
Proof.
  revert i. induction k as [|k IH]; intros i Hik Hcur.
  - simpl. unfold StringBuilder.Enumerator.next. simpl.
    rewrite (proj2 (Z.ltb_ge (Z.of_nat i - 1 + 1) (len s)) ltac:(unfold len; lia)). simpl.
    rewrite drop_ge by lia. do 3 f_equal. unfold len. f_equal. lia.
  - assert (Hi : (i < length s)%nat) by lia.
    destruct (lookup_lt_is_Some_2 s i Hi) as (c & Hc).
    rewrite collect_S.
    unfold StringBuilder.Enumerator.next. cbv zeta. simpl StringBuilder.Enumerator.m_current.
    simpl StringBuilder.Enumerator.m_end. simpl StringBuilder.Enumerator.m_data.
    rewrite (proj2 (Z.ltb_lt (Z.of_nat i - 1 + 1) (len s)) ltac:(unfold len; lia)).
    cbv iota beta. simpl fst. simpl snd.
    unfold StringBuilder.Enumerator.current. simpl StringBuilder.Enumerator.m_current.
    rewrite (proj2 (Z.leb_le 0 (Z.of_nat i - 1 + 1)) ltac:(lia)).
    replace (Z.to_nat (Z.of_nat i - 1 + 1)) with i by lia.
    rewrite (Hcur i Hi), Hc. simpl deref.
    replace (Z.of_nat i - 1 + 1) with (Z.of_nat (S i) - 1) by lia.
    rewrite (IH (S i)) by (auto; lia). simpl.
    rewrite (drop_S s c i Hc). reflexivity.
Qed.

(** The [while ( e.next() ) ... e.current()] loop over the enumerator of a
    builder visits exactly the bytes of [toString()], in order, using
    [size() + 1] calls of [next]; after it [next] keeps returning false; and
    after [reset()] the loop visits the same bytes again. *)
Theorem enumerator_visits_contents (b : DSB.t) (s cur : list byte) :
  DSB.well_formed b = true →
  DSB.toString b = Ok s →
  DSB.currentBuffer b = Some cur →
  ∃ e', StringBuilder.Enumerator.collect (S (length s))
          (StringBuilder.Enumerator.construct b) cur = Some (Ok (s, e'))
        ∧ StringBuilder.Enumerator.next e' = (false, e')
        ∧ StringBuilder.Enumerator.collect (S (length s))
            (StringBuilder.Enumerator.reset e') cur = Some (Ok (s, e')).
Proof.
  intros Hwf HtoS Hcur.
  destruct (toString_well_formed b Hwf) as (cur' & Hcur' & Hlcur & HtoS').
  rewrite Hcur in Hcur'. injection Hcur' as <-.
  rewrite HtoS in HtoS'. injection HtoS' as Hs.
  pose proof (proj1 (well_formed_spec b) Hwf) as (_ & Hsize & _).
  assert (Hlen : len s = DSB.m_size b).
  { rewrite Hs. unfold len in *. rewrite length_take. lia. }
  assert (Hlook : ∀ j, (j < length s)%nat → cur !! j = s !! j).
  { intros j Hj. rewrite Hs. rewrite lookup_take_lt; [reflexivity|].
    unfold len in Hlen. lia. }
  pose proof (collect_from s cur (length s) 0 ltac:(lia) Hlook) as Hrun.
  rewrite drop_0 in Hrun.
  unfold StringBuilder.Enumerator.construct, StringBuilder.Enumerator.reset,
    DSB.begin_offset, DSB.end_offset. rewrite <- Hlen.
  eexists. split; [exact Hrun|]. split.
  - unfold StringBuilder.Enumerator.next. simpl.
    rewrite (proj2 (Z.ltb_ge (len s - 1 + 1) (len s)) ltac:(lia)). reflexivity.
  - simpl. exact Hrun.
Qed.

Lemma enumerator_visits_contents_witness :
  ∃ e', StringBuilder.Enumerator.collect 4
          (StringBuilder.Enumerator.construct (DSB.set_size 3 DSB.default))
          (make_unique 256) = Some (Ok ([x00; x00; x00], e'))
        ∧ StringBuilder.Enumerator.next e' = (false, e').
Proof.
  destruct (enumerator_visits_contents (DSB.set_size 3 DSB.default) [x00; x00; x00]
              (make_unique 256) eq_refl eq_refl eq_refl) as (e' & Hrun & Hnext & _).
  exists e'. auto.
Defined.

(** * Further properties of the pool and of leases *)

(** In every reachable program ownership of a buffer is exclusive: two lease
    objects that are valid never hold the same buffer, a buffer held by a valid
    lease is neither in the shared pool nor in the slot of any thread, the
    slots of two threads never hold the same buffer, a buffer in a slot is not
    in the shared pool, and the shared pool holds no buffer twice. *)
Theorem exclusive_ownership (w : program) :
  reachable w →
  (∀ l1 l2 p, holds w l1 p → holds w l2 p → l1 = l2)
  ∧ (∀ l p, holds w l p →
            (p ∉ Pool.m_pool (Pool.pool (proc w)))
            ∧ (∀ thread, Pool.t_cachedBuffer (proc w) !! thread ≠ Some p))
  ∧ (∀ t1 t2 p, Pool.t_cachedBuffer (proc w) !! t1 = Some p →
                Pool.t_cachedBuffer (proc w) !! t2 = Some p → t1 = t2)
  ∧ (∀ thread p, Pool.t_cachedBuffer (proc w) !! thread = Some p →
                 p ∉ Pool.m_pool (Pool.pool (proc w)))
  ∧ NoDup (Pool.m_pool (Pool.pool (proc w))).
Proof.
  intros Hreach. apply reachable_invariant in Hreach as [Hcfg Hst Hnd Hbd Hu Hlive Hval].
  split; [|split; [|split; [|split]]].
  - intros l1 l2 p H1 H2. pose proof (Hu (InLease l1) (InLease l2) p H1 H2). congruence.
  - intros l p H. split.
    + intros Hin. pose proof (Hu (InLease l) InPool p H Hin). discriminate.
    + intros t Ht. pose proof (Hu (InLease l) (InCache t) p H Ht). discriminate.
  - intros t1 t2 p H1 H2. pose proof (Hu (InCache t1) (InCache t2) p H1 H2). congruence.
  - intros t p Ht Hin. pose proof (Hu (InCache t) InPool p Ht Hin). discriminate.
  - exact Hnd.
Qed.

Lemma exclusive_ownership_witness :
  NoDup (Pool.m_pool (Pool.pool (proc moved)))
  ∧ ∀ l1 l2 p, holds moved l1 p → holds moved l2 p → l1 = l2.
Proof.
  destruct (exclusive_ownership moved moved_reachable) as (H1 & _ & _ & _ & H5). auto.
Defined.

(** In every reachable program nothing dangles: a valid lease has a non-null
    pointer, and every buffer referenced by a valid lease, by a slot or by the
    shared pool is allocated and satisfies the representation invariant. *)
Theorem no_dangling_buffer (w : program) :
  reachable w →
  (∀ l this, leases w !! l = Some this → Lease.m_valid this = true →
             ∃ p, Lease.m_buffer this = Some p)
  ∧ (∀ o p, owns w o p →
            ∃ b, Pool.objects (proc w) !! p = Some b ∧ DSB.well_formed b = true).
Proof.
  intros Hreach. apply reachable_invariant in Hreach as [Hcfg Hst Hnd Hbd Hu Hlive Hval].
  split.
  - intros l this Hl Hv. apply (Hval l this Hl Hv).
  - intros o p Ho. destruct (Hlive o p Ho) as (b & Hb & Hwf & _). eauto.
Qed.

Lemma no_dangling_buffer_witness :
  ∃ b, Pool.objects (proc moved) !! 2%positive = Some b ∧ DSB.well_formed b = true.
Proof.
  apply (proj2 (no_dangling_buffer moved moved_reachable) (InLease 1%nat) 2%positive).
  exists (Lease.construct (Some 2%positive)). vm_compute. auto.
Defined.





(** Disposal is idempotent: disposing again a lease that [dispose()] has
    returned changes neither the lease nor the process, so the buffer is not
    returned a second time; and a lease that was valid is left without buffer. *)
Theorem dispose_is_idempotent (self : nat) (this : Lease.t) (pr : Pool.process)
    (r : Lease.t * Pool.process) :
  Lease.dispose self this pr = Ok r →
  Lease.dispose self r.1 r.2 = Ok r
  ∧ Lease.destroy self r.1 r.2 = Ok r.2
  ∧ Lease.m_valid r.1 = false
  ∧ (Lease.m_valid this = true → Lease.m_buffer r.1 = None).
Proof.
  intros H. destruct r as (this' & pr').
  apply dispose_spec in H as [(Hv & -> & ->)|(Hv & -> & _)]; simpl.
  - unfold Lease.destroy, Lease.dispose. rewrite Hv. simpl. repeat split. congruence.
  - repeat split.
Qed.

Lemma dispose_is_idempotent_witness :
  ∃ r, Lease.dispose 0%nat (Lease.construct (Some 1%positive)) (proc leased) = Ok r
       ∧ Lease.dispose 0%nat r.1 r.2 = Ok r
       ∧ Lease.m_valid r.1 = false.
Proof.
  destruct (Lease.dispose 0%nat (Lease.construct (Some 1%positive)) (proc leased))
    as [r| |] eqn:H; [|vm_compute in H; discriminate..].
  destruct (dispose_is_idempotent _ _ _ r H) as (H1 & _ & H3 & _).
  exists r. auto.
Defined.

(** ** Recycling *)

(** A buffer released by a thread whose slot is empty is the one the next
    acquire of that thread returns: same address, same capacity and storage,
    size zero.  The acquire is a thread-local hit, and the slot and the shared
    pool end as they were. *)
Theorem release_then_acquire (w : Pool.process) (self : nat) (p : positive) (b : DSB.t) :
  Pool.objects w !! p = Some b →
  DSB.capacity b <= Pool.m_maximumRetainedCapacity (Pool.pool w) →
  Pool.t_cachedBuffer w !! self = None →
  ∃ w1 w2,
    Pool.returnToPool self (Some p) w = Ok w1
    ∧ Pool.get self w1 = Ok (p, w2)
    ∧ Pool.objects w2 = <[p := DSB.clear b]> (Pool.objects w)
    ∧ DSB.capacity (DSB.clear b) = DSB.capacity b
    ∧ Pool.t_cachedBuffer w2 = Pool.t_cachedBuffer w
    ∧ Pool.m_pool (Pool.pool w2) = Pool.m_pool (Pool.pool w)
    ∧ Pool.stats w2 = Pool.add_threadLocalHits (Pool.add_totalRequests (Pool.stats w)).
Proof.
  intros Hb Hcap Hc.
  eexists. eexists. split.
  { unfold Pool.returnToPool. rewrite Hb. simpl.
    rewrite (proj2 (Z.ltb_ge _ _) Hcap). rewrite Hc. reflexivity. }
  unfold Pool.get. simpl. rewrite lookup_insert_eq. unfold Pool.clear_at. simpl.
  rewrite Hb. simpl. split; [reflexivity|]. simpl.
  rewrite delete_insert_id by exact Hc. repeat split.
Qed.

Lemma release_then_acquire_witness :
  ∃ w1 w2,
    Pool.returnToPool 0%nat (Some 1%positive) (proc leased) = Ok w1
    ∧ Pool.get 0%nat w1 = Ok (1%positive, w2)
    ∧ Pool.t_cachedBuffer w2 = Pool.t_cachedBuffer (proc leased).
Proof.
  destruct (release_then_acquire (proc leased) 0%nat 1%positive DSB.default)
    as (w1 & w2 & H1 & H2 & _ & _ & H3 & _).
  - vm_compute. reflexivity.
  - vm_compute. discriminate.
  - vm_compute. reflexivity.
  - exists w1, w2. auto.
Defined.

(** The shared pool is last-in first-out: a buffer released while the slot
    of the releasing thread is occupied and the pool has room goes to the
    back of the pool, and is the one served to the next thread that acquires
    with an empty slot, ahead of every buffer pooled before it; the pool is
    then as it was. *)
Theorem shared_pool_is_lifo (w : Pool.process) (self other : nat) (p : positive)
    (b : DSB.t) :
  Pool.objects w !! p = Some b →
  DSB.capacity b <= Pool.m_maximumRetainedCapacity (Pool.pool w) →
  is_Some (Pool.t_cachedBuffer w !! self) →
  Z.of_nat (length (Pool.m_pool (Pool.pool w))) < Pool.m_maxPoolSize (Pool.pool w) →
  Pool.t_cachedBuffer w !! other = None →
  ∃ w1 w2,
    Pool.returnToPool self (Some p) w = Ok w1
    ∧ Pool.m_pool (Pool.pool w1) = Pool.m_pool (Pool.pool w) ++ [p]
    ∧ Pool.get other w1 = Ok (p, w2)
    ∧ Pool.m_pool (Pool.pool w2) = Pool.m_pool (Pool.pool w)
    ∧ Pool.objects w2 = <[p := DSB.clear b]> (Pool.objects w)
    ∧ Pool.t_cachedBuffer w2 = Pool.t_cachedBuffer w
    ∧ Pool.stats w2
      = Pool.add_dynamicStringBufferPoolHits (Pool.add_totalRequests (Pool.stats w)).
Proof.
  intros Hb Hcap (cached & Hc) Hroom Hother.
  eexists. eexists. split.
  { unfold Pool.returnToPool. rewrite Hb. simpl.
    rewrite (proj2 (Z.ltb_ge _ _) Hcap). rewrite Hc.
    rewrite (proj2 (Z.ltb_lt _ _) Hroom). reflexivity. }
  split; [reflexivity|].
  unfold Pool.get. simpl. rewrite Hother. rewrite last_snoc.
  unfold Pool.clear_at. simpl. rewrite Hb. simpl. rewrite removelast_last.
  repeat split.
Qed.

Lemma shared_pool_is_lifo_witness :
  ∃ w1 w2,
    Pool.m_pool (Pool.pool (proc busy)) = [2; 3]%positive
    ∧ Pool.returnToPool 0%nat (Some 5%positive) (proc busy) = Ok w1
    ∧ Pool.m_pool (Pool.pool w1) = [2; 3; 5]%positive
    ∧ Pool.get 2%nat w1 = Ok (5%positive, w2)
    ∧ Pool.m_pool (Pool.pool w2) = [2; 3]%positive.
Proof.
  destruct (shared_pool_is_lifo (proc busy) 0%nat 2%nat 5%positive DSB.default)
    as (w1 & w2 & H1 & H2 & H3 & H4 & _).
  - vm_compute. reflexivity.
  - vm_compute. discriminate.
  - exists 1%positive. vm_compute. reflexivity.
  - vm_compute. reflexivity.
  - vm_compute. reflexivity.
  - exists w1, w2. split; [vm_compute; reflexivity|]. split; [exact H1|].
    split; [exact H2|]. split; [exact H3|exact H4].
Defined.

(** ** Clearing the pool *)

(** In every reachable program [StringBuilderPool::clear()] returns exactly
    what [size()] reported before it, [size()] is zero afterwards, and neither
    the buffers held by leases nor the slots of the other threads are
    touched. *)
Theorem clear_returns_size (w : program) (self : nat) :
  reachable w →
  ∃ n pr', StringBuilderPool.clear self (proc w) = Ok (n, pr')
           ∧ n = StringBuilderPool.size self (proc w)
           ∧ StringBuilderPool.size self pr' = 0
           ∧ (∀ l p, holds w l p → Pool.objects pr' !! p = Pool.objects (proc w) !! p)
           ∧ (∀ thread, thread ≠ self →
                Pool.t_cachedBuffer pr' !! thread = Pool.t_cachedBuffer (proc w) !! thread).
Proof.
  intros Hreach. apply reachable_invariant in Hreach as Hinv.
  destruct (clear_exists w self Hinv) as (n & pr' & Hclear).
  exists n, pr'. split; [exact Hclear|].
  unfold StringBuilderPool.clear in Hclear.
  apply clear_spec in Hclear as (_ & _ & Hp' & Hc' & Hn & Ho'). simpl in *.
  split; [exact Hn|]. split.
  { unfold StringBuilderPool.size, Pool.size. rewrite Hp', Hc', lookup_delete_eq. reflexivity. }
  split.
  - intros l p Hl. apply Ho'.
    + intros Hin. pose proof (inv_unique w Hinv (InLease l) InPool p Hl Hin). discriminate.
    + intros Hc. pose proof (inv_unique w Hinv (InLease l) (InCache self) p Hl Hc).
      discriminate.
  - intros t Ht. rewrite Hc'. apply lookup_delete_ne. congruence.
Qed.

Lemma clear_returns_size_witness :
  ∃ n pr', StringBuilderPool.clear 0%nat (proc busy) = Ok (n, pr')
           ∧ StringBuilderPool.size 0%nat (proc busy) = 3
           ∧ n = 3
           ∧ StringBuilderPool.size 0%nat pr' = 0
           ∧ holds busy 5%nat 5%positive
           ∧ Pool.objects pr' !! 5%positive = Pool.objects (proc busy) !! 5%positive
           ∧ Pool.t_cachedBuffer (proc busy) !! 1%nat = Some 4%positive
           ∧ Pool.t_cachedBuffer pr' !! 1%nat = Pool.t_cachedBuffer (proc busy) !! 1%nat.
Proof.
  assert (Hheld : holds busy 5%nat 5%positive).
  { exists (Lease.construct (Some 5%positive)). vm_compute. auto. }
  destruct (clear_returns_size busy 0%nat busy_reachable)
    as (n & pr' & H1 & H2 & H3 & H4 & H5).
  exists n, pr'. split; [exact H1|]. split; [vm_compute; reflexivity|].
  split; [rewrite H2; vm_compute; reflexivity|]. split; [exact H3|].
  split; [exact Hheld|]. split; [apply (H4 5%nat 5%positive Hheld)|].
  split; [vm_compute; reflexivity|]. apply H5. discriminate.
Defined.

(** ** Building a string through a lease *)

Lemma shift_spec (a : DSB.append_call) (sb : StringBuilder.t) (w : Pool.process)
    (b b' : DSB.t) :
  Pool.objects w !! StringBuilder.m_buffer sb = Some b →
  DSB.exec_append a b = Ok b' →
  ∃ w', StringBuilder.shift a sb w = Ok w'
        ∧ Pool.objects w' = <[StringBuilder.m_buffer sb := b']> (Pool.objects w)
        ∧ Pool.t_cachedBuffer w' = Pool.t_cachedBuffer w
        ∧ Pool.pool w' = Pool.pool w.
Proof.
  intros Hb Hexec.
  assert (Hon : ∀ f, f b = Ok b' →
                     ∃ w', StringBuilder.on_buffer f sb w = Ok w'
                           ∧ Pool.objects w' = <[StringBuilder.m_buffer sb := b']> (Pool.objects w)
                           ∧ Pool.t_cachedBuffer w' = Pool.t_cachedBuffer w
                           ∧ Pool.pool w' = Pool.pool w).
  { intros f Hf. unfold StringBuilder.on_buffer. rewrite Hb. simpl. rewrite Hf. simpl.
    eexists. split; [reflexivity|]. repeat split. }
  destruct a as [str|str|[mem|]|c]; simpl in *.
  - apply Hon. exact Hexec.
  - apply Hon. exact Hexec.
  - apply Hon. exact Hexec.
  - injection Hexec as <-. exists w. split; [reflexivity|].
    rewrite insert_id by exact Hb. repeat split.
  - apply Hon. exact Hexec.
Qed.

Lemma chain_spec (calls : list DSB.append_call) (sb : StringBuilder.t) (w : Pool.process)
    (b b' : DSB.t) :
  Pool.objects w !! StringBuilder.m_buffer sb = Some b →
  DSB.run DSB.exec_append calls b = Ok b' →
  ∃ w', StringBuilder.chain calls sb w = Ok w'
        ∧ Pool.objects w' = <[StringBuilder.m_buffer sb := b']> (Pool.objects w)
        ∧ Pool.t_cachedBuffer w' = Pool.t_cachedBuffer w
        ∧ Pool.pool w' = Pool.pool w.
Proof.
  revert w b. induction calls as [|a calls IH]; intros w b Hb Hrun; simpl in *.
  - injection Hrun as <-. exists w. split; [reflexivity|].
    rewrite insert_id by exact Hb. repeat split.
  - bind_inv Hrun. rename a0 into b1.
    destruct (shift_spec a sb w b b1 Hb E) as (w1 & Hshift & Ho1 & Hc1 & Hp1).
    destruct (IH w1 b1) as (w' & Hchain & Ho' & Hc' & Hp'); [|exact Hrun|].
    { rewrite Ho1. apply lookup_insert_eq. }
    exists w'. rewrite Hshift. simpl. split; [exact Hchain|].
    rewrite Ho', Ho1, insert_insert_eq. repeat split; congruence.
Qed.

(** On a valid lease of a reachable program [create()] returns a builder,
    and a chain of [<<] (or appends) of any of the four kinds on that builder
    completes; afterwards [toString()] of the lease is what it was before
    followed by the bytes written, [length()] of the builder is the new size,
    and nothing but the leased buffer has changed: every other buffer, the
    slots, the shared pool and the counters are the same. *)
Theorem builder_writes_leased_buffer (w : program) (l : nat) (this : Lease.t)
    (calls : list DSB.append_call) (s : list byte) :
  reachable w →
  leases w !! l = Some this →
  Lease.m_valid this = true →
  Lease.toString this (proc w) = Ok s →
  len s + len (concat (map DSB.appended calls)) < 2 ^ 50 →
  ∃ sb pr',
    Lease.create this = Ok sb
    ∧ StringBuilder.chain calls sb (proc w) = Ok pr'
    ∧ Lease.toString this pr' = Ok (s ++ concat (map DSB.appended calls))
    ∧ StringBuilder.length sb pr' = Ok (len s + len (concat (map DSB.appended calls)))
    ∧ (∀ q, q ≠ StringBuilder.m_buffer sb →
            Pool.objects pr' !! q = Pool.objects (proc w) !! q)
    ∧ Pool.t_cachedBuffer pr' = Pool.t_cachedBuffer (proc w)
    ∧ Pool.pool pr' = Pool.pool (proc w).
Proof.
  intros Hreach Hl Hv HtoS Hbound. apply reachable_invariant in Hreach as Hinv.
  destruct (inv_valid w Hinv l this Hl Hv) as (p & Hp).
  assert (Hheld : holds w l p) by (exists this; auto).
  destruct (inv_live w Hinv (InLease l) p Hheld) as (b & Hb & Hwf & _).
  unfold Lease.toString in HtoS. rewrite Hv, Hp in HtoS. simpl in HtoS.
  rewrite Hb in HtoS. simpl in HtoS.
  assert (Hsize : DSB.m_size b = len s).
  { destruct (toString_well_formed b Hwf) as (cur & _ & Hlcur & HtoS').
    rewrite HtoS in HtoS'. injection HtoS' as ->.
    pose proof (proj1 (well_formed_spec b) Hwf) as (_ & Hsz & _).
    unfold len in *. rewrite length_take. lia. }
  destruct (run_appends calls b s Hwf HtoS ltac:(lia)) as (b' & Hrun & Hwf' & HtoS' & Hs').
  destruct (chain_spec calls (StringBuilder.Build p) (proc w) b b' Hb Hrun)
    as (pr' & Hchain & Ho' & Hc' & Hp').
  exists (StringBuilder.Build p), pr'.
  split; [unfold Lease.create; rewrite Hv, Hp; reflexivity|].
  split; [exact Hchain|]. simpl in Ho'. split.
  { unfold Lease.toString. rewrite Hv, Hp. simpl. rewrite Ho', lookup_insert_eq. exact HtoS'. }
  split.
  { unfold StringBuilder.length. simpl. rewrite Ho', lookup_insert_eq. simpl.
    unfold DSB.size. rewrite Hs', Hsize. reflexivity. }
  split; [|auto]. intros q Hq. simpl in Hq. rewrite Ho'. apply lookup_insert_ne. congruence.
Qed.

Lemma builder_writes_leased_buffer_witness :
  ∃ sb pr',
    Lease.create (Lease.construct (Some 1%positive)) = Ok sb
    ∧ StringBuilder.chain hello_world sb (proc leased) = Ok pr'
    ∧ Lease.toString (Lease.construct (Some 1%positive)) pr'
      = Ok ([] ++ concat (map DSB.appended hello_world)).
Proof.
  destruct (builder_writes_leased_buffer leased 0%nat (Lease.construct (Some 1%positive))
              hello_world [] leased_reachable)
    as (sb & pr' & H1 & H2 & H3 & _).
  - vm_compute. reflexivity.
  - reflexivity.
  - vm_compute. reflexivity.
  - vm_compute. reflexivity.
  - exists sb, pr'. auto.
Defined.

(** ** Sequential reuse *)

Lemma ensureCapacity_enough (n : Z) (b : DSB.t) :
  n <= DSB.m_capacity b → DSB.ensureCapacity n b = Ok b.
Proof.
  intros H. unfold DSB.ensureCapacity. rewrite (proj2 (Z.leb_le n (DSB.m_capacity b)) H).
  reflexivity.
Qed.

Lemma capacity_set (n : Z) (mem : list byte) (b : DSB.t) :
  DSB.m_capacity (DSB.set_size n (DSB.set_currentBuffer mem b)) = DSB.m_capacity b.
Proof. unfold DSB.set_currentBuffer. destruct (DSB.m_onHeap b); reflexivity. Qed.

(** An append that fits the capacity does not change it. *)
Lemma append_within_capacity (a : DSB.append_call) (b b' : DSB.t) :
  DSB.well_formed b = true →
  DSB.m_size b + len (DSB.appended a) <= DSB.m_capacity b →
  DSB.exec_append a b = Ok b' →
  DSB.m_capacity b' = DSB.m_capacity b.
Proof.
  intros Hwf Hfit H.
  apply well_formed_spec in Hwf as (_ & Hsize & Hcap & _).
  assert (Happend : ∀ str, DSB.m_size b + len str <= DSB.m_capacity b →
            DSB.append str b = Ok b' → DSB.m_capacity b' = DSB.m_capacity b).
  { intros str Hs Ha. unfold DSB.append in Ha.
    destruct (negb (len str =? 0)); [|injection Ha as <-; reflexivity].
    pose proof (len_nonneg str).
    rewrite wrap64_small in Ha by lia.
    rewrite ensureCapacity_enough in Ha by lia. rewrite bind_Ok in Ha.
    bind_inv Ha. bind_inv Ha. injection Ha as <-. apply capacity_set. }
  destruct a as [str|str|[mem|]|c];
    unfold DSB.exec_append, DSB.appended, DSB.append_string, DSB.append_c_str in *.
  - apply (Happend str Hfit H).
  - apply (Happend str Hfit H).
  - apply (Happend (c_str mem) Hfit H).
  - injection H as <-. reflexivity.
  - change (len [c]) with 1 in Hfit. unfold DSB.push_back in H.
    rewrite wrap64_small in H by lia.
    rewrite ensureCapacity_enough in H by lia. rewrite bind_Ok in H.
    bind_inv H. bind_inv H. injection H as <-. apply capacity_set.
Qed.

Lemma run_within_capacity (calls : list DSB.append_call) (b b' : DSB.t) :
  DSB.well_formed b = true →
  DSB.m_size b + len (concat (map DSB.appended calls)) <= DSB.m_capacity b →
  DSB.run DSB.exec_append calls b = Ok b' →
  DSB.m_capacity b' = DSB.m_capacity b.
Proof.
  revert b. induction calls as [|a calls IH]; intros b Hwf Hfit H; simpl in H.
  - injection H as <-. reflexivity.
  - bind_inv H. rename a0 into b1.
    simpl in Hfit. rewrite len_app in Hfit.
    pose proof (len_nonneg (concat (map DSB.appended calls))).
    pose proof (len_nonneg (DSB.appended a)).
    pose proof (append_within_capacity a b b1 Hwf ltac:(lia) E) as Hc1.
    destruct (exec_append_Ok_inv a b b1 Hwf E) as (Hwf1 & Hs1 & _).
    rewrite <- Hc1. apply (IH b1 Hwf1); [lia|exact H].
Qed.

(** The buffer [get] returns is empty. *)
Lemma get_fresh (w : program) (self : nat) (p : positive) (pr' : Pool.process) :
  invariant w →
  Pool.get self (proc w) = Ok (p, pr') →
  ∃ b, Pool.objects pr' !! p = Some b ∧ DSB.well_formed b = true ∧ DSB.m_size b = 0.
Proof.
  intros Hinv Hget.
  destruct (get_invariant w self p pr' Hinv Hget) as (_ & _ & b & Hb & Hwf).
  exists b. split; [exact Hb|]. split; [exact Hwf|].
  apply get_spec in Hget as (_ & Hcases).
  destruct Hcases as [(_ & _ & _ & (x & _ & Ho') & _)
                     |[(_ & _ & _ & (x & _ & Ho') & _)
                      |(Hc & _ & _ & _ & _ & (x & Hx & Ho') & _)]];
    rewrite Ho', lookup_insert_eq in Hb; injection Hb as <-; try reflexivity.
  destruct (inv_config w Hinv) as (Hi & _). simpl in Hi. rewrite Hi in Hx.
  injection Hx as <-. reflexivity.
Qed.

(** Writing to a buffer that neither a tier nor a lease of the program
    references keeps the invariant. *)
Lemma invariant_scratch (w : program) (p : positive) (b' : DSB.t) (pr1 : Pool.process) :
  invariant w →
  (∀ o, ¬ owns w o p) →
  Pool.objects pr1 = <[p := b']> (Pool.objects (proc w)) →
  Pool.t_cachedBuffer pr1 = Pool.t_cachedBuffer (proc w) →
  Pool.pool pr1 = Pool.pool (proc w) →
  invariant {| proc := pr1; leases := leases w |}
  ∧ ∀ o, ¬ owns {| proc := pr1; leases := leases w |} o p.
Proof.
  intros Hinv Hfree Ho Hc Hp.
  assert (Hsub : ∀ o q, owns {| proc := pr1; leases := leases w |} o q → owns w o q).
  { intros [|t|l] q H; simpl in *; [rewrite Hp in H|rewrite Hc in H|]; exact H. }
  split.
  - apply invariant_shrink; [exact Hinv| | | | |exact Hsub|].
    + unfold same_config. rewrite Hp. auto.
    + unfold Pool.stats. rewrite Hp. apply (inv_stats w Hinv).
    + rewrite Hp. apply (inv_nodup w Hinv).
    + rewrite Hp. reflexivity.
    + intros o q b0 H Hq Hwfq. exists b0. rewrite Ho, lookup_insert_ne; [auto|].
      intros <-. apply (Hfree o). apply Hsub. exact H.
  - intros o H. apply (Hfree o). apply Hsub. exact H.
Qed.

(** One cycle: it completes; the acquire hits the slot of the thread exactly
    when the slot is occupied; the slot is occupied afterwards exactly when
    the capacity of the buffer at its release is one the pool retains, which
    is the case when the use appends no more than the inline size. *)
Lemma cycle_spec (w : program) (self : nat) (use : list DSB.append_call) :
  invariant w →
  len (concat (map DSB.appended use)) < 2 ^ 50 →
  ∃ c pr', cycle self use (proc w) = Ok (c, pr')
           ∧ invariant {| proc := pr'; leases := leases w |}
           ∧ occupied self pr' = retained c
           ∧ Pool.threadLocalHits (Pool.stats pr')
             = (if occupied self (proc w)
                then wrap64 (Pool.threadLocalHits (Pool.stats (proc w)) + 1)
                else Pool.threadLocalHits (Pool.stats (proc w)))
           ∧ (len (concat (map DSB.appended use)) <= DSB.STACK_BUFFER_SIZE →
              retained c = true).
Proof.
  intros Hinv Hbound.
  destruct (get_exists w self Hinv) as (p & pr0 & Hget).
  destruct (get_invariant w self p pr0 Hinv Hget) as (Hinv0 & Hfree & _).
  destruct (get_fresh w self p pr0 Hinv Hget) as (b & Hb & Hwf & Hsize).
  destruct (get_retainable w self p pr0 Hinv Hget) as (Hslot & b0 & Hb0 & Hcap).
  rewrite Hb in Hb0. injection Hb0 as <-.
  destruct (toString_well_formed b Hwf) as (cur & _ & _ & HtoS).
  destruct (run_appends use b _ Hwf HtoS ltac:(lia)) as (b' & Hrun & Hwf' & _ & _).
  destruct (chain_spec use (StringBuilder.Build p) pr0 b b' Hb Hrun)
    as (pr1 & Hchain & Ho1 & Hc1 & Hp1).
  simpl in Ho1.
  destruct (invariant_scratch {| proc := pr0; leases := leases w |} p b' pr1
              Hinv0 Hfree Ho1 Hc1 Hp1) as (Hinv1 & Hfree1).
  assert (Hb1 : Pool.objects pr1 !! p = Some b') by (rewrite Ho1; apply lookup_insert_eq).
  destruct (returnToPool_exists self p pr1 (ex_intro _ b' Hb1)) as (pr' & Hret).
  exists (DSB.capacity b'), pr'.
  assert (Hd : Lease.destroy self (Lease.construct (Some p)) pr1 = Ok pr').
  { unfold Lease.destroy, Lease.dispose, Lease.construct.
    cbn [Lease.m_valid Lease.m_buffer]. rewrite Hret. reflexivity. }
  split.
  { unfold cycle, StringBuilderPool.lease. rewrite Hget, !bind_Ok. cbn [fst snd].
    change (Lease.create (Lease.construct (Some p))) with (Ok (StringBuilder.Build p)).
    rewrite bind_Ok, Hchain, bind_Ok.
    change (Lease.buffer (Lease.construct (Some p))) with (Ok p).
    rewrite bind_Ok, Hb1. cbn [deref]. rewrite bind_Ok, Hd. reflexivity. }
  split.
  { apply (returnToPool_invariant {| proc := pr1; leases := leases w |} self p b' pr'
             Hinv1 Hfree1 Hb1 Hwf' Hret). }
  destruct (inv_config _ Hinv1) as (_ & Hmax & _). simpl in Hmax.
  pose proof Hret as Hspec.
  apply returnToPool_spec in Hspec as (_ & Hst' & b2 & Hb2 & Hcases).
  rewrite Hb1 in Hb2. injection Hb2 as <-.
  rewrite Hc1, Hmax in Hcases.
  split.
  { unfold occupied, retained. simpl.
    destruct Hcases as [(Hbig & _ & Hc' & _)
                       |[(Hsmall & _ & _ & Hc' & _)
                        |[(_ & (x & Hx) & _)|(_ & (x & Hx) & _)]]];
      [| |congruence|congruence].
    - rewrite Hc', Hslot. symmetry. apply Z.leb_gt. exact Hbig.
    - rewrite Hc', lookup_insert_eq. symmetry. apply Z.leb_le. exact Hsmall. }
  split.
  { rewrite Hst'. unfold Pool.stats. rewrite Hp1.
    apply get_spec in Hget as (_ & Hget). unfold occupied, Pool.stats in *.
    destruct Hget as [(Hc & _ & _ & _ & Hs')
                     |[(Hc & _ & _ & _ & Hs')|(Hc & _ & _ & _ & _ & _ & Hs')]];
      rewrite Hc, Hs'; reflexivity. }
  intros Hsmall. unfold retained. simpl. apply Z.leb_le.
  unfold DSB.capacity in *.
  assert (Hfit : DSB.m_size b + len (concat (map DSB.appended use)) <= DSB.m_capacity b).
  { pose proof (proj1 (well_formed_spec b) Hwf) as (_ & _ & _ & Hstore).
    unfold DSB.STACK_BUFFER_SIZE in *.
    destruct (DSB.m_onHeap b); [destruct Hstore as (? & _ & _ & ?)|]; lia. }
  rewrite (run_within_capacity use b b' Hwf Hfit Hrun).
  rewrite <- Hp1, Hmax in Hcap. exact Hcap.
Qed.

Lemma hits_all_retained (caps : list Z) :
  Forall (λ c, c <= 2048) caps → hits true caps = Z.of_nat (length caps).
Proof.
  induction 1 as [|c caps Hc _ IH]; [reflexivity|].
  change (hits true (c :: caps)) with (1 + hits (retained c) caps).
  change (retained c) with (c <=? 2048). rewrite (proj2 (Z.leb_le c 2048) Hc), IH.
  rewrite length_cons. lia.
Qed.

Lemma hits_range (caps : list Z) (slot_occupied : bool) :
  0 <= hits slot_occupied caps <= Z.of_nat (length caps).
Proof.
  revert slot_occupied. induction caps as [|c caps IH]; intros o; [simpl; lia|].
  change (hits o (c :: caps)) with ((if o then 1 else 0) + hits (retained c) caps).
  specialize (IH (retained c)). rewrite length_cons. destruct o; lia.
Qed.

Lemma cycles_spec (uses : list (list DSB.append_call)) (self : nat) (w : program) :
  invariant w →
  Forall (λ use, len (concat (map DSB.appended use)) < 2 ^ 50) uses →
  ∃ caps pr', cycles self uses (proc w) = Ok (caps, pr')
              ∧ length caps = length uses
              ∧ Pool.threadLocalHits (Pool.stats pr')
                = wrap64 (Pool.threadLocalHits (Pool.stats (proc w))
                          + hits (occupied self (proc w)) caps)
              ∧ (Forall (λ use, len (concat (map DSB.appended use)) <= DSB.STACK_BUFFER_SIZE)
                   uses →
                 Forall (λ c, c <= 2048) caps).
Proof.
  revert w. induction uses as [|use uses IH]; intros w Hinv Hall.
  - exists [], (proc w). split; [reflexivity|]. split; [reflexivity|]. split.
    + simpl. rewrite Z.add_0_r. symmetry. apply wrap64_small. apply (inv_stats w Hinv).
    + intros _. constructor.
  - inversion Hall as [|? ? Hu Hall']; subst.
    destruct (cycle_spec w self use Hinv Hu)
      as (c & pr1 & Hcycle & Hinv1 & Hocc1 & Htl1 & Hsmall1).
    destruct (IH _ Hinv1 Hall') as (caps & pr' & Hrun & Hlen & Htl' & Hsmall').
    simpl in Hrun, Htl'.
    exists (c :: caps), pr'.
    split; [simpl; rewrite Hcycle; simpl; rewrite Hrun; reflexivity|].
    split; [simpl; rewrite Hlen; reflexivity|]. split.
    + rewrite Htl', Hocc1, Htl1.
      change (hits (occupied self (proc w)) (c :: caps))
        with ((if occupied self (proc w) then 1 else 0) + hits (retained c) caps).
      destruct (occupied self (proc w)).
      * rewrite wrap64_add_l. f_equal. lia.
      * f_equal.
    + intros Hs. inversion Hs as [|? ? Hs1 Hs2]; subst. constructor; [|auto].
      specialize (Hsmall1 Hs1). unfold retained in Hsmall1. simpl in Hsmall1.
      apply Z.leb_le. exact Hsmall1.
Qed.

(** C7, as the code has it.  From any reachable program a run of
    acquire-use-release cycles of one thread, nothing else running in
    between, completes, whatever each cycle appends; an acquire hits the slot
    of the thread exactly when the release before it retained the buffer (the
    first acquire: when the slot is occupied at the start).  Hence [N] cycles
    add at least [N - 1] to [threadLocalHits] (as a [uint64_t]) provided that
    at each release the capacity of the buffer is at most
    [maxRetainedCapacity] (2048) -- which is the case when no cycle appends
    more than the inline size of 256 bytes. *)
Theorem sequential_reuse (w : program) (self : nat) (uses : list (list DSB.append_call)) :
  reachable w →
  Forall (λ use, len (concat (map DSB.appended use)) < 2 ^ 50) uses →
  ∃ caps pr' k,
    cycles self uses (proc w) = Ok (caps, pr')
    ∧ length caps = length uses
    ∧ Pool.threadLocalHits (Pool.stats pr')
      = wrap64 (Pool.threadLocalHits (Pool.stats (proc w)) + k)
    ∧ k = hits (occupied self (proc w)) caps
    ∧ 0 <= k <= Z.of_nat (length uses)
    ∧ (Forall (λ c, c <= 2048) caps → Z.of_nat (length uses) - 1 <= k)
    ∧ (Forall (λ use, len (concat (map DSB.appended use)) <= DSB.STACK_BUFFER_SIZE) uses →
       Forall (λ c, c <= 2048) caps).
Proof.
  intros Hreach Hall. apply reachable_invariant in Hreach as Hinv.
  destruct (cycles_spec uses self w Hinv Hall) as (caps & pr' & Hrun & Hlen & Htl & Hsmall).
  exists caps, pr', (hits (occupied self (proc w)) caps).
  split; [exact Hrun|]. split; [exact Hlen|]. split; [exact Htl|].
  split; [reflexivity|]. rewrite <- Hlen.
  split; [apply hits_range|]. split; [|exact Hsmall].
  intros Hret. destruct Hret as [|c caps' Hc Hret]; [simpl; lia|].
  change (hits (occupied self (proc w)) (c :: caps'))
    with ((if occupied self (proc w) then 1 else 0) + hits (retained c) caps').
  change (retained c) with (c <=? 2048). rewrite (proj2 (Z.leb_le c 2048) Hc).
  rewrite (hits_all_retained caps' Hret), length_cons.
  destruct (occupied self (proc w)); lia.
Qed.

Lemma sequential_reuse_witness :
  ∃ caps pr' k,
    cycles 0%nat [hello_world; [DSB.AppendString long_text]; hello_world] (proc initial)
    = Ok (caps, pr')
    ∧ caps = [256; 384; 384]
    ∧ Pool.threadLocalHits (Pool.stats pr')
      = wrap64 (Pool.threadLocalHits (Pool.stats (proc initial)) + k)
    ∧ 3 - 1 <= k.
Proof.
  destruct (sequential_reuse initial 0%nat
              [hello_world; [DSB.AppendString long_text]; hello_world] reachable_initial)
    as (caps & pr' & k & Hrun & _ & Htl & _ & _ & Hge & _).
  - repeat constructor; vm_compute; reflexivity.
  - assert (Hcaps : caps = [256; 384; 384]).
    { pose proof Hrun as H. vm_compute in H. injection H as H _. symmetry. exact H. }
    exists caps, pr', k. split; [exact Hrun|]. split; [exact Hcaps|].
    split; [exact Htl|]. apply Hge. rewrite Hcaps.
    repeat constructor; vm_compute; discriminate.
Defined.

(** C7 as stated fails when the use made of the buffer outgrows what the
    pool retains.  From process start thread 0 runs three cycles, each
    appending 3000 bytes: each buffer has capacity 3000 when it is released
    and is deallocated, so that each acquire allocates and none hits the slot
    of the thread: [threadLocalHits] is still 0, not at least 2. *)
Lemma oversized_use_defeats_reuse :
  ∃ pr',
    reachable initial
    ∧ cycles 0%nat [big_use; big_use; big_use] (proc initial) = Ok ([3000; 3000; 3000], pr')
    ∧ Pool.threadLocalHits (Pool.stats (proc initial)) = 0
    ∧ Pool.threadLocalHits (Pool.stats pr') = 0
    ∧ Pool.newAllocations (Pool.stats pr') = 3
    ∧ Pool.totalRequests (Pool.stats pr') = 3
    ∧ ¬ (3 - 1 <= Pool.threadLocalHits (Pool.stats pr')
                   - Pool.threadLocalHits (Pool.stats (proc initial))).
Proof.
  eexists. split; [apply reachable_initial|].
  split; [vm_compute; reflexivity|].
  split; [reflexivity|]. split; [reflexivity|]. split; [reflexivity|].
  split; [reflexivity|]. vm_compute. intros H. apply H. reflexivity.
Qed.

(** ** Every allocated buffer is referenced *)

Lemma accounted_lease (w : program) (self l : nat) (p : positive) (pr0 : Pool.process) :
  invariant w → accounted w →
  leases w !! l = None →
  Pool.get self (proc w) = Ok (p, pr0) →
  accounted {| proc := pr0; leases := <[l := Lease.construct (Some p)]> (leases w) |}.
Proof.
  intros Hinv Hacc Hl Hget q Hq. simpl in Hq.
  destruct (decide (q = p)) as [->|Hne].
  { exists (InLease l). eexists. simpl. rewrite lookup_insert_eq. auto. }
  assert (Hkeep : ∀ l0, holds w l0 q →
            holds {| proc := pr0; leases := <[l := Lease.construct (Some p)]> (leases w) |} l0 q).
  { intros l0 (x & Hx & Hxv & Hxb). exists x. simpl.
    rewrite lookup_insert_ne by congruence. auto. }
  apply get_spec in Hget as (_ & Hcases).
  destruct Hcases as [(Hc & Hc' & Hp' & (b & Hb & Ho') & _)
                     |[(Hc & Hc' & Hp' & (b & Hb & Ho') & _)
                      |(Hc & Hc' & Hp & Hp' & Hnone & (b & Hb & Ho') & _)]];
    rewrite Ho', lookup_insert_ne in Hq by congruence;
    destruct (Hacc q Hq) as ([|t|l0] & Ho); simpl in Ho.
  - exists InPool. simpl. rewrite Hp'. exact Ho.
  - exists (InCache t). simpl. rewrite Hc'. apply lookup_delete_Some. split; [|exact Ho].
    intros <-. congruence.
  - exists (InLease l0). apply Hkeep. exact Ho.
  - exists InPool. simpl. rewrite Hp' in Ho. apply elem_of_app in Ho as [Ho|Ho]; [exact Ho|].
    apply list_elem_of_singleton in Ho. contradiction.
  - exists (InCache t). simpl. rewrite Hc'. exact Ho.
  - exists (InLease l0). apply Hkeep. exact Ho.
  - rewrite Hp in Ho. apply elem_of_nil in Ho. contradiction.
  - exists (InCache t). simpl. rewrite Hc'. exact Ho.
  - exists (InLease l0). apply Hkeep. exact Ho.
Qed.

Lemma accounted_move (w : program) (dst src : nat) (other : Lease.t) :
  accounted w →
  dst ≠ src →
  leases w !! src = Some other →
  (∀ q, ¬ holds w dst q) →
  accounted {| proc := proc w;
               leases := <[dst := {| Lease.m_buffer := Lease.m_buffer other;
                                     Lease.m_valid := Lease.m_valid other |}]>
                           (<[src := Lease.exchanged]> (leases w)) |}.
Proof.
  intros Hacc Hne Hsrc Hdst q Hq. simpl in Hq.
  destruct (Hacc q Hq) as ([|t|l0] & Ho); simpl in Ho.
  - exists InPool. exact Ho.
  - exists (InCache t). exact Ho.
  - destruct (decide (l0 = dst)) as [->|Hd]; [exfalso; apply (Hdst q Ho)|].
    destruct Ho as (x & Hx & Hxv & Hxb).
    destruct (decide (l0 = src)) as [->|Hs].
    + rewrite Hsrc in Hx. injection Hx as <-.
      exists (InLease dst). eexists. simpl. rewrite lookup_insert_eq.
      split; [reflexivity|]. simpl. auto.
    + exists (InLease l0). exists x. simpl.
      rewrite !lookup_insert_ne by congruence. auto.
Qed.

Lemma accounted_dispose (w : program) (self l : nat) (this this' : Lease.t)
    (pr' : Pool.process) (entry : option Lease.t) :
  invariant w → accounted w →
  leases w !! l = Some this →
  Lease.dispose self this (proc w) = Ok (this', pr') →
  accounted {| proc := pr'; leases := partial_alter (λ _, entry) l (leases w) |}.
Proof.
  intros Hinv Hacc Hl Hd q Hq. simpl in Hq.
  assert (Hkeep : ∀ l0, l0 ≠ l → holds w l0 q →
            holds {| proc := pr'; leases := partial_alter (λ _, entry) l (leases w) |} l0 q).
  { intros l0 Hne (x & Hx & Hxv & Hxb). exists x. simpl.
    rewrite lookup_partial_alter_ne by congruence. auto. }
  apply dispose_spec in Hd as [(Hv & _ & ->)|(Hv & _ & Hret)].
  - destruct (Hacc q Hq) as ([|t|l0] & Ho).
    + exists InPool. exact Ho.
    + exists (InCache t). exact Ho.
    + destruct (decide (l0 = l)) as [->|Hne];
        [|exists (InLease l0); apply Hkeep; [exact Hne|exact Ho]].
      destruct Ho as (x & Hx & Hxv & _). congruence.
  - destruct (inv_valid w Hinv l this Hl Hv) as (B & HB). rewrite HB in Hret.
    apply returnToPool_spec in Hret as (_ & _ & b & Hb & Hcases).
    assert (Hothers : Pool.objects (proc w) !! q = Pool.objects pr' !! q →
                      q ≠ B →
                      Pool.m_pool (Pool.pool (proc w)) ⊆ Pool.m_pool (Pool.pool pr') →
                      (∀ t x, Pool.t_cachedBuffer (proc w) !! t = Some x →
                              Pool.t_cachedBuffer pr' !! t = Some x) →
                      ∃ o, owns {| proc := pr';
                                   leases := partial_alter (λ _, entry) l (leases w) |} o q).
    { intros Heq HqB Hpool Hcache. rewrite <- Heq in Hq.
      destruct (Hacc q Hq) as ([|t|l0] & Ho); simpl in Ho.
      - exists InPool. simpl. apply Hpool. exact Ho.
      - exists (InCache t). simpl. apply Hcache. exact Ho.
      - destruct (decide (l0 = l)) as [->|Hne];
        [|exists (InLease l0); apply Hkeep; [exact Hne|exact Ho]].
        destruct Ho as (x & Hx & _ & Hxb). congruence. }
    destruct Hcases as [(_ & Ho' & Hc' & Hp')
                       |[(_ & Hc & Ho' & Hc' & Hp')
                        |[(_ & _ & _ & Ho' & Hc' & Hp')|(_ & _ & _ & Ho' & Hc' & Hp')]]].
    + destruct (decide (q = B)) as [->|HqB].
      { rewrite Ho', lookup_delete_eq in Hq. destruct Hq as (? & [=]). }
      apply Hothers; auto.
      * rewrite Ho', lookup_delete_ne by congruence. reflexivity.
      * rewrite Hp'. reflexivity.
      * intros t x. rewrite Hc'. auto.
    + destruct (decide (q = B)) as [->|HqB].
      { exists (InCache self). simpl. rewrite Hc'. apply lookup_insert_eq. }
      apply Hothers; auto.
      * rewrite Ho'. reflexivity.
      * rewrite Hp'. reflexivity.
      * intros t x Ht. rewrite Hc'. rewrite lookup_insert_ne; [exact Ht|]. congruence.
    + destruct (decide (q = B)) as [->|HqB].
      { exists InPool. simpl. rewrite Hp'. apply elem_of_app. right.
        apply list_elem_of_singleton. reflexivity. }
      apply Hothers; auto.
      * rewrite Ho'. reflexivity.
      * rewrite Hp'. intros x Hx. apply elem_of_app. left. exact Hx.
      * intros t x. rewrite Hc'. auto.
    + destruct (decide (q = B)) as [->|HqB].
      { rewrite Ho', lookup_delete_eq in Hq. destruct Hq as (? & [=]). }
      apply Hothers; auto.
      * rewrite Ho', lookup_delete_ne by congruence. reflexivity.
      * rewrite Hp'. reflexivity.
      * intros t x. rewrite Hc'. auto.
Qed.

Lemma accounted_clear (w : program) (self : nat) (n : Z) (pr' : Pool.process) :
  invariant w → accounted w →
  StringBuilderPool.clear self (proc w) = Ok (n, pr') →
  accounted {| proc := pr'; leases := leases w |}.
Proof.
  intros Hinv Hacc Hclear q Hq. simpl in Hq.
  unfold StringBuilderPool.clear in Hclear.
  pose proof Hclear as Hspec.
  apply clear_spec in Hspec as (_ & _ & Hp' & Hc' & _ & Ho'). simpl in *.
  unfold Pool.clear in Hclear. bind_inv Hclear. rename a into w1.
  pose proof (delete_each_gone _ _ _ E) as Hgone.
  pose proof (delete_each_spec _ _ _ E) as (_ & Hc1 & _). simpl in *.
  assert (Hnot : (q ∉ Pool.m_pool (Pool.pool (proc w)))
                 ∧ Pool.t_cachedBuffer (proc w) !! self ≠ Some q).
  { rewrite Hc1 in Hclear.
    destruct (Pool.t_cachedBuffer (proc w) !! self) as [cached|] eqn:Hcached.
    - unfold Pool.delete_object in Hclear. simpl in Hclear.
      bind_inv Hclear. injection Hclear as _ <-. bind_inv E0. injection E0 as <-.
      simpl in Hq. split.
      + intros Hin.
        assert (Hn : delete cached (Pool.objects w1) !! q = None)
          by (apply lookup_delete_None; right; apply Hgone; left; exact Hin).
        rewrite Hn in Hq. destruct Hq as (? & [=]).
      + intros [= ->]. rewrite lookup_delete_eq in Hq. destruct Hq as (? & [=]).
    - injection Hclear as _ <-. simpl in Hq. split; [|discriminate].
      intros Hin. rewrite (Hgone q (or_introl Hin)) in Hq. destruct Hq as (? & [=]). }
  destruct Hnot as (Hnp & Hnc).
  rewrite (Ho' q Hnp Hnc) in Hq.
  destruct (Hacc q Hq) as ([|t|l0] & Ho); simpl in Ho.
  - contradiction.
  - exists (InCache t). simpl. rewrite Hc'. apply lookup_delete_Some.
    split; [|exact Ho]. intros <-. congruence.
  - exists (InLease l0). exact Ho.
Qed.

Lemma accounted_cleanup (w : program) (self : nat) (pr' : Pool.process) :
  accounted w →
  Pool.ThreadLocalCleanup self (proc w) = Ok pr' →
  accounted {| proc := pr'; leases := leases w |}.
Proof.
  intros Hacc H q Hq. simpl in Hq. unfold Pool.ThreadLocalCleanup in H.
  destruct (Pool.t_cachedBuffer (proc w) !! self) as [cached|] eqn:Hc.
  - unfold Pool.delete_object in H. bind_inv H. injection H as <-.
    bind_inv E. injection E as <-. simpl in Hq.
    destruct (decide (q = cached)) as [->|Hne].
    { rewrite lookup_delete_eq in Hq. destruct Hq as (? & [=]). }
    rewrite lookup_delete_ne in Hq by congruence.
    destruct (Hacc q Hq) as ([|t|l0] & Ho); simpl in Ho.
    + exists InPool. exact Ho.
    + exists (InCache t). simpl. apply lookup_delete_Some. split; [|exact Ho].
      intros <-. congruence.
    + exists (InLease l0). exact Ho.
  - injection H as <-. destruct (Hacc q Hq) as (o & Ho). exists o.
    destruct o; exact Ho.
Qed.

Lemma step_accounted (w w' : program) :
  invariant w → accounted w → step w w' → accounted w'.
Proof.
  intros Hinv Hacc Hstep. destruct Hstep.
  - destruct r as (this & pr'). unfold StringBuilderPool.lease in H0.
    bind_inv H0. destruct a as (p & pr0). injection H0 as <- <-. simpl.
    apply (accounted_lease w self l p pr0 Hinv Hacc H E).
  - simpl. apply accounted_move; [exact Hacc|congruence|exact H0|].
    intros q (x & Hx & _). congruence.
  - destruct r as ((this' & other') & pr'). unfold Lease.move_assign in H2.
    bind_inv H2. destruct a as (disposed & pr0). injection H2 as <- <- <-. simpl.
    pose proof (accounted_dispose w self dst this disposed pr0 (Some Lease.exchanged)
                  Hinv Hacc H0 E) as Hacc1.
    pose proof (accounted_move
                  {| proc := pr0; leases := <[dst := Lease.exchanged]> (leases w) |}
                  dst src other Hacc1 H) as Hacc2. simpl in Hacc2.
    rewrite lookup_insert_ne in Hacc2 by exact H.
    rewrite (insert_insert_ne _ src dst), insert_insert_eq in Hacc2 by congruence.
    apply Hacc2; [exact H1|].
    intros q (x & Hx & Hxv & _). simpl in Hx. rewrite lookup_insert_eq in Hx.
    injection Hx as <-. discriminate.
  - unfold Lease.destroy in H0. bind_inv H0. destruct a as (disposed & pr0).
    injection H0 as <-. simpl.
    apply (accounted_dispose w self l this disposed pr0 None Hinv Hacc H E).
  - intros q Hq. simpl in Hq.
    assert (Hq0 : is_Some (Pool.objects (proc w) !! q)).
    { destruct (decide (p = q)) as [<-|Hne]; [eauto|].
      rewrite lookup_insert_ne in Hq by exact Hne. exact Hq. }
    destruct (Hacc q Hq0) as (o & Ho). exists o. destruct o; exact Ho.
  - intros q Hq. destruct (Hacc q Hq) as (o & Ho). exists o. destruct o; exact Ho.
  - destruct r as (n & pr'). simpl. apply (accounted_clear w self n pr' Hinv Hacc H).
  - apply (accounted_cleanup w self p Hacc H).
Qed.

Lemma reachable_accounted (w : program) : reachable w → accounted w.
Proof.
  induction 1 as [|w w' Hreach IH Hstep].
  - intros p (b & Hb). simpl in Hb. rewrite lookup_empty in Hb. discriminate.
  - apply (step_accounted w w' (reachable_invariant w Hreach) IH Hstep).
Qed.

(** In every reachable program each allocated buffer is referenced exactly
    once: by a valid lease, by the shared pool, or by the slot of some thread.
    No call of the interface -- taking a lease, moving it, destroying or
    disposing it, writing to its buffer, clearing the pool, resetting the
    counters -- leaves a buffer allocated that none of these reference.
    A slot counts here whether its thread is running or has ended: the
    property does not say that the buffer in the slot of an ended thread is
    ever deallocated. *)
Theorem allocated_buffers_are_referenced (w : program) (p : positive) :
  reachable w →
  is_Some (Pool.objects (proc w) !! p) →
  ∃ o, owns w o p ∧ ∀ o', owns w o' p → o' = o.
Proof.
  intros Hreach Hp.
  destruct (reachable_accounted w Hreach p Hp) as (o & Ho).
  exists o. split; [exact Ho|]. intros o' Ho'.
  apply (inv_unique w (reachable_invariant w Hreach) o' o p Ho' Ho).
Qed.

Lemma allocated_buffers_are_referenced_witness :
  is_Some (Pool.objects (proc busy) !! 3%positive)
  ∧ ∃ o, owns busy o 3%positive ∧ ∀ o', owns busy o' 3%positive → o' = o.
Proof.
  assert (H : is_Some (Pool.objects (proc busy) !! 3%positive))
    by (vm_compute; eexists; reflexivity).
  split; [exact H|]. apply (allocated_buffers_are_referenced busy 3%positive busy_reachable H).
Defined.

(** ** The slot of a thread and the destructor of [ThreadLocalCleanup] *)

(** When the destructor of the [t_cleanup] object of a thread runs in a
    reachable program, it completes.  If the slot of the thread holds a
    buffer, that buffer -- allocated until then -- is deallocated and the
    slot is emptied; if the slot is empty nothing changes.  The shared pool,
    the counters, the slots of the other threads and every other buffer are
    as they were.  (Whether the destructor runs at all when the thread ends
    is left to the implementation, the source never using the object.) *)
Theorem cleanup_frees_slot (w : program) (self : nat) :
  reachable w →
  ∃ pr', Pool.ThreadLocalCleanup self (proc w) = Ok pr'
         ∧ Pool.t_cachedBuffer pr' = delete self (Pool.t_cachedBuffer (proc w))
         ∧ Pool.pool pr' = Pool.pool (proc w)
         ∧ (∀ p, Pool.t_cachedBuffer (proc w) !! self = Some p →
                 is_Some (Pool.objects (proc w) !! p)
                 ∧ Pool.objects pr' = delete p (Pool.objects (proc w)))
         ∧ (Pool.t_cachedBuffer (proc w) !! self = None → pr' = proc w).
Proof.
  intros Hreach. apply reachable_invariant in Hreach as Hinv.
  unfold Pool.ThreadLocalCleanup.
  destruct (Pool.t_cachedBuffer (proc w) !! self) as [cached|] eqn:Hc.
  - destruct (inv_live w Hinv (InCache self) cached Hc) as (b & Hb & _).
    unfold Pool.delete_object. rewrite Hb. simpl. eexists. split; [reflexivity|].
    simpl. repeat split.
    + injection H as <-. eauto.
    + injection H as <-. reflexivity.
    + discriminate.
  - exists (proc w). split; [reflexivity|]. rewrite delete_id by exact Hc.
    repeat split; discriminate.
Qed.

Lemma cleanup_frees_slot_witness :
  ∃ pr', Pool.t_cachedBuffer (proc busy) !! 0%nat = Some 1%positive
         ∧ Pool.ThreadLocalCleanup 0%nat (proc busy) = Ok pr'
         ∧ Pool.t_cachedBuffer pr' !! 0%nat = None
         ∧ is_Some (Pool.objects (proc busy) !! 1%positive)
         ∧ Pool.objects pr' = delete 1%positive (Pool.objects (proc busy))
         ∧ Pool.pool pr' = Pool.pool (proc busy).
Proof.
  assert (Hslot : Pool.t_cachedBuffer (proc busy) !! 0%nat = Some 1%positive)
    by (vm_compute; reflexivity).
  destruct (cleanup_frees_slot busy 0%nat busy_reachable) as (pr' & H1 & H2 & H3 & H4 & _).
  destruct (H4 1%positive Hslot) as (H5 & H6).
  exists pr'. split; [exact Hslot|]. split; [exact H1|].
  split; [rewrite H2; apply lookup_delete_eq|]. split; [exact H5|].
  split; [exact H6|exact H3].
Defined.

(** The slot of a thread is private to it.  In a reachable program where
    the slot of thread [self] holds the buffer [p], no call made by another
    thread takes [p] out of the slot, hands it out or deallocates it: [get],
    [returnToPool] of a leased buffer (which is what the destructor, the
    disposal and the move assignment of a lease call), [clear] and the
    destructor of [ThreadLocalCleanup], made by a thread [other] that is not
    [self], complete and leave the slot and the buffer as they were.  So the
    buffer in the slot of a thread that has ended stays allocated until the
    destructor of the [t_cleanup] object of that very thread runs -- and for
    the rest of the program if it does not. *)
Theorem slot_is_private (w : program) (self other : nat) (p : positive) :
  reachable w →
  Pool.t_cachedBuffer (proc w) !! self = Some p →
  other ≠ self →
  is_Some (Pool.objects (proc w) !! p)
  ∧ (∃ q pr', Pool.get other (proc w) = Ok (q, pr')
              ∧ q ≠ p ∧ keeps_slot self p (proc w) pr')
  ∧ (∀ l q, holds w l q →
            ∃ pr', Pool.returnToPool other (Some q) (proc w) = Ok pr'
                   ∧ keeps_slot self p (proc w) pr')
  ∧ (∃ n pr', StringBuilderPool.clear other (proc w) = Ok (n, pr')
              ∧ keeps_slot self p (proc w) pr')
  ∧ (∃ pr', Pool.ThreadLocalCleanup other (proc w) = Ok pr'
            ∧ keeps_slot self p (proc w) pr').
Proof.
  intros Hreach Hslot Hne. apply reachable_invariant in Hreach as Hinv.
  pose proof Hinv as [Hcfg Hst Hnd Hbd Hu Hlive Hval].
  destruct (Hlive (InCache self) p Hslot) as (b & Hb & _).
  assert (Hnp : p ∉ Pool.m_pool (Pool.pool (proc w))).
  { intros Hin. pose proof (Hu InPool (InCache self) p Hin Hslot). discriminate. }
  assert (Hnc : ∀ q, Pool.t_cachedBuffer (proc w) !! other = Some q → q ≠ p).
  { intros q Hq ->. pose proof (Hu (InCache other) (InCache self) p Hq Hslot) as [=].
    congruence. }
  split; [eauto|]. split; [|split; [|split]].
  - destruct (get_exists w other Hinv) as (q & pr' & Hget).
    exists q, pr'. split; [exact Hget|].
    apply get_spec in Hget as (_ & Hcases). unfold keeps_slot.
    destruct Hcases as [(Hc & Hc' & _ & (x & _ & Ho') & _)
                       |[(_ & Hc' & Hp' & (x & _ & Ho') & _)
                        |(_ & Hc' & _ & _ & Hnone & (x & _ & Ho') & _)]].
    + pose proof (Hnc q Hc) as Hq. split; [exact Hq|].
      rewrite Hc', Ho', lookup_delete_ne, lookup_insert_ne by congruence. auto.
    + assert (Hq : q ≠ p).
      { intros ->. apply Hnp. rewrite Hp'. apply elem_of_app. right.
        apply list_elem_of_singleton. reflexivity. }
      split; [exact Hq|]. rewrite Hc', Ho', lookup_insert_ne by congruence. auto.
    + assert (Hq : q ≠ p) by congruence.
      split; [exact Hq|]. rewrite Hc', Ho', lookup_insert_ne by congruence. auto.
  - intros l q Hheld.
    assert (Hq : q ≠ p).
    { intros ->. pose proof (Hu (InLease l) (InCache self) p Hheld Hslot). discriminate. }
    destruct (Hlive (InLease l) q Hheld) as (bq & Hbq & _).
    destruct (returnToPool_exists other q (proc w) (ex_intro _ bq Hbq)) as (pr' & Hret).
    exists pr'. split; [exact Hret|].
    apply returnToPool_spec in Hret as (_ & _ & b0 & _ & Hcases). unfold keeps_slot.
    destruct Hcases as [(_ & Ho' & Hc' & _)
                       |[(_ & _ & Ho' & Hc' & _)
                        |[(_ & _ & _ & Ho' & Hc' & _)|(_ & _ & _ & Ho' & Hc' & _)]]];
      rewrite Hc', Ho'; rewrite ?lookup_insert_ne, ?lookup_delete_ne by congruence; auto.
  - destruct (clear_exists w other Hinv) as (n & pr' & Hclear).
    exists n, pr'. split; [exact Hclear|].
    unfold StringBuilderPool.clear in Hclear.
    apply clear_spec in Hclear as (_ & _ & _ & Hc' & _ & Ho'). simpl in *.
    unfold keeps_slot. rewrite Hc', lookup_delete_ne by congruence.
    split; [exact Hslot|]. apply Ho'; [exact Hnp|].
    intros Hq. apply (Hnc p Hq). reflexivity.
  - unfold Pool.ThreadLocalCleanup, keeps_slot.
    destruct (Pool.t_cachedBuffer (proc w) !! other) as [cached|] eqn:Hc.
    + destruct (Hlive (InCache other) cached Hc) as (bc & Hbc & _).
      pose proof (Hnc cached eq_refl) as Hq.
      unfold Pool.delete_object. rewrite Hbc. simpl. eexists. split; [reflexivity|].
      simpl. rewrite !lookup_delete_ne by congruence. auto.
    + exists (proc w). auto.
Qed.

Lemma slot_is_private_witness :
  ∃ q n pr1 pr2 pr3,
    Pool.t_cachedBuffer (proc busy) !! 1%nat = Some 4%positive
    ∧ Pool.get 0%nat (proc busy) = Ok (q, pr1)
    ∧ q ≠ 4%positive ∧ keeps_slot 1%nat 4%positive (proc busy) pr1
    ∧ Pool.returnToPool 0%nat (Some 5%positive) (proc busy) = Ok pr2
    ∧ keeps_slot 1%nat 4%positive (proc busy) pr2
    ∧ StringBuilderPool.clear 0%nat (proc busy) = Ok (n, pr3)
    ∧ keeps_slot 1%nat 4%positive (proc busy) pr3.
Proof.
  assert (Hslot : Pool.t_cachedBuffer (proc busy) !! 1%nat = Some 4%positive)
    by (vm_compute; reflexivity).
  assert (Hheld : holds busy 5%nat 5%positive).
  { exists (Lease.construct (Some 5%positive)). vm_compute. auto. }
  destruct (slot_is_private busy 1%nat 0%nat 4%positive busy_reachable Hslot)
    as (_ & (q & pr1 & H1 & H2 & H3) & H4 & (n & pr3 & H5 & H6) & _);
    [discriminate|].
  destruct (H4 5%nat 5%positive Hheld) as (pr2 & H7 & H8).
  exists q, n, pr1, pr2, pr3. auto 10.
Defined.

(** ** Where a released buffer goes *)

(** In every reachable program the destructor of a valid lease completes,
    leaves the counters alone, and puts the buffer in exactly one place: it is
    deallocated if its capacity exceeds 2048; else it goes to the slot of the
    destroying thread if that slot is empty; else to the back of the shared
    pool if the pool holds fewer than 24 buffers; else it is deallocated. *)
Theorem lease_destruction (w : program) (self l : nat) (this : Lease.t) (B : positive)
    (b : DSB.t) :
  reachable w →
  leases w !! l = Some this →
  Lease.m_valid this = true →
  Lease.m_buffer this = Some B →
  Pool.objects (proc w) !! B = Some b →
  ∃ pr', Lease.destroy self this (proc w) = Ok pr'
         ∧ Pool.stats pr' = Pool.stats (proc w)
         ∧ if 2048 <? DSB.capacity b
           then Pool.objects pr' = delete B (Pool.objects (proc w))
                ∧ Pool.t_cachedBuffer pr' = Pool.t_cachedBuffer (proc w)
                ∧ Pool.m_pool (Pool.pool pr') = Pool.m_pool (Pool.pool (proc w))
           else if negb (occupied self (proc w))
           then Pool.objects pr' = Pool.objects (proc w)
                ∧ Pool.t_cachedBuffer pr' = <[self := B]> (Pool.t_cachedBuffer (proc w))
                ∧ Pool.m_pool (Pool.pool pr') = Pool.m_pool (Pool.pool (proc w))
           else if Z.of_nat (length (Pool.m_pool (Pool.pool (proc w)))) <? 24
           then Pool.objects pr' = Pool.objects (proc w)
                ∧ Pool.t_cachedBuffer pr' = Pool.t_cachedBuffer (proc w)
                ∧ Pool.m_pool (Pool.pool pr') = Pool.m_pool (Pool.pool (proc w)) ++ [B]
           else Pool.objects pr' = delete B (Pool.objects (proc w))
                ∧ Pool.t_cachedBuffer pr' = Pool.t_cachedBuffer (proc w)
                ∧ Pool.m_pool (Pool.pool pr') = Pool.m_pool (Pool.pool (proc w)).
Proof.
  intros Hreach Hl Hv HB Hb. apply reachable_invariant in Hreach as Hinv.
  destruct (inv_config w Hinv) as (_ & Hmax & Hsize). simpl in Hmax, Hsize.
  unfold Lease.destroy, Lease.dispose. rewrite Hv, HB.
  unfold Pool.returnToPool, Pool.delete_object, occupied. rewrite Hb. simpl.
  rewrite Hmax, Hsize.
  destruct (2048 <? DSB.capacity b).
  - simpl. eexists. split; [reflexivity|]. repeat split.
  - destruct (Pool.t_cachedBuffer (proc w) !! self); simpl.
    + destruct (Z.of_nat (length (Pool.m_pool (Pool.pool (proc w)))) <? 24); simpl;
        eexists; (split; [reflexivity|]); repeat split.
    + eexists. split; [reflexivity|]. repeat split.
Qed.

Lemma lease_destruction_witness :
  ∃ pr', Lease.destroy 0%nat (Lease.construct (Some 1%positive)) (proc oversized) = Ok pr'
         ∧ Pool.objects pr' = delete 1%positive (Pool.objects (proc oversized)).
Proof.
  destruct (lease_destruction oversized 0%nat 0%nat (Lease.construct (Some 1%positive))
              1%positive (the DSB.default (DSB.exec (DSB.Reserve 5000) DSB.default))
              oversized_reachable)
    as (pr' & H1 & _ & H2).
  - vm_compute. reflexivity.
  - reflexivity.
  - reflexivity.
  - vm_compute. reflexivity.
  - exists pr'. split; [exact H1|]. apply H2.
Defined.
